(** * express-circuitbreaker: rolling-window statistics and circuit state machine

    A shallow embedding of class [Status] ([status.ts]) and of the
    middleware class [CircuitBreakerMiddleware] (which its tests import as
    [./circuit]), followed by the properties of the specification that were
    checked against them.

    Conventions of the embedding.
    - Counters are JavaScript numbers that start at 0 and are only ever
      incremented by [++]; they are modelled as [nat] (the loss of precision
      of doubles above 2^53 is not modelled).
    - Latencies are differences of [Date.now()] readings: integers, [Z].
    - Configuration numbers that are counts or durations are [Z]; the error
      threshold and the percentile levels are rationals, [Q].  The error
      rate and [latencyMean] are computed as the source computes them, in
      binary64: every quotient, product and sum is rounded to the nearest
      double, ties to even ([Binary64.nearest]); overflow to an infinity
      (magnitudes of 2^1024 and more) is not modelled.  The product
      [percentile * length] of [calculatePercentile] is computed exactly.
    - An exception is the [None] of the option monad: the [TypeError]
      raised by reading a property of [undefined], and the [RangeError] of
      [Array.from] in [Status.new].
    - Timers are handles in a table; time is not measured, a pending timer
      may fire at any later event.
    - [fail] is an [async] method: it counts the failure at once
      ([fail_sync]) and takes its decision after its [await], in a
      microtask ([fail_resume]).  The events of [step] run the two halves
      one after the other; what depends on a callback that runs in between
      is stated of the halves.
    - [Status] is modelled twice: first with buckets as values, then with
      buckets, arrays and dictionaries as mutable objects in a store.  The
      second model settles what depends on aliasing, and the two are shown
      to agree.
    - Logging has no effect on the state and is left out. *)

From Stdlib Require Import ZArith QArith Qround Qabs Lia.
From stdpp Require Import base option list sorting gmap.

(** ** Numbers

    The arithmetic of JavaScript numbers on the rationals: the result of an
    operation is the exact result rounded to the nearest binary64 value,
    ties to even, with gradual underflow. *)

Module Binary64.

(** [q * 2^k] for an integer [k] of either sign. *)
Definition scale (k : Z) (q : Q) : Q :=
  if (0 <=? k)%Z then q * inject_Z (2 ^ k) else q / inject_Z (2 ^ (- k)).

(** The integer nearest to [q], ties to the even one. *)
Definition nearest_even (q : Q) : Z :=
  let f := Qfloor q in
  match Qcompare (q - inject_Z f) (1 # 2) with
  | Lt => f
  | Gt => (f + 1)%Z
  | Eq => if Z.even f then f else (f + 1)%Z
  end.

(** The [e] with [2^e <= q < 2^(e+1)], for [q > 0]. *)
Definition exponent (q : Q) : Z :=
  let e := (Z.log2 (Qnum q) - Z.log2 (Zpos (Qden q)))%Z in
  if Qle_bool (scale e 1) q then e else (e - 1)%Z.

(** The double nearest to [x]: 53 significant bits, and no bit below
    [2^-1074]. *)
Definition nearest (x : Q) : Q :=
  let q := Qred x in
  if Qeq_bool q 0 then 0
  else
    let a := Qabs q in
    let ulp := Z.max (exponent a - 52) (-1074) in
    let r := Qred (scale ulp (inject_Z (nearest_even (scale (- ulp) a)))) in
    if Qle_bool 0 q then r else Qopp r.

Definition add (x y : Q) : Q := nearest (x + y).
Definition mul (x y : Q) : Q := nearest (x * y).
Definition div (x y : Q) : Q := nearest (x / y).

End Binary64.

(** ** Buckets and aggregate statistics (type [Bucket], type [Stats]) *)

(** [obj[key] = value] on an object used as a dictionary with numeric keys:
    an existing key keeps its position, a new key is added. *)
Fixpoint dict_set (key : Q) (value : Z) (d : list (Q * Z)) : list (Q * Z) :=
  match d with
  | [] => [(key, value)]
  | (k, v) :: rest =>
      if Qeq_bool k key then (k, value) :: rest
      else (k, v) :: dict_set key value rest
  end.

Fixpoint dict_get (key : Q) (d : list (Q * Z)) : option Z :=
  match d with
  | [] => None
  | (k, v) :: rest => if Qeq_bool k key then Some v else dict_get key rest
  end.

Module Bucket.

Record t := mk {
  failures : nat;
  successes : nat;
  fires : nat;
  timeouts : nat;
  percentiles : list (Q * Z);
  latencyTimes : list Z;
  isCircuitBreakerOpen : bool
}.

Definition set_latencyTimes (l : list Z) (b : t) : t :=
  mk (failures b) (successes b) (fires b) (timeouts b)
     (percentiles b) l (isCircuitBreakerOpen b).

Definition set_percentiles (d : list (Q * Z)) (b : t) : t :=
  mk (failures b) (successes b) (fires b) (timeouts b)
     d (latencyTimes b) (isCircuitBreakerOpen b).

Definition set_isCircuitBreakerOpen (f : bool) (b : t) : t :=
  mk (failures b) (successes b) (fires b) (timeouts b)
     (percentiles b) (latencyTimes b) f.

End Bucket.

(** [type Stats = Bucket & { latencyMean?: number }] *)
Module Stats.

Record t := mk {
  bucket : Bucket.t;
  latencyMean : Q
}.

Definition failures (s : t) := Bucket.failures (bucket s).
Definition successes (s : t) := Bucket.successes (bucket s).
Definition fires (s : t) := Bucket.fires (bucket s).
Definition timeouts (s : t) := Bucket.timeouts (bucket s).
Definition percentiles (s : t) := Bucket.percentiles (bucket s).
Definition latencyTimes (s : t) := Bucket.latencyTimes (bucket s).
Definition isCircuitBreakerOpen (s : t) :=
  Bucket.isCircuitBreakerOpen (bucket s).

End Stats.

Module StatusOptions.

Record t := mk {
  rollingCountBuckets : Z;
  rollingCountTimeout : Z;
  rollingPercentilesEnabled : option bool
}.

End StatusOptions.

(** The counters that the callers of [increment] name. *)
Inductive Property := Failures | Successes | Fires | Timeouts.

#[global] Instance Property_eq_dec : EqDecision Property.
Proof. solve_decision. Defined.

(** ** class [Status] *)

Module Status.

Record t := mk {
  buckets : list Bucket.t;
  timeout : Z;
  percentiles : list Q;
  rollingPercentilesEnabled : bool;
  (** whether the [setInterval] of [rotateBuckets] is still installed *)
  rotationTimer : bool
}.

Definition set_buckets (bs : list Bucket.t) (s : t) : t :=
  mk bs (timeout s) (percentiles s) (rollingPercentilesEnabled s)
     (rotationTimer s).

Definition set_rotationTimer (r : bool) (s : t) : t :=
  mk (buckets s) (timeout s) (percentiles s) (rollingPercentilesEnabled s) r.

Definition createBucket : Bucket.t :=
  Bucket.mk 0 0 0 0 [] [] false.

Definition default_percentiles : list Q :=
  [0; 1 # 4; 1 # 2; 3 # 4; 9 # 10; 19 # 20; 99 # 100; 199 # 200; 1]%Q.

(** The body of the constructor.  [Array.from({ length: n }, ...)]: the
    length is clamped at 0; see [new] for the lengths it refuses. *)
Definition constructor (options : StatusOptions.t) : t :=
  mk (replicate (Z.to_nat (StatusOptions.rollingCountBuckets options))
                createBucket)
     (StatusOptions.rollingCountTimeout options)
     default_percentiles
     (match StatusOptions.rollingPercentilesEnabled options with
      | Some false => false
      | _ => true
      end)
     true.

(** [new Status(options)].  [Array.from] raises a [RangeError] when the
    length is 2^32 or more; nothing else in the constructor fails. *)
Definition new (options : StatusOptions.t) : option t :=
  if (2 ^ 32 <=? StatusOptions.rollingCountBuckets options)%Z then None
  else Some (constructor options).

(** The callback that [rotateBuckets] installs: [pop] then [unshift].
    [pop] on an empty array does nothing. *)
Definition rotate (s : t) : t :=
  set_buckets (createBucket :: removelast (buckets s)) s.

(** One tick of the interval, which only runs while it is installed. *)
Definition rotationTick (s : t) : t :=
  if rotationTimer s then rotate s else s.

(** [arr[i]]; an index out of range reads [undefined], written 0 here
    (lemma [calculatePercentile_index_in_range] shows that
    [calculatePercentile] never reads out of range). *)
Definition at_index (l : list Z) (i : Z) : Z :=
  if (i <? 0)%Z then 0%Z else nth (Z.to_nat i) l 0%Z.

Definition percentile_index (percentile : Q) (n : nat) : Z :=
  (Qceiling (percentile * inject_Z (Z.of_nat n)) - 1)%Z.

Definition calculatePercentile (percentile : Q) (latencyTimes : list Z) : Z :=
  if (length latencyTimes =? 0)%nat then 0%Z
  else if Qle_bool percentile 0 then at_index latencyTimes 0
  else if Qle_bool 1 percentile
       then at_index latencyTimes (Z.of_nat (length latencyTimes) - 1)
  else at_index latencyTimes
                (percentile_index percentile (length latencyTimes)).

(** [latencyTimes.sort((a, b) => a - b)]: ascending numeric order. *)
Definition sort_ascending (l : list Z) : list Z := merge_sort Z.le l.

(** The reducer of [stats]. *)
Definition accumulate (acc bucket : Bucket.t) : Bucket.t :=
  Bucket.mk (Bucket.failures acc + Bucket.failures bucket)
            (Bucket.successes acc + Bucket.successes bucket)
            (Bucket.fires acc + Bucket.fires bucket)
            (Bucket.timeouts acc + Bucket.timeouts bucket)
            (Bucket.percentiles acc)
            (Bucket.latencyTimes acc ++ Bucket.latencyTimes bucket)
            (Bucket.isCircuitBreakerOpen acc).

(** [latencyTimes.reduce((acc, cur) => acc + cur, 0) / latencyTimes.length]
    when there is a sample, 0 otherwise. *)
Definition mean (latencyTimes : list Z) : Q :=
  if (0 <? length latencyTimes)%nat
  then Binary64.div
         (foldl (fun acc cur => Binary64.add acc (inject_Z cur)) 0%Q
                latencyTimes)
         (inject_Z (Z.of_nat (length latencyTimes)))
  else 0%Q.

Definition fill_percentiles (enabled : bool) (levels : list Q)
    (latencyTimes : list Z) (d : list (Q * Z)) : list (Q * Z) :=
  if enabled
  then foldl (fun d p => dict_set p (calculatePercentile p latencyTimes) d)
             d levels
  else foldl (fun d p => dict_set p 0%Z d) d levels.

(** [get stats()] *)
Definition stats (s : t) : option Stats.t :=
  let aggregatedStats := foldl accumulate createBucket (buckets s) in
  let sorted := sort_ascending (Bucket.latencyTimes aggregatedStats) in
  let latencyMean := mean sorted in
  let dict :=
    fill_percentiles (rollingPercentilesEnabled s) (percentiles s) sorted
                     (Bucket.percentiles aggregatedStats) in
  first ← head (buckets s);
  Some (Stats.mk
          (Bucket.mk (Bucket.failures aggregatedStats)
                     (Bucket.successes aggregatedStats)
                     (Bucket.fires aggregatedStats)
                     (Bucket.timeouts aggregatedStats)
                     dict sorted
                     (Bucket.isCircuitBreakerOpen first))
          latencyMean).

(** [currentBucket[property]++] *)
Definition bump (property : Property) (b : Bucket.t) : Bucket.t :=
  match property with
  | Failures =>
      Bucket.mk (S (Bucket.failures b)) (Bucket.successes b) (Bucket.fires b)
                (Bucket.timeouts b) (Bucket.percentiles b)
                (Bucket.latencyTimes b) (Bucket.isCircuitBreakerOpen b)
  | Successes =>
      Bucket.mk (Bucket.failures b) (S (Bucket.successes b)) (Bucket.fires b)
                (Bucket.timeouts b) (Bucket.percentiles b)
                (Bucket.latencyTimes b) (Bucket.isCircuitBreakerOpen b)
  | Fires =>
      Bucket.mk (Bucket.failures b) (Bucket.successes b) (S (Bucket.fires b))
                (Bucket.timeouts b) (Bucket.percentiles b)
                (Bucket.latencyTimes b) (Bucket.isCircuitBreakerOpen b)
  | Timeouts =>
      Bucket.mk (Bucket.failures b) (Bucket.successes b) (Bucket.fires b)
                (S (Bucket.timeouts b)) (Bucket.percentiles b)
                (Bucket.latencyTimes b) (Bucket.isCircuitBreakerOpen b)
  end.

(** [latencyTimes.push(latencyRunTime)] when a latency is supplied. *)
Definition push_latency (latencyRunTime : option Z) (b : Bucket.t) : Bucket.t :=
  match latencyRunTime with
  | Some l => Bucket.set_latencyTimes (Bucket.latencyTimes b ++ [l]) b
  | None => b
  end.

Definition increment (property : Property) (latencyRunTime : option Z)
    (s : t) : option t :=
  match buckets s with
  | [] => None
  | currentBucket :: rest =>
      Some (set_buckets
              (push_latency latencyRunTime (bump property currentBucket)
               :: rest) s)
  end.

Definition open (s : t) : option t :=
  match buckets s with
  | [] => None
  | b :: rest =>
      Some (set_buckets (Bucket.set_isCircuitBreakerOpen true b :: rest) s)
  end.

Definition close (s : t) : option t :=
  match buckets s with
  | [] => None
  | b :: rest =>
      Some (set_buckets (Bucket.set_isCircuitBreakerOpen false b :: rest) s)
  end.

Definition shutdown (s : t) : t := set_rotationTimer false s.

End Status.

(** ** class [CircuitBreakerMiddleware] *)

(** [CircuitBreakerOptions]: the options after the defaults were merged in
    ([name] and [logger] only feed the log).  [timeout] is [number | false];
    [isError] is applied to the status code of the response. *)
Module Options.

Record t := mk {
  logOnly : bool;
  timeout : option Z;
  resetTimeout : Z;
  rollingCountTimeout : Z;
  rollingCountBuckets : Z;
  rollingPercentilesEnabled : bool;
  errorThresholdPercentage : Q;
  enabled : bool;
  allowWarmUp : bool;
  volumeThreshold : Z;
  isError : Z -> bool
}.

Definition defaultErrorFn (statusCode : Z) : bool := (400 <=? statusCode)%Z.

Definition defaults : t :=
  mk false (Some 10000%Z) 30000%Z 10000%Z 10%Z true 50%Q true false 0%Z
     defaultErrorFn.

End Options.

Module State.
Inductive t := open | closed | half_open | shutdown.

Definition eqb (a b : t) : bool :=
  match a, b with
  | open, open | closed, closed | half_open, half_open
  | shutdown, shutdown => true
  | _, _ => false
  end.
End State.

(** The one-shot timers of the runtime that belong to the breaker.  Handles
    are never reused.  Time itself is not modelled: a pending timer may fire
    at any later event. *)
Inductive Callback :=
| ResetCallback
| WarmUpCallback
| RequestTimeoutCallback (startedAt : Z).

Module Timers.

Record t := mk {
  pending : gmap nat (Callback * Z);
  next : nat
}.

Definition empty : t := mk ∅ 0.

Definition setTimeout (callback : Callback) (delay : Z) (ts : t) : nat * t :=
  (next ts, mk (<[next ts := (callback, delay)]> (pending ts)) (S (next ts))).

Definition clearTimeout (id : nat) (ts : t) : t :=
  mk (delete id (pending ts)) (next ts).

(** [if (handle) clearTimeout(handle)] *)
Definition clearHandle (handle : option nat) (ts : t) : t :=
  match handle with
  | Some id => clearTimeout id ts
  | None => ts
  end.

Definition callback_of (id : nat) (ts : t) : option Callback :=
  fst <$> pending ts !! id.

End Timers.

(** The closure that [middleware] registers on the response for one forwarded
    invocation: both listeners share [timeoutId] and [startedAt]. *)
Module Invocation.
Record t := mk {
  timeoutId : option nat;
  startedAt : Z
}.
End Invocation.

(** A JavaScript number that may be infinite or not a number. *)
Inductive Number := Finite (q : Q) | Infinity | NaN.

Definition number_gt (x : Number) (y : Q) : bool :=
  match x with
  | Finite q => negb (Qle_bool q y)
  | Infinity => true
  | NaN => false
  end.

Module CircuitBreakerMiddleware.

(** The fields of the class, and the part of the runtime the instance talks
    to: its timers and the listeners it registered.  [lastTimerAt] is
    written and never read; it is left out. *)
Record t := mk {
  status : Status.t;
  options : Options.t;
  warmupTimeout : option nat;
  state : State.t;
  warmUp : bool;
  resetTimeout : option nat;
  timers : Timers.t;
  listeners : list Invocation.t
}.

Definition set_status (s : Status.t) (w : t) : t :=
  mk s (options w) (warmupTimeout w) (state w) (warmUp w) (resetTimeout w)
     (timers w) (listeners w).

Definition set_state (s : State.t) (w : t) : t :=
  mk (status w) (options w) (warmupTimeout w) s (warmUp w) (resetTimeout w)
     (timers w) (listeners w).

Definition set_warmUp (b : bool) (w : t) : t :=
  mk (status w) (options w) (warmupTimeout w) (state w) b (resetTimeout w)
     (timers w) (listeners w).

Definition set_resetTimeout (h : option nat) (w : t) : t :=
  mk (status w) (options w) (warmupTimeout w) (state w) (warmUp w) h
     (timers w) (listeners w).

Definition set_timers (ts : Timers.t) (w : t) : t :=
  mk (status w) (options w) (warmupTimeout w) (state w) (warmUp w)
     (resetTimeout w) ts (listeners w).

Definition set_listeners (l : list Invocation.t) (w : t) : t :=
  mk (status w) (options w) (warmupTimeout w) (state w) (warmUp w)
     (resetTimeout w) (timers w) l.

Definition constructor (options : Options.t) : option t :=
  status ←
    Status.new
      (StatusOptions.mk (Options.rollingCountBuckets options)
                        (Options.rollingCountTimeout options)
                        (Some (Options.rollingPercentilesEnabled options)));
  let warmUp := Options.allowWarmUp options in
  let '(warmupTimeout, timers) :=
    if warmUp
    then let '(id, ts) :=
           Timers.setTimeout WarmUpCallback
                             (Options.rollingCountTimeout options)
                             Timers.empty in
         (Some id, ts)
    else (None, Timers.empty) in
  (* the child logger is given [this.status.stats] *)
  _ ← Status.stats status;
  Some (mk status options warmupTimeout State.closed warmUp None timers []).

Definition startTimer (w : t) : t :=
  let '(id, ts) :=
    Timers.setTimeout ResetCallback (Options.resetTimeout (options w))
                      (timers w) in
  set_resetTimeout (Some id) (set_timers ts w).

Definition open (w : t) : option t :=
  if negb (State.eqb (state w) State.open)
  then
    let w := set_state State.open w in
    s ← Status.open (status w);
    Some (startTimer (set_status s w))
  else Some w.

Definition close (w : t) : option t :=
  if negb (State.eqb (state w) State.closed)
  then
    let w := set_timers (Timers.clearHandle (resetTimeout w) (timers w)) w in
    let w := set_state State.closed w in
    s ← Status.close (status w);
    Some (set_status s w)
  else Some w.

Definition shutdown (w : t) : t :=
  let w := set_state State.shutdown w in
  let w := set_timers (Timers.clearHandle (resetTimeout w) (timers w)) w in
  let w := set_timers (Timers.clearHandle (warmupTimeout w) (timers w)) w in
  set_status (Status.shutdown (status w)) w.

(** [(stats.failures / stats.fires) * 100]: 0/0 is NaN, a positive
    count by 0 is infinite, and so are their products with 100. *)
Definition errorRate (stats : Stats.t) : Number :=
  match Stats.fires stats, Stats.failures stats with
  | O, O => NaN
  | O, S _ => Infinity
  | S _, _ =>
      Finite (Binary64.mul
                (Binary64.div (inject_Z (Z.of_nat (Stats.failures stats)))
                              (inject_Z (Z.of_nat (Stats.fires stats))))
                100)
  end.

(** [fail] up to its [await]: the failure is counted. *)
Definition fail_sync (w : t) : option t :=
  s ← Status.increment Failures None (status w);
  Some (set_status s w).

(** [fail] after its [await].  This part runs as a microtask, after the
    callback that called [fail] and whatever else runs before the
    microtask queue is drained; it reads the warm-up flag, the snapshot
    and the state as they are then. *)
Definition fail_resume (w : t) : option t :=
  if warmUp w then Some w
  else
    stats ← Status.stats (status w);
    if (Z.of_nat (Stats.fires stats) <? Options.volumeThreshold (options w))%Z
       && negb (State.eqb (state w) State.half_open)
    then Some w
    else
      if number_gt (errorRate stats)
                   (Options.errorThresholdPercentage (options w))
         || State.eqb (state w) State.half_open
      then open w
      else Some w.

(** [fail] with nothing in between its two halves (lemma [fail_split]). *)
Definition fail (w : t) : option t :=
  s ← Status.increment Failures None (status w);
  let w := set_status s w in
  if warmUp w then Some w
  else
    stats ← Status.stats (status w);
    if (Z.of_nat (Stats.fires stats) <? Options.volumeThreshold (options w))%Z
       && negb (State.eqb (state w) State.half_open)
    then Some w
    else
      if number_gt (errorRate stats)
                   (Options.errorThresholdPercentage (options w))
         || State.eqb (state w) State.half_open
      then open w
      else Some w.

Definition success (w : t) : option t :=
  s ← Status.increment Successes None (status w);
  let w := set_status s w in
  if State.eqb (state w) State.half_open then close w else Some w.

(** [this.status.increment("fires")], the first step of an enabled
    [middleware]. *)
Definition countInvocation (w : t) : option t :=
  s ← Status.increment Fires None (status w);
  Some (set_status s w).

Inductive Admission :=
| Disabled            (* [next()] without any bookkeeping *)
| Rejected            (* 503 Service Unavailable *)
| Forwarded (inv : Invocation.t).

Definition middleware (now : Z) (w : t) : option (t * Admission) :=
  if negb (Options.enabled (options w)) then Some (w, Disabled)
  else
    w ← countInvocation w;
    if State.eqb (state w) State.open && negb (Options.logOnly (options w))
    then Some (w, Rejected)
    else
      let startedAt := now in
      let '(timeoutId, w) :=
        match Options.timeout (options w) with
        | Some delay =>
            let '(id, ts) :=
              Timers.setTimeout (RequestTimeoutCallback startedAt) delay
                                (timers w) in
            (Some id, set_timers ts w)
        | None => (None, w)
        end in
      let inv := Invocation.mk timeoutId startedAt in
      Some (set_listeners (listeners w ++ [inv]) w, Forwarded inv).

(** The callback of the deadline timer. *)
Definition onTimeout (startedAt now : Z) (w : t) : option t :=
  let latency := (now - startedAt)%Z in
  s ← Status.increment Timeouts (Some latency) (status w);
  fail (set_status s w).

(** The ["finish"] listener. *)
Definition onFinish (inv : Invocation.t) (statusCode now : Z) (w : t)
    : option t :=
  let w :=
    set_timers (Timers.clearHandle (Invocation.timeoutId inv) (timers w)) w in
  if Options.isError (options w) statusCode then fail w else success w.

(** The ["close"] listener. *)
Definition onClose (inv : Invocation.t) (now : Z) (w : t) : option t :=
  let w :=
    set_timers (Timers.clearHandle (Invocation.timeoutId inv) (timers w)) w in
  fail w.

(** A pending timer fires: it leaves the table and its callback runs. *)
Definition fireTimer (id : nat) (now : Z) (w : t) : option t :=
  match Timers.callback_of id (timers w) with
  | None => Some w
  | Some callback =>
      let w := set_timers (Timers.clearTimeout id (timers w)) w in
      match callback with
      | ResetCallback => Some (set_state State.half_open w)
      | WarmUpCallback => Some (set_warmUp false w)
      | RequestTimeoutCallback startedAt => onTimeout startedAt now w
      end
  end.

(** A tick of the rotation interval of the window. *)
Definition rotation (w : t) : t :=
  set_status (Status.rotationTick (status w)) w.

(** Everything that can happen to an instance. *)
Inductive Event :=
| Request (now : Z)
| Finish (listener : nat) (statusCode now : Z)
| Close (listener : nat) (now : Z)
| TimerFires (id : nat) (now : Z)
| RotationTick
| CallOpen
| CallClose
| CallSuccess
| CallShutdown.

Definition step (e : Event) (w : t) : option t :=
  match e with
  | Request now => fst <$> middleware now w
  | Finish k statusCode now =>
      match listeners w !! k with
      | Some inv => onFinish inv statusCode now w
      | None => Some w
      end
  | Close k now =>
      match listeners w !! k with
      | Some inv => onClose inv now w
      | None => Some w
      end
  | TimerFires id now => fireTimer id now w
  | RotationTick => Some (rotation w)
  | CallOpen => open w
  | CallClose => close w
  | CallSuccess => success w
  | CallShutdown => Some (shutdown w)
  end.

Fixpoint run (events : list Event) (w : t) : option t :=
  match events with
  | [] => Some w
  | e :: rest => w' ← step e w; run rest w'
  end.

Inductive reachable : t -> Prop :=
| reachable_new options w :
    constructor options = Some w -> reachable w
| reachable_step e w w' :
    reachable w -> step e w = Some w' -> reachable w'.

(** What the outcome reports do to the breaker, without the web layer:
    an invocation is counted, a success or a failure is reported, a
    deadline expires, the window rotates. *)
Inductive Report :=
| Invoked
| Succeeded
| Failed
| TimedOut (latency : Z)
| Rotated.

Definition report (r : Report) (w : t) : option t :=
  match r with
  | Invoked => countInvocation w
  | Succeeded => success w
  | Failed => fail w
  | TimedOut latency => onTimeout 0 latency w
  | Rotated => Some (rotation w)
  end.

Fixpoint reports (rs : list Report) (w : t) : option t :=
  match rs with
  | [] => Some w
  | r :: rest => w' ← report r w; reports rest w'
  end.

(** A counter of the aggregate snapshot. *)
Definition snapshot (property : Property) (w : t) : option nat :=
  stats ← Status.stats (status w);
  Some (match property with
        | Failures => Stats.failures stats
        | Successes => Stats.successes stats
        | Fires => Stats.fires stats
        | Timeouts => Stats.timeouts stats
        end).

End CircuitBreakerMiddleware.

(** ** Object identity

    The models above treat buckets as values.  In the source they are
    mutable objects, and [stats] builds its result by mutating an
    accumulator in place ([+=], [sort]).  Whether a read leaves the window
    untouched is a question about aliasing, so [Status] is modelled a second
    time over a store of objects: bucket objects, arrays and dictionaries
    live at references, and every read and write of the source is a read or
    a write of the store. *)

Module Store.

Record BucketObj := mkBucket {
  failures : nat;
  successes : nat;
  fires : nat;
  timeouts : nat;
  percentiles : positive;      (* reference to a dictionary *)
  latencyTimes : positive;     (* reference to an array *)
  isCircuitBreakerOpen : bool;
  latencyMean : option Q       (* absent on a plain bucket *)
}.

Inductive object :=
| OBucket (b : BucketObj)
| OArray (l : list Z)
| ODict (d : list (Q * Z)).

Definition alloc (o : object) (h : gmap positive object)
    : positive * gmap positive object :=
  let r := fresh (dom h) in (r, <[r := o]> h).

Definition getBucket (r : positive) (h : gmap positive object)
    : option BucketObj :=
  match h !! r with Some (OBucket b) => Some b | _ => None end.

Definition getArray (r : positive) (h : gmap positive object)
    : option (list Z) :=
  match h !! r with Some (OArray l) => Some l | _ => None end.

Definition getDict (r : positive) (h : gmap positive object)
    : option (list (Q * Z)) :=
  match h !! r with Some (ODict d) => Some d | _ => None end.

Definition put (r : positive) (o : object) (h : gmap positive object)
    : gmap positive object :=
  <[r := o]> h.

(** [obj.field = ...] or [obj.field op= ...] on a bucket object. *)
Definition modify (r : positive) (f : BucketObj -> BucketObj)
    (h : gmap positive object) : option (gmap positive object) :=
  b ← getBucket r h; Some (put r (OBucket (f b)) h).

Definition add_failures (n : nat) (b : BucketObj) : BucketObj :=
  mkBucket (failures b + n) (successes b) (fires b) (timeouts b)
           (percentiles b) (latencyTimes b) (isCircuitBreakerOpen b)
           (latencyMean b).

Definition add_successes (n : nat) (b : BucketObj) : BucketObj :=
  mkBucket (failures b) (successes b + n) (fires b) (timeouts b)
           (percentiles b) (latencyTimes b) (isCircuitBreakerOpen b)
           (latencyMean b).

Definition add_fires (n : nat) (b : BucketObj) : BucketObj :=
  mkBucket (failures b) (successes b) (fires b + n) (timeouts b)
           (percentiles b) (latencyTimes b) (isCircuitBreakerOpen b)
           (latencyMean b).

Definition add_timeouts (n : nat) (b : BucketObj) : BucketObj :=
  mkBucket (failures b) (successes b) (fires b) (timeouts b + n)
           (percentiles b) (latencyTimes b) (isCircuitBreakerOpen b)
           (latencyMean b).

Definition set_latencyTimes (r : positive) (b : BucketObj) : BucketObj :=
  mkBucket (failures b) (successes b) (fires b) (timeouts b)
           (percentiles b) r (isCircuitBreakerOpen b) (latencyMean b).

Definition set_isCircuitBreakerOpen (f : bool) (b : BucketObj) : BucketObj :=
  mkBucket (failures b) (successes b) (fires b) (timeouts b)
           (percentiles b) (latencyTimes b) f (latencyMean b).

Definition set_latencyMean (m : Q) (b : BucketObj) : BucketObj :=
  mkBucket (failures b) (successes b) (fires b) (timeouts b)
           (percentiles b) (latencyTimes b) (isCircuitBreakerOpen b) (Some m).

(** The value of a bucket object: its fields with the array and the
    dictionary read through their references. *)
Definition read_bucket (h : gmap positive object) (r : positive)
    : option Bucket.t :=
  b ← getBucket r h;
  l ← getArray (latencyTimes b) h;
  d ← getDict (percentiles b) h;
  Some (Bucket.mk (failures b) (successes b) (fires b) (timeouts b) d l
                  (isCircuitBreakerOpen b)).

Definition read_stats (h : gmap positive object) (r : positive)
    : option Stats.t :=
  b ← getBucket r h;
  v ← read_bucket h r;
  m ← latencyMean b;
  Some (Stats.mk v m).

End Store.

Module StatusObj.

Record t := mk {
  buckets : list positive;
  timeout : Z;
  percentiles : list Q;
  rollingPercentilesEnabled : bool;
  rotationTimer : bool
}.

Definition set_buckets (bs : list positive) (s : t) : t :=
  mk bs (timeout s) (percentiles s) (rollingPercentilesEnabled s)
     (rotationTimer s).

(** Each call builds a new dictionary, a new array and a new object. *)
Definition createBucket (h : gmap positive Store.object)
    : positive * gmap positive Store.object :=
  let '(d, h) := Store.alloc (Store.ODict []) h in
  let '(l, h) := Store.alloc (Store.OArray []) h in
  Store.alloc (Store.OBucket (Store.mkBucket 0 0 0 0 d l false None)) h.

Fixpoint createBuckets (n : nat) (h : gmap positive Store.object)
    : list positive * gmap positive Store.object :=
  match n with
  | O => ([], h)
  | S n =>
      let '(b, h) := createBucket h in
      let '(bs, h) := createBuckets n h in
      (b :: bs, h)
  end.

Definition constructor (options : StatusOptions.t)
    (h : gmap positive Store.object) : t * gmap positive Store.object :=
  let '(bs, h) :=
    createBuckets (Z.to_nat (StatusOptions.rollingCountBuckets options)) h in
  (mk bs (StatusOptions.rollingCountTimeout options)
      Status.default_percentiles
      (match StatusOptions.rollingPercentilesEnabled options with
       | Some false => false
       | _ => true
       end)
      true,
   h).

Definition rotate (s : t) (h : gmap positive Store.object)
    : t * gmap positive Store.object :=
  let bs := removelast (buckets s) in
  let '(b, h) := createBucket h in
  (set_buckets (b :: bs) s, h).

Definition bump (property : Property) : Store.BucketObj -> Store.BucketObj :=
  match property with
  | Failures => Store.add_failures 1
  | Successes => Store.add_successes 1
  | Fires => Store.add_fires 1
  | Timeouts => Store.add_timeouts 1
  end.

Definition increment (property : Property) (latencyRunTime : option Z)
    (s : t) (h : gmap positive Store.object)
    : option (gmap positive Store.object) :=
  currentBucket ← head (buckets s);
  h ← Store.modify currentBucket (bump property) h;
  match latencyRunTime with
  | Some latency =>
      b ← Store.getBucket currentBucket h;
      l ← Store.getArray (Store.latencyTimes b) h;
      Some (Store.put (Store.latencyTimes b) (Store.OArray (l ++ [latency])) h)
  | None => Some h
  end.

Definition open (s : t) (h : gmap positive Store.object)
    : option (gmap positive Store.object) :=
  b ← head (buckets s);
  Store.modify b (Store.set_isCircuitBreakerOpen true) h.

Definition close (s : t) (h : gmap positive Store.object)
    : option (gmap positive Store.object) :=
  b ← head (buckets s);
  Store.modify b (Store.set_isCircuitBreakerOpen false) h.

(** The reducer of [stats], statement by statement; every statement reads
    [acc] and [bucket] from the store again. *)
Definition accumulate (acc bucket : positive)
    (h : gmap positive Store.object) : option (gmap positive Store.object) :=
  b ← Store.getBucket bucket h;
  h ← Store.modify acc (Store.add_failures (Store.failures b)) h;
  b ← Store.getBucket bucket h;
  h ← Store.modify acc (Store.add_successes (Store.successes b)) h;
  b ← Store.getBucket bucket h;
  h ← Store.modify acc (Store.add_fires (Store.fires b)) h;
  b ← Store.getBucket bucket h;
  h ← Store.modify acc (Store.add_timeouts (Store.timeouts b)) h;
  (* acc.latencyTimes = [...acc.latencyTimes, ...bucket.latencyTimes] *)
  a ← Store.getBucket acc h;
  xs ← Store.getArray (Store.latencyTimes a) h;
  b ← Store.getBucket bucket h;
  ys ← Store.getArray (Store.latencyTimes b) h;
  let '(r, h) := Store.alloc (Store.OArray (xs ++ ys)) h in
  Store.modify acc (Store.set_latencyTimes r) h.

Fixpoint reduce (acc : positive) (bs : list positive)
    (h : gmap positive Store.object) : option (gmap positive Store.object) :=
  match bs with
  | [] => Some h
  | bucket :: rest => h ← accumulate acc bucket h; reduce acc rest h
  end.

(** [aggregatedStats.percentiles[percentile] = ...] for one level. *)
Definition set_percentile (enabled : bool) (acc : positive) (percentile : Q)
    (h : gmap positive Store.object) : option (gmap positive Store.object) :=
  a ← Store.getBucket acc h;
  value ←
    (if enabled
     then l ← Store.getArray (Store.latencyTimes a) h;
          Some (Status.calculatePercentile percentile l)
     else Some 0%Z);
  d ← Store.getDict (Store.percentiles a) h;
  Some (Store.put (Store.percentiles a)
                  (Store.ODict (dict_set percentile value d)) h).

Fixpoint set_percentiles (enabled : bool) (acc : positive) (levels : list Q)
    (h : gmap positive Store.object) : option (gmap positive Store.object) :=
  match levels with
  | [] => Some h
  | p :: rest =>
      h ← set_percentile enabled acc p h; set_percentiles enabled acc rest h
  end.

(** [get stats()]: returns the reference of the aggregate it built. *)
Definition stats (s : t) (h : gmap positive Store.object)
    : option (positive * gmap positive Store.object) :=
  let '(acc, h) := createBucket h in
  h ← reduce acc (buckets s) h;
  (* aggregatedStats.latencyTimes.sort(...) sorts the array in place *)
  a ← Store.getBucket acc h;
  l ← Store.getArray (Store.latencyTimes a) h;
  let h :=
    Store.put (Store.latencyTimes a) (Store.OArray (Status.sort_ascending l))
              h in
  (* aggregatedStats.latencyMean = ... *)
  a ← Store.getBucket acc h;
  l ← Store.getArray (Store.latencyTimes a) h;
  h ← Store.modify acc (Store.set_latencyMean (Status.mean l)) h;
  h ← set_percentiles (rollingPercentilesEnabled s) acc (percentiles s) h;
  (* aggregatedStats.isCircuitBreakerOpen = this.buckets[0].... *)
  first ← head (buckets s);
  b ← Store.getBucket first h;
  h ← Store.modify acc
        (Store.set_isCircuitBreakerOpen (Store.isCircuitBreakerOpen b)) h;
  Some (acc, h).

(** What can be done to the window between two reads. *)
Inductive Op :=
| Increment (property : Property) (latencyRunTime : option Z)
| Rotate
| Open
| Close.

Definition exec (op : Op) (sh : t * gmap positive Store.object)
    : option (t * gmap positive Store.object) :=
  let '(s, h) := sh in
  match op with
  | Increment property latency =>
      h ← increment property latency s h; Some (s, h)
  | Rotate => Some (rotate s h)
  | Open => h ← open s h; Some (s, h)
  | Close => h ← close s h; Some (s, h)
  end.

Fixpoint execs (ops : list Op) (sh : t * gmap positive Store.object)
    : option (t * gmap positive Store.object) :=
  match ops with
  | [] => Some sh
  | op :: rest => sh ← exec op sh; execs rest sh
  end.

(** The values of all buckets of the window, in order. *)
Definition read_buckets (h : gmap positive Store.object) (s : t)
    : option (list Bucket.t) :=
  mapM (Store.read_bucket h) (buckets s).

(** The window as a value of the first model. *)
Definition read_status (h : gmap positive Store.object) (s : t)
    : option Status.t :=
  bs ← read_buckets h s;
  Some (Status.mk bs (timeout s) (percentiles s)
                  (rollingPercentilesEnabled s) (rotationTimer s)).

End StatusObj.

(** ** Vocabulary of the statements *)

Definition counter (property : Property) (b : Bucket.t) : nat :=
  match property with
  | Failures => Bucket.failures b
  | Successes => Bucket.successes b
  | Fires => Bucket.fires b
  | Timeouts => Bucket.timeouts b
  end.

(** The sum of one counter over the buckets of the window. *)
Definition window_total (property : Property) (s : Status.t) : nat :=
  sum_list (counter property <$> Status.buckets s).

(** All latency samples of the window, bucket after bucket. *)
Definition window_latencies (s : Status.t) : list Z :=
  mjoin (Bucket.latencyTimes <$> Status.buckets s).

Definition stats_counter (property : Property) (st : Stats.t) : nat :=
  counter property (Stats.bucket st).

(** A window built from [options] that received [samples] as the latencies
    of successive [increment("successes", latency)] calls; the percentile
    that its snapshot reports at level [p]. *)
Definition record_samples (samples : list Z) (s : Status.t) : option Status.t :=
  foldl (fun o latency => s ← o; Status.increment Successes (Some latency) s)
        (Some s) samples.

Definition reported_percentile (options : StatusOptions.t) (samples : list Z)
    (p : Q) : option Z :=
  s ← record_samples samples (Status.constructor options);
  st ← Status.stats s;
  dict_get p (Stats.percentiles st).

(** [v] is the nearest-rank percentile of level [p] of the ascending
    samples [l]: the sample at index [ceil(p * n) - 1], the first sample for
    [p <= 0], the last one for [p >= 1]. *)
Definition nearest_rank (p : Q) (l : list Z) (v : Z) : Prop :=
  ((p <= 0)%Q -> head l = Some v /\ forall x, x ∈ l -> (v <= x)%Z)
  /\ ((1 <= p)%Q -> last l = Some v /\ forall x, x ∈ l -> (x <= v)%Z)
  /\ ((0 < p)%Q -> (p < 1)%Q ->
      let i := (Qceiling (p * inject_Z (Z.of_nat (length l))) - 1)%Z in
      (0 <= i < Z.of_nat (length l))%Z /\ l !! Z.to_nat i = Some v).

Module CB := CircuitBreakerMiddleware.

(** [(failures / fires) * 100] on the totals of the window. *)
Definition rate (failures fires : nat) : Number :=
  match fires, failures with
  | O, O => NaN
  | O, S _ => Infinity
  | S _, _ =>
      Finite (Binary64.mul
                (Binary64.div (inject_Z (Z.of_nat failures))
                              (inject_Z (Z.of_nat fires)))
                100)
  end.

(** The decision of [fail] once warm-up is over, on the totals it reads:
    whether it calls [open]. *)
Definition trips (o : Options.t) (st : State.t) (failures fires : nat) : bool :=
  negb ((Z.of_nat fires <? Options.volumeThreshold o)%Z
        && negb (State.eqb st State.half_open))
  && (number_gt (rate failures fires) (Options.errorThresholdPercentage o)
      || State.eqb st State.half_open).

(** [w'] differs from [w] by an outcome report: the configuration, the
    warm-up flag and the number of buckets are the same, and the totals of
    the window grew by [d]. *)
Record recorded (d : Property -> nat) (w w' : CB.t) : Prop := {
  rec_options : CB.options w' = CB.options w;
  rec_warmUp : CB.warmUp w' = CB.warmUp w;
  rec_length :
    length (Status.buckets (CB.status w'))
    = length (Status.buckets (CB.status w));
  rec_totals : forall p,
    window_total p (CB.status w')
    = window_total p (CB.status w) + d p
}.

Definition one (q : Property) (p : Property) : nat :=
  if decide (p = q) then 1 else 0.

Definition none (p : Property) : nat := 0.

(** What holds of every breaker that was built by the constructor and then
    driven by events: the window keeps the configured, positive number of
    buckets; a pending reset timer is the one the instance holds, and the
    circuit is open while it is pending; a pending warm-up timer is the one
    the instance holds, and the warm-up flag is set while it is pending; the
    handles of pending timers are older than the next handle. *)
Record invariant (w : CircuitBreakerMiddleware.t) : Prop := {
  inv_buckets :
    Status.buckets (CircuitBreakerMiddleware.status w) <> [];
  inv_length :
    length (Status.buckets (CircuitBreakerMiddleware.status w))
    = Z.to_nat (Options.rollingCountBuckets (CircuitBreakerMiddleware.options w));
  inv_reset : forall id,
    Timers.callback_of id (CircuitBreakerMiddleware.timers w)
    = Some ResetCallback ->
    CircuitBreakerMiddleware.resetTimeout w = Some id
    /\ CircuitBreakerMiddleware.state w = State.open;
  inv_warmup : forall id,
    Timers.callback_of id (CircuitBreakerMiddleware.timers w)
    = Some WarmUpCallback ->
    CircuitBreakerMiddleware.warmupTimeout w = Some id
    /\ CircuitBreakerMiddleware.warmUp w = true;
  inv_fresh : forall id c,
    Timers.callback_of id (CircuitBreakerMiddleware.timers w) = Some c ->
    id < Timers.next (CircuitBreakerMiddleware.timers w)
}.

(** The state, and the four counters of the snapshot (failures, successes,
    fires, timeouts), of a breaker built from [options] after [events]. *)
Definition state_after (options : Options.t) (events : list CB.Event)
    : option State.t :=
  w ← CB.constructor options; w' ← CB.run events w; Some (CB.state w').

Definition counters_after (options : Options.t) (events : list CB.Event)
    : option (nat * nat * nat * nat) :=
  w ← CB.constructor options;
  w' ← CB.run events w;
  st ← Status.stats (CB.status w');
  Some (Stats.failures st, Stats.successes st, Stats.fires st,
        Stats.timeouts st).

Definition with_thresholds (volumeThreshold : Z) (errorThresholdPercentage : Q)
    (o : Options.t) : Options.t :=
  Options.mk (Options.logOnly o) (Options.timeout o) (Options.resetTimeout o)
             (Options.rollingCountTimeout o) (Options.rollingCountBuckets o)
             (Options.rollingPercentilesEnabled o) errorThresholdPercentage
             (Options.enabled o) (Options.allowWarmUp o) volumeThreshold
             (Options.isError o).

Definition with_warmUp (resetTimeout : Z) (o : Options.t) : Options.t :=
  Options.mk (Options.logOnly o) (Options.timeout o) resetTimeout
             (Options.rollingCountTimeout o) (Options.rollingCountBuckets o)
             (Options.rollingPercentilesEnabled o)
             (Options.errorThresholdPercentage o)
             (Options.enabled o) true (Options.volumeThreshold o)
             (Options.isError o).

Definition with_window (rollingCountBuckets rollingCountTimeout : Z)
    (o : Options.t) : Options.t :=
  Options.mk (Options.logOnly o) (Options.timeout o) (Options.resetTimeout o)
             rollingCountTimeout rollingCountBuckets
             (Options.rollingPercentilesEnabled o)
             (Options.errorThresholdPercentage o)
             (Options.enabled o) (Options.allowWarmUp o)
             (Options.volumeThreshold o) (Options.isError o).

(** The breakers visited while [rs] is reported to [w], [w] first.  The
    list stops early if a report raises an error. *)
Fixpoint trajectory (rs : list CB.Report) (w : CB.t) : list CB.t :=
  w :: match rs with
       | [] => []
       | r :: rest =>
           match CB.report r w with
           | Some w' => trajectory rest w'
           | None => []
           end
       end.

(** The invocation count of the snapshot is strictly below the volume
    threshold. *)
Definition below_volume (w : CB.t) : Prop :=
  exists n, CB.snapshot Fires w = Some n
            /\ (Z.of_nat n < Options.volumeThreshold (CB.options w))%Z.

(** [n] invocations, each counted and then reported as a failure. *)
Definition failed_invocations (n : nat) : list CB.Report :=
  mjoin (replicate n [CB.Invoked; CB.Failed]).

(** What one report adds to a counter, and what a list of reports adds. *)
Definition tally1 (property : Property) (r : CB.Report) : nat :=
  match r, property with
  | CB.Invoked, Fires => 1
  | CB.Succeeded, Successes => 1
  | CB.Failed, Failures => 1
  | CB.TimedOut _, Failures => 1
  | CB.TimedOut _, Timeouts => 1
  | _, _ => 0
  end.

Definition tally (property : Property) (rs : list CB.Report) : nat :=
  sum_list (tally1 property <$> rs).

Definition is_rotation (r : CB.Report) : bool :=
  match r with CB.Rotated => true | _ => false end.

(** What the reports do not depend on: everything but the timers. *)
Definition core (w : CB.t) : Status.t * Options.t * State.t * bool :=
  (CB.status w, CB.options w, CB.state w, CB.warmUp w).

(** State and counters (fires, failures) after reports to a new breaker. *)
Definition after_reports (options : Options.t) (rs : list CB.Report)
    : option (State.t * option nat * option nat) :=
  w ← CB.constructor options;
  w' ← CB.reports rs w;
  Some (CB.state w', CB.snapshot Fires w', CB.snapshot Failures w').

(** ** Vocabulary for the store of objects *)

(** [h'] has, wherever [h] has an object, an object of the same kind, and a
    bucket object still points to the same array and dictionary. *)
Definition same_shape (h h' : gmap positive Store.object) : Prop :=
  forall r,
    match h !! r with
    | Some (Store.OBucket a) =>
        exists a', h' !! r = Some (Store.OBucket a')
                   /\ Store.latencyTimes a' = Store.latencyTimes a
                   /\ Store.percentiles a' = Store.percentiles a
    | Some (Store.OArray _) => exists l, h' !! r = Some (Store.OArray l)
    | Some (Store.ODict _) => exists d, h' !! r = Some (Store.ODict d)
    | None => True
    end.

(** Every bucket of the window can be read in the store. *)
Definition readable (h : gmap positive Store.object) (s : StatusObj.t) : Prop :=
  Forall (fun b => is_Some (Store.read_bucket h b)) (StatusObj.buckets s).

(** The scalar fields of the object [a] are those of the value [v], and
    its mean is [m]. *)
Definition agrees (a : Store.BucketObj) (v : Bucket.t) (m : option Q) : Prop :=
  Store.failures a = Bucket.failures v
  /\ Store.successes a = Bucket.successes v
  /\ Store.fires a = Bucket.fires v
  /\ Store.timeouts a = Bucket.timeouts v
  /\ Store.isCircuitBreakerOpen a = Bucket.isCircuitBreakerOpen v
  /\ Store.latencyMean a = m.

(** The accumulator of a snapshot in progress: the object at [acc], its
    array and its dictionary did not exist in the store [h0] in which the
    read started, every object of [h0] is unchanged in [h], and the
    accumulator has the value [v] and the mean [m]. *)
Definition accumulator (h0 h : gmap positive Store.object) (acc : positive)
    (v : Bucket.t) (m : option Q) : Prop :=
  h0 ⊆ h
  /\ h0 !! acc = None
  /\ exists a,
       h !! acc = Some (Store.OBucket a)
       /\ h0 !! Store.latencyTimes a = None
       /\ h0 !! Store.percentiles a = None
       /\ h !! Store.latencyTimes a = Some (Store.OArray (Bucket.latencyTimes v))
       /\ h !! Store.percentiles a = Some (Store.ODict (Bucket.percentiles v))
       /\ agrees a v m.

(** The buckets of the window are distinct objects with distinct arrays. *)
Definition separated (h : gmap positive Store.object) (s : StatusObj.t) : Prop :=
  NoDup (StatusObj.buckets s)
  /\ forall b1 b2 a1 a2,
       b1 ∈ StatusObj.buckets s -> b2 ∈ StatusObj.buckets s ->
       h !! b1 = Some (Store.OBucket a1) ->
       h !! b2 = Some (Store.OBucket a2) ->
       Store.latencyTimes a1 = Store.latencyTimes a2 -> b1 = b2.

(** The operation of the first model that corresponds to an operation on
    the store. *)
Definition on_values (op : StatusObj.Op) (s : Status.t) : option Status.t :=
  match op with
  | StatusObj.Increment property latency => Status.increment property latency s
  | StatusObj.Rotate => Some (Status.rotate s)
  | StatusObj.Open => Status.open s
  | StatusObj.Close => Status.close s
  end.

Fixpoint all_on_values (ops : list StatusObj.Op) (s : Status.t)
    : option Status.t :=
  match ops with
  | [] => Some s
  | op :: rest => s' ← on_values op s; all_on_values rest s'
  end.

(** The breakers visited while [events] happen to [w], [w] first. *)
Fixpoint visited (events : list CB.Event) (w : CB.t) : list CB.t :=
  w :: match events with
       | [] => []
       | e :: rest =>
           match CB.step e w with
           | Some w' => visited rest w'
           | None => []
           end
       end.

Definition is_open_call (e : CB.Event) : bool :=
  match e with CB.CallOpen => true | _ => false end.

Definition is_shutdown_call (e : CB.Event) : bool :=
  match e with CB.CallShutdown => true | _ => false end.

(** Neither open nor half-open. *)
Definition resting (st : State.t) : Prop :=
  st = State.closed \/ st = State.shutdown.

(** ** Vocabulary for the window, the timers and the events *)

(** The sum of the samples. *)
Definition total (l : list Z) : Z := foldr Z.add 0%Z l.

(** A bucket in which every latency sample came with a timeout, and every
    timeout with a failure. *)
Definition bucket_ok (b : Bucket.t) : Prop :=
  length (Bucket.latencyTimes b) = Bucket.timeouts b
  /\ Bucket.timeouts b <= Bucket.failures b.

Definition window_ok (s : Status.t) : Prop :=
  Forall bucket_ok (Status.buckets s).

(** How the timers and the listeners of a breaker hang together: an open
    circuit holds a pending reset timer with the configured delay; the
    deadline handle of a registered listener is older than the next handle
    and, while pending, runs the deadline callback of that invocation; a
    pending deadline timer has the configured delay; the warm-up handle is
    older than the next handle, and a pending warm-up timer has the duration
    of the window as its delay. *)
Record wiring (w : CB.t) : Prop := {
  wired_reset :
    CB.state w = State.open ->
    exists id,
      CB.resetTimeout w = Some id
      /\ Timers.pending (CB.timers w) !! id
         = Some (ResetCallback, Options.resetTimeout (CB.options w));
  wired_listeners : forall inv id,
    inv ∈ CB.listeners w ->
    Invocation.timeoutId inv = Some id ->
    id < Timers.next (CB.timers w)
    /\ forall c,
         Timers.callback_of id (CB.timers w) = Some c ->
         c = RequestTimeoutCallback (Invocation.startedAt inv);
  wired_deadline : forall id startedAt delay,
    Timers.pending (CB.timers w) !! id
    = Some (RequestTimeoutCallback startedAt, delay) ->
    Options.timeout (CB.options w) = Some delay;
  wired_warmup : forall id,
    CB.warmupTimeout w = Some id -> id < Timers.next (CB.timers w);
  wired_warmup_delay : forall id delay,
    Timers.pending (CB.timers w) !! id = Some (WarmUpCallback, delay) ->
    delay = Options.rollingCountTimeout (CB.options w)
}.

(** What no method changes, and the only ways in which the timers change
    between [w] and a later [w']: the configuration and the warm-up handle
    stay; handles are issued in increasing order; a handle issued before [w]
    is either as it was or no longer pending; a timer issued since is not a
    warm-up timer; the warm-up flag, once cleared, and the rotation, once
    stopped, stay so; listeners are only added. *)
Record frame (w w' : CB.t) : Prop := {
  frame_options : CB.options w' = CB.options w;
  frame_warmupTimeout : CB.warmupTimeout w' = CB.warmupTimeout w;
  frame_next : Timers.next (CB.timers w) <= Timers.next (CB.timers w');
  frame_old : forall id,
    id < Timers.next (CB.timers w) ->
    Timers.pending (CB.timers w') !! id = Timers.pending (CB.timers w) !! id
    \/ Timers.pending (CB.timers w') !! id = None;
  frame_new : forall id c delay,
    Timers.next (CB.timers w) <= id ->
    Timers.pending (CB.timers w') !! id = Some (c, delay) ->
    c <> WarmUpCallback;
  frame_warmUp : CB.warmUp w = false -> CB.warmUp w' = false;
  frame_rotationTimer :
    Status.rotationTimer (CB.status w) = false ->
    Status.rotationTimer (CB.status w') = false;
  frame_listeners : CB.listeners w `prefix_of` CB.listeners w'
}.

(** What an event adds to a counter of the window, given the breaker it
    happens to. *)
Definition event_tally (p : Property) (e : CB.Event) (w : CB.t) : nat :=
  match e with
  | CB.Request _ =>
      if Options.enabled (CB.options w) then one Fires p else 0
  | CB.Finish k statusCode _ =>
      match CB.listeners w !! k with
      | Some _ =>
          if Options.isError (CB.options w) statusCode
          then one Failures p else one Successes p
      | None => 0
      end
  | CB.Close k _ =>
      match CB.listeners w !! k with
      | Some _ => one Failures p
      | None => 0
      end
  | CB.TimerFires id _ =>
      match Timers.callback_of id (CB.timers w) with
      | Some (RequestTimeoutCallback _) => one Timeouts p + one Failures p
      | _ => 0
      end
  | CB.CallSuccess => one Successes p
  | CB.RotationTick | CB.CallOpen | CB.CallClose | CB.CallShutdown => 0
  end.

Definition is_tick (e : CB.Event) : bool :=
  match e with CB.RotationTick => true | _ => false end.

(** The events that the web layer and the runtime produce, as opposed to the
    calls of the public methods. *)
Definition is_traffic (e : CB.Event) : bool :=
  match e with
  | CB.Request _ | CB.Finish _ _ _ | CB.Close _ _ | CB.TimerFires _ _
  | CB.RotationTick => true
  | CB.CallOpen | CB.CallClose | CB.CallSuccess | CB.CallShutdown => false
  end.

(** The events that may end in a call of [fail]. *)
Definition is_failure_signal (e : CB.Event) : bool :=
  match e with
  | CB.Finish _ _ _ | CB.Close _ _ | CB.TimerFires _ _ => true
  | _ => false
  end.

(** The events that may end in a call of [success]. *)
Definition is_success_signal (e : CB.Event) : bool :=
  match e with
  | CB.Finish _ _ _ | CB.CallSuccess => true
  | _ => false
  end.

(** The flag of the snapshot. *)
Definition snapshot_flag (w : CB.t) : option bool :=
  Stats.isCircuitBreakerOpen <$> Status.stats (CB.status w).

(** ** Vocabulary for requests and their responses *)







(** Variants of a configuration. *)
Definition without_deadline (o : Options.t) : Options.t :=
  Options.mk (Options.logOnly o) None (Options.resetTimeout o)
             (Options.rollingCountTimeout o) (Options.rollingCountBuckets o)
             (Options.rollingPercentilesEnabled o)
             (Options.errorThresholdPercentage o)
             (Options.enabled o) (Options.allowWarmUp o)
             (Options.volumeThreshold o) (Options.isError o).

Definition with_switches (logOnly enabled : bool) (o : Options.t) : Options.t :=
  Options.mk logOnly (Options.timeout o) (Options.resetTimeout o)
             (Options.rollingCountTimeout o) (Options.rollingCountBuckets o)
             (Options.rollingPercentilesEnabled o)
             (Options.errorThresholdPercentage o)
             enabled (Options.allowWarmUp o)
             (Options.volumeThreshold o) (Options.isError o).

(** * Properties *)

(** ** The statistics window *)

Section StatusFacts.

Implicit Types (s : Status.t) (b acc : Bucket.t) (bs : list Bucket.t).

Lemma accumulate_counter property acc bs :
  counter property (foldl Status.accumulate acc bs)
  = counter property acc + sum_list (counter property <$> bs).
Proof.
  revert acc.
  induction bs as [|b bs IH]; intros acc; csimpl.
  - lia.
  - rewrite IH. unfold Status.accumulate. destruct property; csimpl; lia.
Qed.

Lemma accumulate_latencyTimes acc bs :
  Bucket.latencyTimes (foldl Status.accumulate acc bs)
  = Bucket.latencyTimes acc ++ mjoin (Bucket.latencyTimes <$> bs).
Proof.
  revert acc.
  induction bs as [|b bs IH]; intros acc; csimpl.
  - by rewrite app_nil_r.
  - rewrite IH. csimpl. by rewrite <- app_assoc.
Qed.

Lemma accumulate_percentiles acc bs :
  Bucket.percentiles (foldl Status.accumulate acc bs) = Bucket.percentiles acc.
Proof.
  revert acc. induction bs as [|b bs IH]; intros acc; simpl; [done|].
  by rewrite IH.
Qed.

(** [stats] succeeds exactly on a window that has a first bucket. *)
Lemma stats_is_Some s : is_Some (Status.stats s) <-> Status.buckets s <> [].
Proof.
  unfold Status.stats.
  destruct (Status.buckets s) as [|b bs]; simpl; split; intros H;
    try done; try (by destruct H); eauto.
Qed.

Lemma stats_None s : Status.stats s = None <-> Status.buckets s = [].
Proof.
  unfold Status.stats.
  destruct (Status.buckets s) as [|b bs]; simpl; split; intros H; done.
Qed.

Lemma stats_counter_total property s st :
  Status.stats s = Some st ->
  stats_counter property st = window_total property s.
Proof.
  unfold Status.stats, window_total, stats_counter.
  destruct (head (Status.buckets s)) as [b0|]; simpl; [|done].
  intros [= <-]. simpl.
  pose proof (accumulate_counter property Status.createBucket
                                 (Status.buckets s)) as H.
  destruct property; simpl in *; exact H.
Qed.

Lemma stats_latencyTimes s st :
  Status.stats s = Some st ->
  Stats.latencyTimes st = Status.sort_ascending (window_latencies s).
Proof.
  unfold Status.stats, window_latencies, Stats.latencyTimes.
  destruct (head (Status.buckets s)) as [b0|]; simpl; [|done].
  intros [= <-]. simpl. by rewrite accumulate_latencyTimes.
Qed.

Lemma stats_percentiles s st :
  Status.stats s = Some st ->
  Stats.percentiles st
  = Status.fill_percentiles (Status.rollingPercentilesEnabled s)
      (Status.percentiles s) (Stats.latencyTimes st) [].
Proof.
  unfold Status.stats, Stats.latencyTimes, Stats.percentiles.
  destruct (head (Status.buckets s)) as [b0|]; simpl; [|done].
  intros [= <-]. simpl. by rewrite accumulate_percentiles.
Qed.

Lemma sort_ascending_Sorted l : Sorted Z.le (Status.sort_ascending l).
Proof. apply Sorted_merge_sort, _. Qed.

Lemma sort_ascending_Permutation l : Status.sort_ascending l ≡ₚ l.
Proof. apply merge_sort_Permutation. Qed.

(** Effect of the operations on the window. *)

Lemma increment_is_Some property latency s :
  Status.buckets s <> [] -> is_Some (Status.increment property latency s).
Proof.
  unfold Status.increment. destruct (Status.buckets s); [done|eauto].
Qed.

Lemma increment_None property latency s :
  Status.buckets s = [] -> Status.increment property latency s = None.
Proof. unfold Status.increment. by intros ->. Qed.

Lemma counter_push_latency property latency b :
  counter property (Status.push_latency latency b) = counter property b.
Proof. by destruct latency, property. Qed.

Lemma counter_bump property q b :
  counter property (Status.bump q b)
  = counter property b + (if decide (property = q) then 1 else 0).
Proof. destruct property, q; simpl; try case_decide; try done; lia. Qed.

Lemma increment_total property q latency s s' :
  Status.increment q latency s = Some s' ->
  window_total property s'
  = window_total property s + (if decide (property = q) then 1 else 0).
Proof.
  unfold Status.increment, window_total.
  destruct (Status.buckets s) as [|b bs]; [done|].
  intros [= <-]. simpl.
  rewrite counter_push_latency, counter_bump. lia.
Qed.

Lemma increment_buckets_nonempty property latency s s' :
  Status.increment property latency s = Some s' -> Status.buckets s' <> [].
Proof.
  unfold Status.increment.
  destruct (Status.buckets s); [done|]. by intros [= <-].
Qed.

Lemma increment_length property latency s s' :
  Status.increment property latency s = Some s' ->
  length (Status.buckets s') = length (Status.buckets s).
Proof.
  unfold Status.increment.
  destruct (Status.buckets s) eqn:E; [done|]. by intros [= <-].
Qed.

Lemma open_total property s s' :
  Status.open s = Some s' -> window_total property s' = window_total property s.
Proof.
  unfold Status.open, window_total.
  destruct (Status.buckets s) as [|b bs]; [done|].
  intros [= <-]. by destruct property.
Qed.

Lemma close_total property s s' :
  Status.close s = Some s' -> window_total property s' = window_total property s.
Proof.
  unfold Status.close, window_total.
  destruct (Status.buckets s) as [|b bs]; [done|].
  intros [= <-]. by destruct property.
Qed.

Lemma open_is_Some s : Status.buckets s <> [] -> is_Some (Status.open s).
Proof. unfold Status.open. destruct (Status.buckets s); [done|eauto]. Qed.

Lemma close_is_Some s : Status.buckets s <> [] -> is_Some (Status.close s).
Proof. unfold Status.close. destruct (Status.buckets s); [done|eauto]. Qed.

Lemma open_length s s' :
  Status.open s = Some s' ->
  length (Status.buckets s') = length (Status.buckets s).
Proof.
  unfold Status.open.
  destruct (Status.buckets s) eqn:E; [done|]. by intros [= <-].
Qed.

Lemma close_length s s' :
  Status.close s = Some s' ->
  length (Status.buckets s') = length (Status.buckets s).
Proof.
  unfold Status.close.
  destruct (Status.buckets s) eqn:E; [done|]. by intros [= <-].
Qed.

Lemma removelast_length {A} (l : list A) :
  length (removelast l) = pred (length l).
Proof.
  induction l as [|x [|y l] IH]; simpl in *; try done. by rewrite IH.
Qed.

Lemma rotate_length s :
  Status.buckets s <> [] ->
  length (Status.buckets (Status.rotate s)) = length (Status.buckets s).
Proof.
  intros H. simpl. rewrite removelast_length.
  destruct (Status.buckets s); [done|]. simpl. lia.
Qed.

Lemma rotationTick_length s :
  Status.buckets s <> [] ->
  length (Status.buckets (Status.rotationTick s)) = length (Status.buckets s).
Proof.
  intros H. unfold Status.rotationTick.
  destruct (Status.rotationTimer s); [by apply rotate_length|done].
Qed.

Lemma constructor_length options :
  length (Status.buckets (Status.constructor options))
  = Z.to_nat (StatusOptions.rollingCountBuckets options).
Proof. simpl. apply length_replicate. Qed.

Lemma nonempty_length {A} (l : list A) : l <> [] <-> 0 < length l.
Proof. destruct l; simpl; split; intros; try done; lia. Qed.

Lemma constructor_total property options :
  window_total property (Status.constructor options) = 0.
Proof.
  unfold window_total. simpl.
  induction (Z.to_nat _) as [|n IH]; csimpl; [done|].
  rewrite IH. by destruct property.
Qed.

End StatusFacts.

Section Percentiles.

Lemma percentile_index_in_range (p : Q) (n : nat) :
  (0 < p)%Q -> (p < 1)%Q -> 0 < n ->
  (0 <= Status.percentile_index p n < Z.of_nat n)%Z.
Proof.
  intros Hp0 Hp1 Hn. unfold Status.percentile_index.
  set (x := (p * inject_Z (Z.of_nat n))%Q).
  assert (Hn' : (0 < inject_Z (Z.of_nat n))%Q).
  { rewrite <- (Zlt_Qlt 0). lia. }
  assert (Hx0 : (0 < x)%Q) by (apply Qmult_lt_0_compat; assumption).
  assert (Hx1 : (x < inject_Z (Z.of_nat n))%Q).
  { unfold x. rewrite <- (Qmult_1_l (inject_Z (Z.of_nat n))) at 2.
    apply Qmult_lt_compat_r; assumption. }
  pose proof (Qle_ceiling x) as Hc1.
  pose proof (Qceiling_lt x) as Hc2.
  split.
  - assert (H : (inject_Z 0 < inject_Z (Qceiling x))%Q).
    { eapply Qlt_le_trans; [exact Hx0|exact Hc1]. }
    rewrite <- Zlt_Qlt in H. lia.
  - assert (H : (inject_Z (Qceiling x - 1) < inject_Z (Z.of_nat n))%Q).
    { eapply Qlt_trans; [exact Hc2|exact Hx1]. }
    rewrite <- Zlt_Qlt in H. exact H.
Qed.

Lemma at_index_lookup (l : list Z) (i : Z) :
  (0 <= i < Z.of_nat (length l))%Z ->
  l !! Z.to_nat i = Some (Status.at_index l i).
Proof.
  intros Hi. unfold Status.at_index.
  destruct (Z.ltb_spec i 0); [lia|].
  rewrite nth_lookup.
  destruct (lookup_lt_is_Some_2 l (Z.to_nat i)) as [x Hx]; [lia|].
  by rewrite Hx.
Qed.

Lemma sorted_lookup_le (l : list Z) (i j : nat) (x y : Z) :
  Sorted Z.le l -> l !! i = Some x -> l !! j = Some y -> i <= j ->
  (x <= y)%Z.
Proof.
  intros Hs. apply (Sorted_StronglySorted _) in Hs.
  revert i j. induction Hs as [|a l Hs IH Hall]; intros i j Hi Hj Hij.
  - done.
  - destruct i as [|i], j as [|j]; simpl in *.
    + simplify_eq. lia.
    + simplify_eq. rewrite Forall_forall in Hall.
      apply Hall. by eapply list_elem_of_lookup_2.
    + lia.
    + eapply IH; eauto. lia.
Qed.

(** The three branches of [calculatePercentile] on a non-empty ascending
    list are the nearest-rank percentile. *)
Lemma calculatePercentile_nearest_rank (p : Q) (l : list Z) :
  Sorted Z.le l -> l <> [] ->
  nearest_rank p l (Status.calculatePercentile p l).
Proof.
  intros Hs Hne.
  assert (Hlen : 0 < length l) by (by apply nonempty_length).
  assert (Hfirst : l !! 0 = Some (Status.at_index l 0)).
  { apply (at_index_lookup l 0). lia. }
  assert (Hlast : l !! (length l - 1)
                  = Some (Status.at_index l (Z.of_nat (length l) - 1))).
  { replace (length l - 1) with (Z.to_nat (Z.of_nat (length l) - 1)) by lia.
    apply at_index_lookup. lia. }
  unfold nearest_rank, Status.calculatePercentile.
  destruct (Nat.eqb_spec (length l) 0) as [E|_]; [lia|].
  destruct (Qle_bool p 0) eqn:E0.
  { apply Qle_bool_iff in E0. split; [|split].
    - intros _. split.
      + by rewrite head_lookup.
      + intros x [k Hk]%list_elem_of_lookup.
        eapply (sorted_lookup_le l 0 k); eauto. lia.
    - intros H1. exfalso.
      apply (Qlt_irrefl 0). eapply Qlt_le_trans; [|exact E0].
      eapply Qlt_le_trans; [|exact H1]. reflexivity.
    - intros H0 _. exfalso.
      apply (Qlt_irrefl 0). eapply Qlt_le_trans; [exact H0|exact E0]. }
  assert (Hp0 : (0 < p)%Q).
  { apply Qnot_le_lt. intros H%Qle_bool_iff. congruence. }
  destruct (Qle_bool 1 p) eqn:E1.
  { apply Qle_bool_iff in E1. split; [|split].
    - intros H. exfalso.
      apply (Qlt_irrefl 0). eapply Qlt_le_trans; [exact Hp0|exact H].
    - intros _. split.
      + by rewrite last_lookup, <- Nat.sub_1_r.
      + intros x [k Hk]%list_elem_of_lookup.
        eapply (sorted_lookup_le l k (length l - 1)); eauto.
        apply lookup_lt_Some in Hk. lia.
    - intros _ H. exfalso.
      apply (Qlt_irrefl 1). eapply Qle_lt_trans; [exact E1|exact H]. }
  assert (Hp1 : (p < 1)%Q).
  { apply Qnot_le_lt. intros H%Qle_bool_iff. congruence. }
  split; [|split].
  - intros H. exfalso.
    apply (Qlt_irrefl 0). eapply Qlt_le_trans; [exact Hp0|exact H].
  - intros H. exfalso.
    apply (Qlt_irrefl 1). eapply Qle_lt_trans; [exact H|exact Hp1].
  - intros _ _.
    pose proof (percentile_index_in_range p (length l) Hp0 Hp1 Hlen) as Hi.
    split; [exact Hi|]. by apply at_index_lookup.
Qed.

(** With the nine levels of the class, the dictionary of the snapshot
    holds one entry per level. *)
Lemma fill_default_percentiles (f : Q -> Z) :
  foldl (fun d p => dict_set p (f p) d) [] Status.default_percentiles
  = (fun p => (p, f p)) <$> Status.default_percentiles.
Proof. reflexivity. Qed.

Lemma dict_get_default_percentiles (f : Q -> Z) (p : Q) :
  p ∈ Status.default_percentiles ->
  dict_get p ((fun p => (p, f p)) <$> Status.default_percentiles)
  = Some (f p).
Proof.
  unfold Status.default_percentiles.
  rewrite !elem_of_cons, elem_of_nil.
  intros H. repeat (destruct H as [->|H]; [reflexivity|]). done.
Qed.

End Percentiles.

(** C6.  With percentiles enabled, the snapshot holds, for each of the
    configured levels [p], the nearest-rank percentile of the ascending
    latency samples of the window: the sample at index [ceil(p * n) - 1],
    the minimum for [p <= 0] and the maximum for [p >= 1]; the same holds of
    [calculatePercentile] at any level.  For the samples 50, 100, 150, 200,
    250 the levels 0.25, 0.5, 0.75 and 0.95 report 100, 150, 200 and 250;
    for the single sample 300 the levels 0 and 1 both report 300. *)
Theorem percentiles_are_nearest_rank (s : Status.t) (st : Stats.t) :
  Status.rollingPercentilesEnabled s = true ->
  Status.percentiles s = Status.default_percentiles ->
  Status.stats s = Some st ->
  window_latencies s <> [] ->
  let l := Stats.latencyTimes st in
  Sorted Z.le l
  /\ l ≡ₚ window_latencies s
  /\ (forall p, p ∈ Status.default_percentiles ->
        exists v, dict_get p (Stats.percentiles st) = Some v
                  /\ v = Status.calculatePercentile p l
                  /\ nearest_rank p l v)
  /\ (forall p, nearest_rank p l (Status.calculatePercentile p l))
  /\ (let o := StatusOptions.mk 10 10000 (Some true) in
      let five := [50; 100; 150; 200; 250]%Z in
      reported_percentile o five (1 # 4) = Some 100%Z
      /\ reported_percentile o five (1 # 2) = Some 150%Z
      /\ reported_percentile o five (3 # 4) = Some 200%Z
      /\ reported_percentile o five (19 # 20) = Some 250%Z
      /\ reported_percentile o [300%Z] 0 = Some 300%Z
      /\ reported_percentile o [300%Z] 1 = Some 300%Z).
Proof.
  intros Hen Hlev Hst Hne l.
  assert (Hl : l = Status.sort_ascending (window_latencies s))
    by (by apply stats_latencyTimes).
  assert (Hsorted : Sorted Z.le l)
    by (rewrite Hl; apply sort_ascending_Sorted).
  assert (Hperm : l ≡ₚ window_latencies s)
    by (rewrite Hl; apply sort_ascending_Permutation).
  assert (Hlne : l <> []).
  { intros E. rewrite E in Hperm. symmetry in Hperm.
    by apply Permutation_nil_r in Hperm. }
  split; [exact Hsorted|]. split; [exact Hperm|].
  split; [|split].
  - intros p Hp. exists (Status.calculatePercentile p l).
    split; [|split; [done|by apply calculatePercentile_nearest_rank]].
    rewrite (stats_percentiles s st Hst), Hen, Hlev.
    unfold Status.fill_percentiles. fold l.
    rewrite (fill_default_percentiles (fun p => Status.calculatePercentile p l)).
    by apply dict_get_default_percentiles.
  - intros p. by apply calculatePercentile_nearest_rank.
  - repeat split; vm_compute; reflexivity.
Qed.

Lemma percentiles_are_nearest_rank_witness :
  let s := Status.constructor (StatusOptions.mk 10 10000 (Some true)) in
  exists s' st,
    record_samples [250; 50; 200; 100; 150]%Z s = Some s'
    /\ Status.stats s' = Some st
    /\ Sorted Z.le (Stats.latencyTimes st)
    /\ exists v, dict_get (19 # 20) (Stats.percentiles st) = Some v
                 /\ nearest_rank (19 # 20) (Stats.latencyTimes st) v.
Proof.
  intros s.
  destruct (record_samples [250; 50; 200; 100; 150]%Z s) as [s'|] eqn:E;
    [|vm_compute in E; discriminate].
  destruct (Status.stats s') as [st|] eqn:Est.
  2:{ vm_compute in E. injection E as <-. vm_compute in Est. discriminate. }
  exists s', st. split; [reflexivity|]. split; [exact Est|].
  assert (Hen : Status.rollingPercentilesEnabled s' = true).
  { vm_compute in E. by injection E as <-. }
  assert (Hlev : Status.percentiles s' = Status.default_percentiles).
  { vm_compute in E. by injection E as <-. }
  assert (Hne : window_latencies s' <> []).
  { vm_compute in E. injection E as <-. vm_compute. discriminate. }
  destruct (percentiles_are_nearest_rank s' st Hen Hlev Est Hne)
    as (Hs & _ & Hp & _).
  split; [exact Hs|].
  destruct (Hp (19 # 20)%Q) as (v & Hv & _ & Hnr).
  { unfold Status.default_percentiles. repeat constructor. }
  exists v. split; assumption.
Defined.

(** C9.  A rotation step puts one new empty bucket in front, so nothing
    recorded before the rotation is in the new first bucket, and a tick of
    the installed rotation is such a step.  On a window that has a bucket
    the step keeps the number of buckets and drops the oldest bucket, which
    is the last one.  On a window without a bucket, which the constructor
    builds when [rollingCountBuckets] is below 1, [pop] finds nothing to
    drop and the window grows from no bucket to one. *)
Theorem rotation_replaces_oldest_bucket (s : Status.t) :
  let s' := Status.rotate s in
  (exists current,
     head (Status.buckets s') = Some current
     /\ (forall property, counter property current = 0)
     /\ Bucket.latencyTimes current = []
     /\ Bucket.isCircuitBreakerOpen current = false)
  /\ (Status.rotationTimer s = true -> Status.rotationTick s = s')
  /\ (Status.buckets s <> [] ->
      length (Status.buckets s') = length (Status.buckets s)
      /\ exists kept oldest,
           Status.buckets s = kept ++ [oldest]
           /\ Status.buckets s' = Status.createBucket :: kept)
  /\ (Status.buckets s = [] ->
      Status.buckets s' = [Status.createBucket]
      /\ length (Status.buckets s') = S (length (Status.buckets s)))
  /\ length (Status.buckets s') = Nat.max 1 (length (Status.buckets s)).
Proof.
  intros s'. split; [|split; [|split; [|split]]].
  - exists Status.createBucket. repeat split. by intros [].
  - intros H. unfold Status.rotationTick. by rewrite H.
  - intros Hne. split; [by apply rotate_length|].
    exists (removelast (Status.buckets s)),
           (List.last (Status.buckets s) Status.createBucket).
    split; [by apply app_removelast_last|done].
  - intros E. unfold s', Status.rotate. simpl. by rewrite E.
  - destruct (Status.buckets s) as [|b bs] eqn:E.
    + unfold s', Status.rotate. simpl. by rewrite E.
    + assert (Hne : Status.buckets s <> []) by (by rewrite E).
      unfold s'. rewrite (rotate_length s Hne), E. simpl. lia.
Qed.

(** The window that [rollingCountBuckets = 0] builds has no bucket, and one
    rotation step later it has one: the step does not keep the length, and
    no bucket was removed. *)
Lemma rotation_lengthens_an_empty_window :
  let s := Status.constructor (StatusOptions.mk 0 10000 None) in
  Status.new (StatusOptions.mk 0 10000 None) = Some s
  /\ Status.rotationTimer s = true
  /\ length (Status.buckets s) = 0
  /\ length (Status.buckets (Status.rotationTick s)) = 1
  /\ length (Status.buckets (Status.rotate s)) = 1.
Proof. repeat split. Qed.

Lemma rotation_replaces_oldest_bucket_witness :
  let s := Status.constructor (StatusOptions.mk 3 3000 None) in
  length (Status.buckets (Status.rotate s)) = 3
  /\ length (Status.buckets
               (Status.rotate
                  (Status.constructor (StatusOptions.mk 0 3000 None)))) = 1.
Proof.
  intros s.
  destruct (rotation_replaces_oldest_bucket s) as (_ & _ & H & _).
  destruct H as [H _]; [vm_compute; discriminate|].
  destruct (rotation_replaces_oldest_bucket
              (Status.constructor (StatusOptions.mk 0 3000 None)))
    as (_ & _ & _ & H0 & _).
  destruct H0 as [_ H0]; [reflexivity|].
  split; [rewrite H; reflexivity|rewrite H0; reflexivity].
Defined.

(** ** The circuit breaker *)

Section TimerFacts.

Implicit Types (ts : Timers.t) (id : nat) (c : Callback).

Lemma callback_of_insert id n m c delay ts :
  Timers.callback_of id
    (Timers.mk (<[n := (c, delay)]> (Timers.pending ts)) m)
  = if decide (id = n) then Some c else Timers.callback_of id ts.
Proof.
  unfold Timers.callback_of. simpl.
  case_decide as E.
  - subst. by rewrite lookup_insert_eq.
  - by rewrite lookup_insert_ne.
Qed.

Lemma callback_of_setTimeout id c delay ts :
  Timers.callback_of id (Timers.setTimeout c delay ts).2
  = if decide (id = Timers.next ts) then Some c
    else Timers.callback_of id ts.
Proof.
  unfold Timers.callback_of, Timers.setTimeout. simpl.
  case_decide as E.
  - subst. by rewrite lookup_insert_eq.
  - by rewrite lookup_insert_ne.
Qed.

Lemma callback_of_clearTimeout id id' ts :
  Timers.callback_of id (Timers.clearTimeout id' ts)
  = if decide (id = id') then None else Timers.callback_of id ts.
Proof.
  unfold Timers.callback_of, Timers.clearTimeout. simpl.
  case_decide as E.
  - subst. by rewrite lookup_delete_eq.
  - by rewrite lookup_delete_ne.
Qed.

Lemma callback_of_clearHandle id h ts :
  Timers.callback_of id (Timers.clearHandle h ts)
  = if decide (h = Some id) then None else Timers.callback_of id ts.
Proof.
  destruct h as [id'|]; simpl.
  - rewrite callback_of_clearTimeout.
    repeat case_decide; congruence.
  - try case_decide; done.
Qed.

Lemma callback_of_clearHandle_Some id h ts c :
  Timers.callback_of id (Timers.clearHandle h ts) = Some c ->
  Timers.callback_of id ts = Some c /\ h <> Some id.
Proof. rewrite callback_of_clearHandle. by case_decide. Qed.

Lemma callback_of_clearTimeout_Some id id' ts c :
  Timers.callback_of id (Timers.clearTimeout id' ts) = Some c ->
  Timers.callback_of id ts = Some c /\ id <> id'.
Proof. rewrite callback_of_clearTimeout. by case_decide. Qed.

Lemma next_clearHandle h ts :
  Timers.next (Timers.clearHandle h ts) = Timers.next ts.
Proof. by destruct h. Qed.

(** Cancelling a timer that is not pending changes nothing. *)
Lemma clearHandle_not_pending id ts :
  Timers.callback_of id ts = None ->
  Timers.clearHandle (Some id) ts = ts.
Proof.
  unfold Timers.callback_of, Timers.clearHandle, Timers.clearTimeout.
  destruct ts as [pending next]. simpl.
  intros H. f_equal. apply delete_id.
  by destruct (pending !! id).
Qed.

End TimerFacts.

Section BreakerFacts.

Implicit Types (w : CB.t).

Lemma State_eqb_eq (a b : State.t) : State.eqb a b = true <-> a = b.
Proof. destruct a, b; simpl; split; intros; congruence. Qed.

Lemma State_eqb_neq (a b : State.t) : State.eqb a b = false <-> a <> b.
Proof. destruct a, b; simpl; split; intros; congruence. Qed.

Lemma errorRate_rate (st : Stats.t) :
  CB.errorRate st = rate (Stats.failures st) (Stats.fires st).
Proof. reflexivity. Qed.

Lemma buckets_nonempty_length w w' :
  length (Status.buckets (CB.status w'))
  = length (Status.buckets (CB.status w)) ->
  Status.buckets (CB.status w) <> [] ->
  Status.buckets (CB.status w') <> [].
Proof. rewrite !nonempty_length. lia. Qed.

Lemma buckets_nonempty_length_status (s s' : Status.t) :
  Status.buckets s <> [] ->
  length (Status.buckets s') = length (Status.buckets s) ->
  Status.buckets s' <> [].
Proof. rewrite !nonempty_length. lia. Qed.

Lemma recorded_refl w : recorded none w w.
Proof. split; try done; intros p; unfold none; lia. Qed.

Lemma recorded_trans d1 d2 w1 w2 w3 :
  recorded d1 w1 w2 -> recorded d2 w2 w3 ->
  recorded (fun p => d1 p + d2 p) w1 w3.
Proof.
  intros [] []. split; try congruence.
  intros p. rewrite rec_totals1, rec_totals0. lia.
Qed.

Lemma recorded_ext d1 d2 w w' :
  (forall p, d1 p = d2 p) -> recorded d1 w w' -> recorded d2 w w'.
Proof.
  intros E []. split; try done. intros p. rewrite <- E. apply rec_totals0.
Qed.

Lemma recorded_nonempty d w w' :
  recorded d w w' ->
  Status.buckets (CB.status w) <> [] -> Status.buckets (CB.status w') <> [].
Proof. intros []. by apply buckets_nonempty_length. Qed.

(** *** [open], [close] *)

Lemma open_spec w :
  Status.buckets (CB.status w) <> [] ->
  exists w', CB.open w = Some w'
             /\ CB.state w' = State.open
             /\ recorded none w w'.
Proof.
  intros Hne. unfold CB.open.
  destruct (State.eqb (CB.state w) State.open) eqn:E; simpl.
  - exists w. apply State_eqb_eq in E. auto using recorded_refl.
  - destruct (open_is_Some (CB.status w) Hne) as [s Hs].
    rewrite Hs. simpl. eexists. split; [reflexivity|].
    split; [reflexivity|]. split; simpl; try done.
    + by eapply open_length.
    + intros p. unfold none. rewrite (open_total p _ _ Hs). lia.
Qed.

Lemma close_spec w :
  Status.buckets (CB.status w) <> [] ->
  exists w', CB.close w = Some w'
             /\ CB.state w' = State.closed
             /\ recorded none w w'.
Proof.
  intros Hne. unfold CB.close.
  destruct (State.eqb (CB.state w) State.closed) eqn:E; simpl.
  - exists w. apply State_eqb_eq in E. auto using recorded_refl.
  - destruct (close_is_Some (CB.status w) Hne) as [s Hs].
    rewrite Hs. simpl. eexists. split; [reflexivity|].
    split; [reflexivity|]. split; simpl; try done.
    + by eapply close_length.
    + intros p. unfold none. rewrite (close_total p _ _ Hs). lia.
Qed.

(** *** [countInvocation], [success], [fail] *)

Lemma set_status_increment w q latency :
  Status.buckets (CB.status w) <> [] ->
  exists s, Status.increment q latency (CB.status w) = Some s
            /\ recorded (one q) w (CB.set_status s w)
            /\ CB.state (CB.set_status s w) = CB.state w.
Proof.
  intros Hne.
  destruct (increment_is_Some q latency (CB.status w) Hne) as [s Hs].
  exists s. split; [done|]. split; [|done].
  split; simpl; try done.
  - by eapply increment_length.
  - intros p. apply (increment_total p _ _ _ _ Hs).
Qed.

Lemma countInvocation_spec w :
  Status.buckets (CB.status w) <> [] ->
  exists w', CB.countInvocation w = Some w'
             /\ CB.state w' = CB.state w
             /\ recorded (one Fires) w w'.
Proof.
  intros Hne. unfold CB.countInvocation.
  destruct (set_status_increment w Fires None Hne) as (s & -> & Hr & Hst).
  simpl. eauto.
Qed.

Lemma success_spec w :
  Status.buckets (CB.status w) <> [] ->
  exists w', CB.success w = Some w'
             /\ CB.state w'
                = (if State.eqb (CB.state w) State.half_open
                   then State.closed else CB.state w)
             /\ recorded (one Successes) w w'.
Proof.
  intros Hne. unfold CB.success.
  destruct (set_status_increment w Successes None Hne) as (s & -> & Hr & Hst).
  simpl. destruct (State.eqb (CB.state w) State.half_open) eqn:E.
  - destruct (close_spec (CB.set_status s w)) as (w' & Hc & Hs & Hr').
    { by eapply recorded_nonempty. }
    exists w'. split; [done|]. split; [done|].
    eapply recorded_ext; [|eapply recorded_trans; eauto].
    intros p. unfold none. simpl. lia.
  - eauto.
Qed.

Lemma stats_of_totals (s : Status.t) :
  Status.buckets s <> [] ->
  exists st, Status.stats s = Some st
             /\ Stats.failures st = window_total Failures s
             /\ Stats.fires st = window_total Fires s
             /\ Stats.successes st = window_total Successes s
             /\ Stats.timeouts st = window_total Timeouts s.
Proof.
  intros Hne. destruct (proj2 (stats_is_Some s) Hne) as [st Hst].
  exists st. split; [done|].
  repeat split.
  - apply (stats_counter_total Failures _ _ Hst).
  - apply (stats_counter_total Fires _ _ Hst).
  - apply (stats_counter_total Successes _ _ Hst).
  - apply (stats_counter_total Timeouts _ _ Hst).
Qed.

(** [fail] always records the failure; it changes the state only when
    warm-up is over and [trips] holds of the totals it reads back. *)
Lemma fail_spec w :
  Status.buckets (CB.status w) <> [] ->
  exists w', CB.fail w = Some w'
             /\ recorded (one Failures) w w'
             /\ CB.state w'
                = if CB.warmUp w then CB.state w
                  else if trips (CB.options w) (CB.state w)
                                (S (window_total Failures (CB.status w)))
                                (window_total Fires (CB.status w))
                       then State.open else CB.state w.
Proof.
  intros Hne. unfold CB.fail.
  destruct (set_status_increment w Failures None Hne) as (s & Hs & Hr & Hst).
  rewrite Hs. simpl.
  destruct (CB.warmUp w) eqn:Hw; [eauto|].
  assert (Hne' : Status.buckets s <> [])
    by (by eapply increment_buckets_nonempty).
  destruct (stats_of_totals s Hne') as (st & -> & Hf & Hn & _ & _).
  simpl. rewrite errorRate_rate, Hf, Hn.
  pose proof (rec_totals _ _ _ Hr Failures) as Ef.
  pose proof (rec_totals _ _ _ Hr Fires) as En.
  simpl in Ef, En. unfold one in Ef, En. simpl in Ef, En.
  rewrite Ef, En, Nat.add_0_r, Nat.add_1_r.
  unfold trips.
  destruct ((Z.of_nat _ <? _)%Z && negb _) eqn:G1; simpl; [eauto|].
  destruct (number_gt _ _ || State.eqb _ _) eqn:G2; simpl; [|eauto].
  destruct (open_spec (CB.set_status s w)) as (w' & Ho & Hso & Hr').
  { done. }
  exists w'. split; [done|]. split; [|done].
  eapply recorded_ext; [|eapply recorded_trans; eauto].
  intros p. unfold none. simpl. lia.
Qed.

Lemma onTimeout_spec startedAt now w :
  Status.buckets (CB.status w) <> [] ->
  exists w', CB.onTimeout startedAt now w = Some w'
             /\ recorded (fun p => one Timeouts p + one Failures p) w w'
             /\ CB.state w'
                = if CB.warmUp w then CB.state w
                  else if trips (CB.options w) (CB.state w)
                                (S (window_total Failures (CB.status w)))
                                (window_total Fires (CB.status w))
                       then State.open else CB.state w.
Proof.
  intros Hne. unfold CB.onTimeout.
  destruct (set_status_increment w Timeouts (Some (now - startedAt)%Z) Hne)
    as (s & -> & Hr & Hst).
  simpl.
  destruct (fail_spec (CB.set_status s w)) as (w' & Hf & Hr' & Hs').
  { by eapply recorded_nonempty. }
  exists w'. split; [done|]. split.
  - eapply recorded_trans; eauto.
  - rewrite Hs'. simpl.
    pose proof (rec_totals _ _ _ Hr Failures) as Ef.
    pose proof (rec_totals _ _ _ Hr Fires) as En.
    simpl in Ef, En. unfold one in Ef, En. simpl in Ef, En.
    by rewrite Ef, En, !Nat.add_0_r.
Qed.

(** *** The two halves of [fail] *)

Lemma fail_split w :
  CB.fail w = (w1 ← CB.fail_sync w; CB.fail_resume w1).
Proof.
  unfold CB.fail, CB.fail_sync, CB.fail_resume.
  by destruct (Status.increment Failures None (CB.status w)).
Qed.

Lemma fail_sync_spec w :
  Status.buckets (CB.status w) <> [] ->
  exists s,
    Status.increment Failures None (CB.status w) = Some s
    /\ CB.fail_sync w = Some (CB.set_status s w)
    /\ recorded (one Failures) w (CB.set_status s w).
Proof.
  intros Hne.
  destruct (set_status_increment w Failures None Hne) as (s & Hs & Hr & _).
  exists s. split; [done|]. split; [|done].
  unfold CB.fail_sync. by rewrite Hs.
Qed.

(** The continuation of [fail] counts nothing; it decides on the state
    and the totals that it finds. *)
Lemma fail_resume_spec w :
  Status.buckets (CB.status w) <> [] ->
  exists w', CB.fail_resume w = Some w'
             /\ recorded none w w'
             /\ CB.state w'
                = if CB.warmUp w then CB.state w
                  else if trips (CB.options w) (CB.state w)
                                (window_total Failures (CB.status w))
                                (window_total Fires (CB.status w))
                       then State.open else CB.state w.
Proof.
  intros Hne. unfold CB.fail_resume.
  destruct (CB.warmUp w) eqn:Hw; [eauto using recorded_refl|].
  destruct (stats_of_totals (CB.status w) Hne) as (st & -> & Hf & Hn & _ & _).
  simpl. rewrite errorRate_rate, Hf, Hn. unfold trips.
  destruct ((Z.of_nat _ <? _)%Z && negb _) eqn:G1; simpl;
    [eauto using recorded_refl|].
  destruct (number_gt _ _ || State.eqb _ _) eqn:G2; simpl;
    [|eauto using recorded_refl].
  destruct (open_spec w Hne) as (w' & Ho & Hso & Hr'). eauto.
Qed.

End BreakerFacts.

(** *** The invariant of the breaker *)

Section Invariant.

Implicit Types (w : CB.t).

Lemma invariant_set_status w s :
  invariant w ->
  length (Status.buckets s) = length (Status.buckets (CB.status w)) ->
  invariant (CB.set_status s w).
Proof.
  intros [Hb Hl Hr Hw Hf] E. split; simpl; try done.
  - apply nonempty_length. rewrite E. by apply nonempty_length.
  - congruence.
Qed.

(** Timers may be cancelled and deadline timers may be added. *)
Lemma invariant_set_timers w ts :
  invariant w ->
  (forall id c, Timers.callback_of id ts = Some c ->
                Timers.callback_of id (CB.timers w) = Some c
                \/ exists startedAt, c = RequestTimeoutCallback startedAt) ->
  (forall id c, Timers.callback_of id ts = Some c -> id < Timers.next ts) ->
  invariant (CB.set_timers ts w).
Proof.
  intros [Hb Hl Hr Hw Hf] H Hf'. split; simpl; try done.
  - intros id Hid. destruct (H _ _ Hid) as [?|[? ?]]; [auto|done].
  - intros id Hid. destruct (H _ _ Hid) as [?|[? ?]]; [auto|done].
Qed.

Lemma invariant_clearHandle w h :
  invariant w ->
  invariant (CB.set_timers (Timers.clearHandle h (CB.timers w)) w).
Proof.
  intros Hi. apply invariant_set_timers; [done| |].
  - intros id c [H _]%callback_of_clearHandle_Some. by left.
  - intros id c [H _]%callback_of_clearHandle_Some.
    rewrite next_clearHandle. by eapply inv_fresh.
Qed.

Lemma invariant_set_listeners w l :
  invariant w -> invariant (CB.set_listeners l w).
Proof. intros [Hb Hl Hr Hw Hf]. by split. Qed.

(** What the constructor builds, when it returns. *)
Lemma constructor_Some options w :
  CB.constructor options = Some w ->
  (Options.rollingCountBuckets options < 2 ^ 32)%Z
  /\ Status.buckets (CB.status w) <> []
  /\ w = CB.mk
           (Status.constructor
              (StatusOptions.mk
                 (Options.rollingCountBuckets options)
                 (Options.rollingCountTimeout options)
                 (Some (Options.rollingPercentilesEnabled options))))
           options
           (if Options.allowWarmUp options then Some 0 else None)
           State.closed (Options.allowWarmUp options) None
           (if Options.allowWarmUp options
            then Timers.mk
                   (<[0 := (WarmUpCallback,
                            Options.rollingCountTimeout options)]> ∅) 1
            else Timers.empty)
           [].
Proof.
  unfold CB.constructor, Status.new. simpl.
  destruct (Z.leb_spec (2 ^ 32) (Options.rollingCountBuckets options));
    simpl; [done|].
  destruct (Options.allowWarmUp options) eqn:Ew; simpl;
    destruct (Status.stats _) as [st|] eqn:Est; simpl; try done;
    intros [= <-]; (split; [done|]); (split; [|done]);
    apply (proj1 (stats_is_Some _)); simpl; eauto.
Qed.

Lemma constructor_is_Some options :
  is_Some (CB.constructor options)
  <-> (1 <= Options.rollingCountBuckets options < 2 ^ 32)%Z.
Proof.
  split.
  - intros [w H]. destruct (constructor_Some _ _ H) as (Hlt & Hne & ->).
    simpl in Hne. apply nonempty_length in Hne.
    rewrite length_replicate in Hne. lia.
  - intros [H1 H2]. unfold CB.constructor, Status.new. simpl.
    destruct (Z.leb_spec (2 ^ 32) (Options.rollingCountBuckets options));
      [lia|]. simpl.
    set (st := Status.constructor _).
    assert (Hne : Status.buckets st <> []).
    { apply nonempty_length. unfold st. simpl.
      rewrite length_replicate. lia. }
    destruct (proj2 (stats_is_Some st) Hne) as [x Hx].
    destruct (Options.allowWarmUp options); simpl; rewrite Hx; simpl; eauto.
Qed.

Lemma invariant_constructor options w :
  CB.constructor options = Some w -> invariant w.
Proof.
  intros H. destruct (constructor_Some _ _ H) as (_ & Hne & ->).
  simpl in Hne.
  destruct (Options.allowWarmUp options) eqn:Ew;
    split; simpl; try done; try apply length_replicate.
  - intros id. unfold Timers.callback_of. simpl.
    destruct (decide (id = 0)) as [->|E].
    + by rewrite lookup_insert_eq.
    + by rewrite lookup_insert_ne, lookup_empty.
  - intros id. unfold Timers.callback_of. simpl.
    destruct (decide (id = 0)) as [->|E]; [done|].
    by rewrite lookup_insert_ne, lookup_empty.
  - intros id c. unfold Timers.callback_of. simpl.
    destruct (decide (id = 0)) as [->|E]; [lia|].
    by rewrite lookup_insert_ne, lookup_empty.
Qed.

Lemma invariant_open w w' :
  invariant w -> CB.open w = Some w' -> invariant w'.
Proof.
  intros Hi. unfold CB.open.
  destruct (State.eqb (CB.state w) State.open) eqn:E; simpl.
  { by intros [= <-]. }
  apply State_eqb_neq in E.
  destruct (Status.open (CB.status w)) as [s|] eqn:Hs; simpl; [|done].
  intros [= <-]. destruct Hi as [Hb Hl Hr Hw Hf].
  unfold CB.startTimer. simpl. split; simpl.
  - by eapply buckets_nonempty_length_status, open_length.
  - erewrite open_length; eauto.
  - intros id. rewrite callback_of_insert.
    case_decide as Eid; [by subst|].
    intros H. by destruct (Hr _ H).
  - intros id. rewrite callback_of_insert.
    case_decide as Eid; [done|]. apply Hw.
  - intros id c. rewrite callback_of_insert.
    case_decide as Eid; [lia|]. intros H%Hf. lia.
Qed.

Lemma invariant_close w w' :
  invariant w -> CB.close w = Some w' -> invariant w'.
Proof.
  intros Hi. unfold CB.close.
  destruct (State.eqb (CB.state w) State.closed) eqn:E; simpl.
  { by intros [= <-]. }
  destruct (Status.close (CB.status w)) as [s|] eqn:Hs; simpl; [|done].
  intros [= <-]. destruct Hi as [Hb Hl Hr Hw Hf]. split; simpl.
  - by eapply buckets_nonempty_length_status, close_length.
  - erewrite close_length; eauto.
  - intros id [H Hne]%callback_of_clearHandle_Some.
    destruct (Hr _ H). congruence.
  - intros id [H Hne]%callback_of_clearHandle_Some. by apply Hw.
  - intros id c [H Hne]%callback_of_clearHandle_Some.
    rewrite next_clearHandle. by eapply Hf.
Qed.

Lemma invariant_shutdown w : invariant w -> invariant (CB.shutdown w).
Proof.
  intros [Hb Hl Hr Hw Hf]. unfold CB.shutdown. split; simpl; try done.
  - intros id [[H Hne]%callback_of_clearHandle_Some _]%callback_of_clearHandle_Some.
    destruct (Hr _ H). congruence.
  - intros id [[H _]%callback_of_clearHandle_Some Hne]%callback_of_clearHandle_Some.
    destruct (Hw _ H). congruence.
  - intros id c [[H _]%callback_of_clearHandle_Some _]%callback_of_clearHandle_Some.
    rewrite !next_clearHandle. by eapply Hf.
Qed.

Lemma invariant_increment w q latency s :
  invariant w ->
  Status.increment q latency (CB.status w) = Some s ->
  invariant (CB.set_status s w).
Proof.
  intros Hi Hs. apply invariant_set_status; [done|].
  by eapply increment_length.
Qed.

Lemma invariant_fail w w' :
  invariant w -> CB.fail w = Some w' -> invariant w'.
Proof.
  intros Hi. unfold CB.fail.
  destruct (Status.increment _ _ _) as [s|] eqn:Hs; simpl; [|done].
  pose proof (invariant_increment _ _ _ _ Hi Hs) as Hi'.
  destruct (CB.warmUp w); [by intros [= <-]|].
  destruct (Status.stats s) as [st|]; simpl; [|done].
  destruct (_ && _); [by intros [= <-]|].
  destruct (_ || _); [|by intros [= <-]].
  by apply invariant_open.
Qed.

Lemma invariant_success w w' :
  invariant w -> CB.success w = Some w' -> invariant w'.
Proof.
  intros Hi. unfold CB.success.
  destruct (Status.increment _ _ _) as [s|] eqn:Hs; simpl; [|done].
  pose proof (invariant_increment _ _ _ _ Hi Hs) as Hi'.
  destruct (State.eqb _ _); [|by intros [= <-]].
  by apply invariant_close.
Qed.

Lemma invariant_countInvocation w w' :
  invariant w -> CB.countInvocation w = Some w' -> invariant w'.
Proof.
  intros Hi. unfold CB.countInvocation.
  destruct (Status.increment _ _ _) as [s|] eqn:Hs; simpl; [|done].
  intros [= <-]. by eapply invariant_increment.
Qed.

Lemma invariant_middleware now w w' a :
  invariant w -> CB.middleware now w = Some (w', a) -> invariant w'.
Proof.
  intros Hi. unfold CB.middleware.
  destruct (negb _); [by intros [= <- _]|].
  destruct (CB.countInvocation w) as [w1|] eqn:H1; simpl; [|done].
  pose proof (invariant_countInvocation _ _ Hi H1) as Hi1.
  destruct (_ && _); [by intros [= <- _]|].
  destruct (Options.timeout (CB.options w1)) as [delay|]; simpl.
  - intros [= <- _]. apply invariant_set_listeners.
    apply invariant_set_timers; [done| |].
    + intros id c. rewrite callback_of_insert.
      case_decide; [|by left]. intros [= <-]. right. eauto.
    + intros id c. rewrite callback_of_insert. simpl.
      case_decide; [lia|]. intros Hc%(inv_fresh _ Hi1). lia.
  - intros [= <- _]. by apply invariant_set_listeners.
Qed.

Lemma invariant_onTimeout startedAt now w w' :
  invariant w -> CB.onTimeout startedAt now w = Some w' -> invariant w'.
Proof.
  intros Hi. unfold CB.onTimeout.
  destruct (Status.increment _ _ _) as [s|] eqn:Hs; simpl; [|done].
  apply invariant_fail. by eapply invariant_increment.
Qed.

Lemma invariant_onFinish inv statusCode now w w' :
  invariant w -> CB.onFinish inv statusCode now w = Some w' -> invariant w'.
Proof.
  intros Hi. unfold CB.onFinish. simpl.
  destruct (Options.isError _ _).
  - apply invariant_fail. by apply invariant_clearHandle.
  - apply invariant_success. by apply invariant_clearHandle.
Qed.

Lemma invariant_onClose inv now w w' :
  invariant w -> CB.onClose inv now w = Some w' -> invariant w'.
Proof.
  intros Hi. unfold CB.onClose.
  apply invariant_fail. by apply invariant_clearHandle.
Qed.

Lemma invariant_fireTimer id now w w' :
  invariant w -> CB.fireTimer id now w = Some w' -> invariant w'.
Proof.
  intros Hi. unfold CB.fireTimer.
  destruct (Timers.callback_of id (CB.timers w)) as [c|] eqn:Hc;
    [|by intros [= <-]].
  assert (Hi' : invariant
                  (CB.set_timers (Timers.clearTimeout id (CB.timers w)) w)).
  { apply invariant_set_timers; [done| |].
    - intros id' c' [H _]%callback_of_clearTimeout_Some. by left.
    - intros id' c' [H _]%callback_of_clearTimeout_Some. simpl.
      by eapply inv_fresh. }
  destruct c as [| |startedAt].
  - intros [= <-]. destruct Hi as [Hb Hl Hr Hw Hf]. split; simpl; try done.
    + intros id' [H Hne]%callback_of_clearTimeout_Some.
      destruct (Hr _ H), (Hr _ Hc). congruence.
    + intros id' [H Hne]%callback_of_clearTimeout_Some. by apply Hw.
    + intros id' c [H Hne]%callback_of_clearTimeout_Some. by eapply Hf.
  - intros [= <-]. destruct Hi as [Hb Hl Hr Hw Hf]. split; simpl; try done.
    + intros id' [H Hne]%callback_of_clearTimeout_Some. by apply Hr.
    + intros id' [H Hne]%callback_of_clearTimeout_Some.
      destruct (Hw _ H), (Hw _ Hc). congruence.
    + intros id' c [H Hne]%callback_of_clearTimeout_Some. by eapply Hf.
  - by apply invariant_onTimeout.
Qed.

Lemma invariant_rotation w : invariant w -> invariant (CB.rotation w).
Proof.
  intros Hi. apply invariant_set_status; [done|].
  apply rotationTick_length, Hi.
Qed.

Lemma invariant_step e w w' :
  invariant w -> CB.step e w = Some w' -> invariant w'.
Proof.
  intros Hi. destruct e; simpl.
  - destruct (CB.middleware now w) as [[w1 a]|] eqn:H; simpl; [|done].
    intros [= <-]. by eapply invariant_middleware.
  - destruct (CB.listeners w !! listener); [|by intros [= <-]].
    by apply invariant_onFinish.
  - destruct (CB.listeners w !! listener); [|by intros [= <-]].
    by apply invariant_onClose.
  - by apply invariant_fireTimer.
  - intros [= <-]. by apply invariant_rotation.
  - by apply invariant_open.
  - by apply invariant_close.
  - by apply invariant_success.
  - intros [= <-]. by apply invariant_shutdown.
Qed.

Lemma reachable_invariant w : CB.reachable w -> invariant w.
Proof.
  induction 1 as [options w H|e w w' _ IH H].
  - by eapply invariant_constructor.
  - by eapply invariant_step.
Qed.

Lemma invariant_run events w w' :
  invariant w -> CB.run events w = Some w' -> invariant w'.
Proof.
  revert w. induction events as [|e events IH]; intros w Hi; simpl.
  - by intros [= <-].
  - destruct (CB.step e w) as [w1|] eqn:H; simpl; [|done].
    apply IH. by eapply invariant_step.
Qed.

Lemma reachable_run events w w' :
  CB.reachable w -> CB.run events w = Some w' -> CB.reachable w'.
Proof.
  revert w. induction events as [|e events IH]; intros w Hr; simpl.
  - by intros [= <-].
  - destruct (CB.step e w) as [w1|] eqn:H; simpl; [|done].
    apply IH. by eapply CB.reachable_step.
Qed.

(** No event raises an error on a breaker that satisfies the invariant. *)
Lemma step_is_Some e w : invariant w -> is_Some (CB.step e w).
Proof.
  intros Hi. pose proof (inv_buckets _ Hi) as Hne. destruct e; simpl.
  - unfold CB.middleware.
    destruct (negb _); [eauto|].
    destruct (countInvocation_spec w Hne) as (w1 & -> & _ & _). simpl.
    destruct (_ && _); [eauto|].
    destruct (Options.timeout _); simpl; eauto.
  - destruct (CB.listeners w !! listener) as [inv|]; [|eauto].
    unfold CB.onFinish. destruct (Options.isError _ _).
    + destruct (fail_spec (CB.set_timers
                             (Timers.clearHandle (Invocation.timeoutId inv)
                                                 (CB.timers w)) w) Hne)
        as (w' & -> & _); eauto.
    + destruct (success_spec (CB.set_timers
                             (Timers.clearHandle (Invocation.timeoutId inv)
                                                 (CB.timers w)) w) Hne)
        as (w' & -> & _); eauto.
  - destruct (CB.listeners w !! listener) as [inv|]; [|eauto].
    unfold CB.onClose.
    destruct (fail_spec (CB.set_timers
                             (Timers.clearHandle (Invocation.timeoutId inv)
                                                 (CB.timers w)) w) Hne)
        as (w' & -> & _); eauto.
  - unfold CB.fireTimer.
    destruct (Timers.callback_of id (CB.timers w)) as [[| |startedAt]|];
      eauto.
    destruct (onTimeout_spec startedAt now
                (CB.set_timers (Timers.clearTimeout id (CB.timers w)) w) Hne)
      as (w' & -> & _); eauto.
  - eauto.
  - destruct (open_spec w Hne) as (w' & -> & _); eauto.
  - destruct (close_spec w Hne) as (w' & -> & _); eauto.
  - destruct (success_spec w Hne) as (w' & -> & _); eauto.
  - eauto.
Qed.

Lemma run_is_Some events w : invariant w -> is_Some (CB.run events w).
Proof.
  revert w. induction events as [|e events IH]; intros w Hi; simpl.
  - eauto.
  - destruct (step_is_Some e w Hi) as [w1 H1]. rewrite H1. simpl.
    apply IH. by eapply invariant_step.
Qed.

End Invariant.

(** *** Counters of the snapshot and pending timers along the methods *)

Section SnapshotFacts.

Implicit Types (w : CB.t).

Lemma snapshot_total property w :
  Status.buckets (CB.status w) <> [] ->
  CB.snapshot property w = Some (window_total property (CB.status w)).
Proof.
  intros Hne. unfold CB.snapshot.
  destruct (stats_of_totals _ Hne) as (st & -> & Hf & Hn & Hs & Ht).
  simpl. by destruct property; f_equal.
Qed.

Lemma snapshot_recorded d property w w' :
  Status.buckets (CB.status w) <> [] ->
  recorded d w w' ->
  CB.snapshot property w'
  = (fun n => n + d property) <$> CB.snapshot property w.
Proof.
  intros Hne Hr.
  rewrite !snapshot_total; [|done|by eapply recorded_nonempty].
  simpl. by rewrite (rec_totals _ _ _ Hr).
Qed.

Lemma snapshot_recorded_one q property w w' :
  Status.buckets (CB.status w) <> [] ->
  recorded (one q) w w' ->
  CB.snapshot property w'
  = if decide (property = q) then S <$> CB.snapshot property w
    else CB.snapshot property w.
Proof.
  intros Hne Hr. rewrite (snapshot_recorded _ _ _ _ Hne Hr).
  rewrite snapshot_total by done. unfold one. simpl.
  case_decide; f_equal; lia.
Qed.

Lemma open_pending id w w' :
  CB.open w = Some w' -> id < Timers.next (CB.timers w) ->
  Timers.callback_of id (CB.timers w') = Timers.callback_of id (CB.timers w)
  /\ Timers.next (CB.timers w) <= Timers.next (CB.timers w').
Proof.
  unfold CB.open. destruct (negb _); simpl.
  - destruct (Status.open _); simpl; [|done]. intros [= <-] Hlt.
    unfold CB.startTimer. simpl. rewrite callback_of_insert.
    case_decide; [lia|]. split; [done|lia].
  - by intros [= <-].
Qed.

Lemma fail_pending id w w' :
  CB.fail w = Some w' -> id < Timers.next (CB.timers w) ->
  Timers.callback_of id (CB.timers w') = Timers.callback_of id (CB.timers w).
Proof.
  unfold CB.fail.
  destruct (Status.increment _ _ _) as [s|]; simpl; [|done].
  destruct (CB.warmUp w); [by intros [= <-]|].
  destruct (Status.stats s); simpl; [|done].
  destruct (_ && _); [by intros [= <-]|].
  destruct (_ || _); [|by intros [= <-]].
  intros H Hlt. by destruct (open_pending id _ _ H Hlt).
Qed.

End SnapshotFacts.

(** The deadline timer [id] of the invocation [inv] fires in [w]; then a
    signal of the same invocation arrives in some later [w2]. *)
Lemma deadline_then_signal
    (w : CB.t) (inv : Invocation.t) (id : nat) (now : Z) :
  invariant w ->
  Invocation.timeoutId inv = Some id ->
  Timers.callback_of id (CB.timers w)
  = Some (RequestTimeoutCallback (Invocation.startedAt inv)) ->
  exists w1,
    CB.fireTimer id now w = Some w1
    /\ CB.snapshot Timeouts w1 = S <$> CB.snapshot Timeouts w
    /\ CB.snapshot Failures w1 = S <$> CB.snapshot Failures w
    /\ CB.snapshot Successes w1 = CB.snapshot Successes w
    /\ invariant w1
    /\ Timers.callback_of id (CB.timers w1) = None
    /\ forall (w2 : CB.t) (late statusCode : Z),
         invariant w2 ->
         Timers.callback_of id (CB.timers w2) = None ->
         Timers.clearHandle (Invocation.timeoutId inv) (CB.timers w2)
         = CB.timers w2
         /\ (exists w3,
               CB.onClose inv late w2 = Some w3
               /\ CB.snapshot Failures w3 = S <$> CB.snapshot Failures w2
               /\ CB.snapshot Successes w3 = CB.snapshot Successes w2
               /\ CB.snapshot Timeouts w3 = CB.snapshot Timeouts w2)
         /\ (Options.isError (CB.options w2) statusCode = true ->
             exists w3,
               CB.onFinish inv statusCode late w2 = Some w3
               /\ CB.snapshot Failures w3 = S <$> CB.snapshot Failures w2
               /\ CB.snapshot Successes w3 = CB.snapshot Successes w2
               /\ CB.snapshot Timeouts w3 = CB.snapshot Timeouts w2)
         /\ (Options.isError (CB.options w2) statusCode = false ->
             exists w3,
               CB.onFinish inv statusCode late w2 = Some w3
               /\ CB.snapshot Successes w3 = S <$> CB.snapshot Successes w2
               /\ CB.snapshot Failures w3 = CB.snapshot Failures w2
               /\ CB.snapshot Timeouts w3 = CB.snapshot Timeouts w2).
Proof.
  intros Hi Hid Hc.
  pose proof (inv_buckets _ Hi) as Hne.
  set (wc := CB.set_timers (Timers.clearTimeout id (CB.timers w)) w).
  destruct (onTimeout_spec (Invocation.startedAt inv) now wc Hne)
    as (w1 & H1 & Hr1 & _).
  assert (Hfire : CB.fireTimer id now w = Some w1).
  { unfold CB.fireTimer. rewrite Hc. exact H1. }
  exists w1. split; [exact Hfire|].
  assert (Hs : forall p, CB.snapshot p wc = CB.snapshot p w) by done.
  split; [|split; [|split; [|split; [|split]]]].
  - rewrite (snapshot_recorded _ Timeouts wc w1 Hne Hr1), Hs.
    rewrite snapshot_total by done. simpl. f_equal. unfold one. simpl. lia.
  - rewrite (snapshot_recorded _ Failures wc w1 Hne Hr1), Hs.
    rewrite snapshot_total by done. simpl. f_equal. unfold one. simpl. lia.
  - rewrite (snapshot_recorded _ Successes wc w1 Hne Hr1), Hs.
    rewrite snapshot_total by done. simpl. f_equal. unfold one. simpl. lia.
  - by eapply invariant_fireTimer.
  - unfold CB.onTimeout in H1.
    destruct (Status.increment _ _ _) as [s|]; simpl in H1; [|done].
    rewrite (fail_pending id _ _ H1); simpl.
    + rewrite callback_of_clearTimeout. by case_decide.
    + by eapply inv_fresh.
  - intros w2 late statusCode Hi2 Hc2.
    pose proof (inv_buckets _ Hi2) as Hne2.
    assert (Hclear : Timers.clearHandle (Invocation.timeoutId inv)
                                        (CB.timers w2) = CB.timers w2).
    { rewrite Hid. by apply clearHandle_not_pending. }
    set (w2' := CB.set_timers (Timers.clearHandle (Invocation.timeoutId inv)
                                                  (CB.timers w2)) w2).
    assert (Hs2 : forall p, CB.snapshot p w2' = CB.snapshot p w2) by done.
    split; [exact Hclear|]. split; [|split].
    + destruct (fail_spec w2' Hne2) as (w3 & H3 & Hr3 & _).
      exists w3. split; [exact H3|].
      rewrite !(snapshot_recorded_one _ _ w2' w3 Hne2 Hr3), !Hs2. done.
    + intros He. destruct (fail_spec w2' Hne2) as (w3 & H3 & Hr3 & _).
      exists w3. unfold CB.onFinish. fold w2'.
      change (CB.options w2') with (CB.options w2). rewrite He.
      split; [exact H3|].
      rewrite !(snapshot_recorded_one _ _ w2' w3 Hne2 Hr3), !Hs2. done.
    + intros He. destruct (success_spec w2' Hne2) as (w3 & H3 & _ & Hr3).
      exists w3. unfold CB.onFinish. fold w2'.
      change (CB.options w2') with (CB.options w2). rewrite He.
      split; [exact H3|].
      rewrite !(snapshot_recorded_one _ _ w2' w3 Hne2 Hr3), !Hs2. done.
Qed.


Lemma middleware_forwarded (started delay : Z) (w0 w : CB.t)
    (inv : Invocation.t) :
  Options.timeout (CB.options w0) = Some delay ->
  CB.middleware started w0 = Some (w, CB.Forwarded inv) ->
  exists id,
    Invocation.timeoutId inv = Some id
    /\ Invocation.startedAt inv = started
    /\ Timers.callback_of id (CB.timers w)
       = Some (RequestTimeoutCallback started)
    /\ inv ∈ CB.listeners w.
Proof.
  intros Ht. unfold CB.middleware.
  destruct (negb _); [done|].
  unfold CB.countInvocation.
  destruct (Status.increment _ _ _) as [s|]; simpl; [|done].
  destruct (_ && _); [done|]. rewrite Ht. simpl.
  intros [= <- <-]. eexists. split; [reflexivity|]. split; [reflexivity|].
  simpl. split.
  - rewrite callback_of_insert. by case_decide.
  - apply elem_of_app. right. by left.
Qed.

(** C1.  An invocation is forwarded by the middleware with a deadline
    configured.  When its deadline timer fires, one timeout and one failure
    are recorded and the timer is no longer pending.  A completion or an
    abrupt termination of the same invocation that arrives afterwards finds
    nothing to cancel and is recorded all the same: an abrupt termination,
    or a completion that the error predicate classifies as an error, adds
    one more failure; a completion that is not an error adds one success.
    The timeouts counter is not touched again. *)
Theorem late_signal_is_recorded
    (w0 w : CB.t) (inv : Invocation.t) (started delay : Z) :
  invariant w0 ->
  Options.timeout (CB.options w0) = Some delay ->
  CB.middleware started w0 = Some (w, CB.Forwarded inv) ->
  exists id,
    Invocation.timeoutId inv = Some id
    /\ Timers.callback_of id (CB.timers w)
       = Some (RequestTimeoutCallback started)
    /\ forall (w' : CB.t) (now : Z),
         invariant w' ->
         Timers.callback_of id (CB.timers w')
         = Some (RequestTimeoutCallback started) ->
         exists w1,
           CB.fireTimer id now w' = Some w1
           /\ CB.snapshot Timeouts w1 = S <$> CB.snapshot Timeouts w'
           /\ CB.snapshot Failures w1 = S <$> CB.snapshot Failures w'
           /\ CB.snapshot Successes w1 = CB.snapshot Successes w'
           /\ invariant w1
           /\ Timers.callback_of id (CB.timers w1) = None
           /\ forall (w2 : CB.t) (late statusCode : Z),
                invariant w2 ->
                Timers.callback_of id (CB.timers w2) = None ->
                Timers.clearHandle (Invocation.timeoutId inv) (CB.timers w2)
                = CB.timers w2
                /\ (exists w3,
                      CB.onClose inv late w2 = Some w3
                      /\ CB.snapshot Failures w3
                         = S <$> CB.snapshot Failures w2
                      /\ CB.snapshot Successes w3 = CB.snapshot Successes w2
                      /\ CB.snapshot Timeouts w3 = CB.snapshot Timeouts w2)
                /\ (Options.isError (CB.options w2) statusCode = true ->
                    exists w3,
                      CB.onFinish inv statusCode late w2 = Some w3
                      /\ CB.snapshot Failures w3
                         = S <$> CB.snapshot Failures w2
                      /\ CB.snapshot Successes w3 = CB.snapshot Successes w2
                      /\ CB.snapshot Timeouts w3 = CB.snapshot Timeouts w2)
                /\ (Options.isError (CB.options w2) statusCode = false ->
                    exists w3,
                      CB.onFinish inv statusCode late w2 = Some w3
                      /\ CB.snapshot Successes w3
                         = S <$> CB.snapshot Successes w2
                      /\ CB.snapshot Failures w3 = CB.snapshot Failures w2
                      /\ CB.snapshot Timeouts w3 = CB.snapshot Timeouts w2).
Proof.
  intros Hi0 Ht Hm.
  destruct (middleware_forwarded started delay w0 w inv Ht Hm)
    as (id & Hid & Hstart & Hc & _).
  exists id. split; [done|]. split; [done|].
  intros w' now Hi' Hc'. rewrite <- Hstart in Hc'.
  exact (deadline_then_signal w' inv id now Hi' Hid Hc').
Qed.

(** A request is forwarded, its deadline expires, the client disconnects:
    the one invocation has two failures to its name. *)
Lemma late_signal_counted_twice :
  counters_after Options.defaults [CB.Request 0; CB.TimerFires 0 10000]
  = Some (1, 0, 1, 1)
  /\ counters_after Options.defaults
       [CB.Request 0; CB.TimerFires 0 10000; CB.Close 0 10050]
     = Some (2, 0, 1, 1)
  /\ counters_after Options.defaults
       [CB.Request 0; CB.TimerFires 0 10000; CB.Finish 0 500 10050]
     = Some (2, 0, 1, 1)
  /\ counters_after Options.defaults
       [CB.Request 0; CB.TimerFires 0 10000; CB.Finish 0 200 10050]
     = Some (1, 1, 1, 1).
Proof. repeat split; vm_compute; reflexivity. Qed.

Lemma late_signal_is_recorded_witness :
  exists w inv w1,
    CB.constructor Options.defaults = Some w
    /\ CB.middleware 0 w = Some (w1, CB.Forwarded inv)
    /\ exists w2, CB.fireTimer 0 10000 w1 = Some w2
                  /\ CB.snapshot Failures w2 = S <$> CB.snapshot Failures w1.
Proof.
  destruct (CB.constructor Options.defaults) as [w|] eqn:E;
    [|vm_compute in E; discriminate].
  destruct (CB.middleware 0 w) as [[w1 a]|] eqn:E1.
  2:{ vm_compute in E. injection E as <-. vm_compute in E1. discriminate. }
  assert (Ha : a = CB.Forwarded (Invocation.mk (Some 0) 0)).
  { vm_compute in E. injection E as <-. vm_compute in E1. congruence. }
  subst a.
  exists w, (Invocation.mk (Some 0) 0), w1.
  split; [reflexivity|]. split; [exact E1|].
  assert (Hi : invariant w) by (by eapply invariant_constructor).
  assert (Hi1 : invariant w1) by (by eapply invariant_middleware).
  assert (Ht : Options.timeout (CB.options w) = Some 10000%Z).
  { vm_compute in E. injection E as <-. reflexivity. }
  destruct (late_signal_is_recorded w w1 (Invocation.mk (Some 0) 0) 0 10000
              Hi Ht E1) as (id & Hid & Hc & Hfire).
  injection Hid as <-.
  destruct (Hfire w1 10000%Z Hi1 Hc) as (w2 & Hf & _ & Hfail & _).
  exists w2. split; assumption.
Defined.

(** C2.  [shutdown] sets the state to [shutdown] and cancels the reset
    timer, the warm-up timer and the rotation of the window, so none of them
    fires afterwards; a success reported afterwards leaves the state alone.
    The state is not final: a later [open] sets it to [open] and starts a
    reset timer, a later [close] sets it to [closed], and a failure reported
    afterwards is counted at once and opens the circuit when its
    continuation runs, if the state is still [shutdown] then, warm-up is
    over and the open guard passes on the totals of that moment. *)
Theorem shutdown_cancels_timers_only (w : CB.t) :
  invariant w ->
  let w0 := CB.shutdown w in
  CB.state w0 = State.shutdown
  /\ (forall id, Timers.callback_of id (CB.timers w0) <> Some ResetCallback)
  /\ (forall id, Timers.callback_of id (CB.timers w0) <> Some WarmUpCallback)
  /\ (forall id now,
        Timers.callback_of id (CB.timers w) = Some ResetCallback
        \/ Timers.callback_of id (CB.timers w) = Some WarmUpCallback ->
        CB.fireTimer id now w0 = Some w0)
  /\ CB.rotation w0 = w0
  /\ CB.state (CB.shutdown w0) = State.shutdown
  /\ (exists w1, CB.success w0 = Some w1 /\ CB.state w1 = State.shutdown)
  /\ (exists w1,
        CB.fail_sync w0 = Some w1
        /\ CB.state w1 = State.shutdown
        /\ CB.snapshot Failures w1 = S <$> CB.snapshot Failures w0)
  /\ (forall w1,
        Status.buckets (CB.status w1) <> [] ->
        CB.state w1 = State.shutdown ->
        exists w2,
          CB.fail_resume w1 = Some w2
          /\ CB.state w2
             = if CB.warmUp w1 then State.shutdown
               else if trips (CB.options w1) State.shutdown
                             (window_total Failures (CB.status w1))
                             (window_total Fires (CB.status w1))
                    then State.open else State.shutdown)
  /\ (exists w1,
        CB.open w0 = Some w1
        /\ CB.state w1 = State.open
        /\ Timers.callback_of (Timers.next (CB.timers w0)) (CB.timers w1)
           = Some ResetCallback)
  /\ (exists w1, CB.close w0 = Some w1 /\ CB.state w1 = State.closed).
Proof.
  intros Hi w0.
  pose proof (invariant_shutdown w Hi) as Hi0.
  pose proof (inv_buckets _ Hi0) as Hne0.
  assert (Hreset : forall id,
             Timers.callback_of id (CB.timers w0) <> Some ResetCallback).
  { intros id H. by destruct (inv_reset _ Hi0 id H). }
  assert (Hwarm : forall id,
             Timers.callback_of id (CB.timers w0) <> Some WarmUpCallback).
  { intros id. unfold w0, CB.shutdown. simpl.
    intros [[H _]%callback_of_clearHandle_Some Hn]%callback_of_clearHandle_Some.
    destruct (inv_warmup _ Hi id H). congruence. }
  split; [done|]. split; [exact Hreset|]. split; [exact Hwarm|].
  split; [|split; [|split; [|split; [|split; [|split; [|split]]]]]].
  - intros id now Hp. unfold CB.fireTimer.
    assert (Hnone : Timers.callback_of id (CB.timers w0) = None).
    { unfold w0, CB.shutdown. simpl. rewrite !callback_of_clearHandle.
      destruct Hp as [H|H].
      - destruct (inv_reset _ Hi id H) as [-> _].
        case_decide; [done|]. by case_decide.
      - destruct (inv_warmup _ Hi id H) as [-> _]. by case_decide. }
    by rewrite Hnone.
  - unfold CB.rotation, Status.rotationTick. simpl. by destruct w.
  - done.
  - destruct (success_spec w0 Hne0) as (w1 & H1 & Hs & _). eauto.
  - destruct (fail_sync_spec w0 Hne0) as (s & Hs & H1 & Hr).
    eexists. split; [exact H1|]. split; [done|].
    rewrite (snapshot_recorded_one Failures Failures _ _ Hne0 Hr).
    by rewrite decide_True.
  - intros w1 Hne1 Hst1.
    destruct (fail_resume_spec w1 Hne1) as (w2 & H2 & _ & Hs).
    exists w2. split; [done|]. by rewrite Hs, Hst1.
  - unfold CB.open. simpl.
    destruct (open_is_Some (CB.status w0) Hne0) as [s Hs].
    simpl in Hs. rewrite Hs. simpl. eexists. split; [reflexivity|].
    split; [reflexivity|]. unfold CB.startTimer. simpl.
    rewrite callback_of_insert. by case_decide.
  - destruct (close_spec w0 Hne0) as (w1 & H1 & Hs & _). eauto.
Qed.

(** After [shutdown], [open] and [close] still move the state, a reported
    failure still opens the circuit, the reset timer that [open] starts
    still fires, and so does the deadline timer of a request that was in
    flight. *)
Lemma shutdown_is_not_terminal :
  state_after Options.defaults [CB.CallShutdown] = Some State.shutdown
  /\ state_after Options.defaults [CB.CallShutdown; CB.CallOpen]
     = Some State.open
  /\ state_after Options.defaults [CB.CallShutdown; CB.CallClose]
     = Some State.closed
  /\ state_after Options.defaults
       [CB.CallShutdown; CB.Request 0; CB.Close 0 5]
     = Some State.open
  /\ state_after Options.defaults
       [CB.CallShutdown; CB.CallOpen; CB.TimerFires 0 30000]
     = Some State.half_open
  /\ state_after Options.defaults
       [CB.Request 0; CB.CallShutdown; CB.TimerFires 0 10000]
     = Some State.open.
Proof. repeat split; vm_compute; reflexivity. Qed.

Lemma shutdown_cancels_timers_only_witness :
  exists w w1,
    CB.constructor Options.defaults = Some w
    /\ CB.open (CB.shutdown w) = Some w1
    /\ CB.state w1 = State.open.
Proof.
  destruct (CB.constructor Options.defaults) as [w|] eqn:E;
    [|vm_compute in E; discriminate].
  pose proof (invariant_constructor _ _ E) as Hi.
  destruct (shutdown_cancels_timers_only w Hi)
    as (_ & _ & _ & _ & _ & _ & _ & _ & _ & (w1 & Ho & Hs & _) & _).
  exists w, w1. split; [reflexivity|]. split; assumption.
Defined.

(** C5.  In the half-open state one reported success closes the circuit,
    whatever the volume.  A reported failure is counted at once, and the
    state is decided by the continuation of [fail]: if the circuit is still
    half-open when it runs and warm-up is over, it opens the circuit,
    whatever the volume and the error rate; while the warm-up flag is set it
    leaves the state half-open; and if the circuit has been closed in
    between it applies the open guard of the closed state to the totals it
    finds, and leaves the circuit closed unless the guard passes. *)
Theorem half_open_probe (w : CB.t) :
  Status.buckets (CB.status w) <> [] ->
  CB.state w = State.half_open ->
  (exists w',
     CB.success w = Some w'
     /\ CB.state w' = State.closed
     /\ CB.snapshot Successes w' = S <$> CB.snapshot Successes w)
  /\ (exists w1,
        CB.fail_sync w = Some w1
        /\ CB.state w1 = State.half_open
        /\ CB.warmUp w1 = CB.warmUp w
        /\ CB.snapshot Failures w1 = S <$> CB.snapshot Failures w)
  /\ (CB.warmUp w = false ->
      exists w',
        CB.fail_resume w = Some w'
        /\ CB.state w' = State.open
        /\ forall p, CB.snapshot p w' = CB.snapshot p w)
  /\ (CB.warmUp w = true -> CB.fail_resume w = Some w)
  /\ (forall w1,
        Status.buckets (CB.status w1) <> [] ->
        CB.state w1 = State.closed ->
        CB.warmUp w1 = false ->
        exists w2,
          CB.fail_resume w1 = Some w2
          /\ CB.state w2
             = if trips (CB.options w1) State.closed
                        (window_total Failures (CB.status w1))
                        (window_total Fires (CB.status w1))
               then State.open else State.closed).
Proof.
  intros Hne Hst. split; [|split; [|split; [|split]]].
  - destruct (success_spec w Hne) as (w' & H & Hs & Hr).
    exists w'. split; [done|]. split; [by rewrite Hs, Hst|].
    rewrite (snapshot_recorded_one Successes Successes _ _ Hne Hr).
    by rewrite decide_True.
  - destruct (fail_sync_spec w Hne) as (s & Hs & H1 & Hr).
    eexists. split; [exact H1|]. split; [done|]. split; [done|].
    rewrite (snapshot_recorded_one Failures Failures _ _ Hne Hr).
    by rewrite decide_True.
  - intros Hw. destruct (fail_resume_spec w Hne) as (w' & H & Hr & Hs).
    exists w'. split; [done|]. split.
    + rewrite Hs, Hw, Hst. unfold trips. simpl.
      by rewrite andb_false_r, orb_true_r.
    + intros p. rewrite (snapshot_recorded _ p w w' Hne Hr).
      rewrite snapshot_total by done. simpl. unfold none. f_equal. lia.
  - intros Hw. unfold CB.fail_resume. by rewrite Hw.
  - intros w1 Hne1 Hst1 Hw1.
    destruct (fail_resume_spec w1 Hne1) as (w2 & H & _ & Hs).
    exists w2. split; [done|]. by rewrite Hs, Hw1, Hst1.
Qed.

(** A breaker with warm-up and a short reset time is opened by hand, goes
    half-open when the reset timer (handle 1) fires, and then stays
    half-open through a failed request.  A breaker without warm-up is
    half-open with two requests in flight; the first fails and the second
    succeeds before the continuation of [fail] runs: the success closes the
    circuit, and the continuation, below the volume threshold of 5, leaves
    it closed. *)
Lemma half_open_failure_absorbed_in_warm_up :
  let o := with_warmUp 1000 Options.defaults in
  state_after o [CB.CallOpen; CB.TimerFires 1 1000] = Some State.half_open
  /\ state_after o
       [CB.CallOpen; CB.TimerFires 1 1000; CB.Request 2000;
        CB.Finish 0 500 2100]
     = Some State.half_open
  /\ counters_after o
       [CB.CallOpen; CB.TimerFires 1 1000; CB.Request 2000;
        CB.Finish 0 500 2100]
     = Some (1, 0, 1, 0)
  /\ (w ← CB.constructor (with_thresholds 5 50 Options.defaults);
      w ← CB.run [CB.CallOpen; CB.TimerFires 0 30000; CB.Request 30001;
                  CB.Request 30002] w;
      w1 ← CB.fail_sync w;
      w2 ← CB.success w1;
      w3 ← CB.fail_resume w2;
      Some (CB.state w, CB.state w1, CB.state w2, CB.state w3))
     = Some (State.half_open, State.half_open, State.closed, State.closed).
Proof. repeat split; vm_compute; reflexivity. Qed.

Lemma half_open_probe_witness :
  exists w w1 w2,
    CB.constructor Options.defaults = Some w
    /\ CB.run [CB.CallOpen; CB.TimerFires 0 30000] w = Some w1
    /\ CB.state w1 = State.half_open
    /\ CB.fail_resume w1 = Some w2
    /\ CB.state w2 = State.open.
Proof.
  destruct (CB.constructor Options.defaults) as [w|] eqn:E;
    [|vm_compute in E; discriminate].
  destruct (CB.run [CB.CallOpen; CB.TimerFires 0 30000] w) as [w1|] eqn:E1.
  2:{ vm_compute in E. injection E as <-. vm_compute in E1. discriminate. }
  assert (Hst : CB.state w1 = State.half_open).
  { vm_compute in E. injection E as <-. vm_compute in E1.
    by injection E1 as <-. }
  assert (Hw : CB.warmUp w1 = false).
  { vm_compute in E. injection E as <-. vm_compute in E1.
    by injection E1 as <-. }
  assert (Hne : Status.buckets (CB.status w1) <> []).
  { apply inv_buckets. eapply invariant_run; [|exact E1].
    by eapply invariant_constructor. }
  destruct (half_open_probe w1 Hne Hst) as (_ & _ & Hfail & _).
  destruct (Hfail Hw) as (w2 & H2 & Hs2 & _).
  exists w, w1, w2. repeat split; assumption.
Defined.

Section OperationsOfTheWindow.

Lemma on_values_nonempty op (s : Status.t) :
  Status.buckets s <> [] ->
  exists s', on_values op s = Some s' /\ Status.buckets s' <> [].
Proof.
  intros Hne. destruct op; simpl.
  - destruct (increment_is_Some property latencyRunTime s Hne) as [s' Hs].
    exists s'. split; [done|]. by eapply increment_buckets_nonempty.
  - eexists. split; [reflexivity|]. done.
  - destruct (open_is_Some s Hne) as [s' Hs]. exists s'. split; [done|].
    eapply buckets_nonempty_length_status; [exact Hne|].
    by eapply open_length.
  - destruct (close_is_Some s Hne) as [s' Hs]. exists s'. split; [done|].
    eapply buckets_nonempty_length_status; [exact Hne|].
    by eapply close_length.
Qed.

Lemma all_on_values_nonempty ops : forall (s : Status.t),
  Status.buckets s <> [] ->
  exists s', all_on_values ops s = Some s' /\ Status.buckets s' <> [].
Proof.
  induction ops as [|op ops IH]; intros s Hne; simpl.
  - eauto.
  - destruct (on_values_nonempty op s Hne) as (s1 & -> & Hne1). simpl.
    by apply IH.
Qed.

(** No operation fails on a window that has a bucket. *)
Lemma window_never_fails ops (s : Status.t) :
  Status.buckets s <> [] ->
  exists s',
    all_on_values ops s = Some s'
    /\ is_Some (Status.stats s')
    /\ (forall property latency,
          is_Some (Status.increment property latency s'))
    /\ is_Some (Status.open s')
    /\ is_Some (Status.close s').
Proof.
  intros Hne. destruct (all_on_values_nonempty ops s Hne) as (s' & H & Hne').
  exists s'. split; [done|]. split; [by apply stats_is_Some|].
  split; [intros; by apply increment_is_Some|].
  split; [by apply open_is_Some|by apply close_is_Some].
Qed.

End OperationsOfTheWindow.

(** C3.  The constructors do not validate the configuration.
    [new Status(options)] raises an error only when [rollingCountBuckets] is
    2^32 or more, the [RangeError] of [Array.from]; otherwise it returns a
    window, whatever [rollingCountTimeout] is.  With
    [rollingCountBuckets < 1] the window starts without a bucket: the
    snapshot, [increment], [open] and [close] raise a [TypeError] at call
    time, until the first tick of the rotation adds a bucket; from then on
    they succeed, whatever is done to the window.  With
    [1 <= rollingCountBuckets < 2^32] none of them ever fails.  The
    constructor of the middleware reads the snapshot, so it throws exactly
    when [rollingCountBuckets] is below 1 or at least 2^32; once it has
    returned, no event fails. *)
Theorem configuration_is_not_validated
    (so : StatusOptions.t) (o : Options.t) :
  let s := Status.constructor so in
  (Status.new so = None
   <-> (2 ^ 32 <= StatusOptions.rollingCountBuckets so)%Z)
  /\ ((StatusOptions.rollingCountBuckets so < 2 ^ 32)%Z ->
      Status.new so = Some s)
  /\ ((StatusOptions.rollingCountBuckets so < 1)%Z ->
      Status.buckets s = []
      /\ Status.stats s = None
      /\ (forall property latency, Status.increment property latency s = None)
      /\ Status.open s = None
      /\ Status.close s = None
      /\ forall ops,
           exists s',
             all_on_values ops (Status.rotationTick s) = Some s'
             /\ is_Some (Status.stats s')
             /\ (forall property latency,
                   is_Some (Status.increment property latency s'))
             /\ is_Some (Status.open s')
             /\ is_Some (Status.close s'))
  /\ ((1 <= StatusOptions.rollingCountBuckets so)%Z ->
      forall ops,
        exists s',
          all_on_values ops s = Some s'
          /\ is_Some (Status.stats s')
          /\ (forall property latency,
                is_Some (Status.increment property latency s'))
          /\ is_Some (Status.open s')
          /\ is_Some (Status.close s'))
  /\ (is_Some (CB.constructor o)
      <-> (1 <= Options.rollingCountBuckets o < 2 ^ 32)%Z)
  /\ (forall w events,
        CB.constructor o = Some w -> is_Some (CB.run events w)).
Proof.
  intros s. split; [|split; [|split; [|split; [|split]]]].
  - unfold Status.new.
    destruct (Z.leb_spec (2 ^ 32) (StatusOptions.rollingCountBuckets so));
      split; intros; try done; lia.
  - intros Hlt. unfold Status.new.
    destruct (Z.leb_spec (2 ^ 32) (StatusOptions.rollingCountBuckets so));
      [lia|done].
  - intros Hlt.
    assert (Hb : Status.buckets s = []).
    { unfold s. simpl. by replace (Z.to_nat _) with 0 by lia. }
    split; [exact Hb|]. split; [by apply stats_None|].
    split; [intros; by apply increment_None|].
    split; [unfold Status.open; by rewrite Hb|].
    split; [unfold Status.close; by rewrite Hb|].
    intros ops. apply window_never_fails.
    unfold Status.rotationTick, s. simpl. done.
  - intros Hle ops. apply window_never_fails.
    apply nonempty_length. unfold s. rewrite constructor_length. lia.
  - apply constructor_is_Some.
  - intros w events Hw. apply run_is_Some. by eapply invariant_constructor.
Qed.

(** A window with no bucket is built without complaint and fails when it is
    used; a window duration of 0 or less is accepted and nothing ever fails. *)
Lemma invalid_configuration_is_accepted :
  Status.new (StatusOptions.mk 0 10000 None)
  = Some (Status.constructor (StatusOptions.mk 0 10000 None))
  /\ is_Some (Status.new (StatusOptions.mk 10 0 None))
  /\ Status.buckets (Status.constructor (StatusOptions.mk 0 10000 None)) = []
  /\ Status.stats (Status.constructor (StatusOptions.mk 0 10000 None)) = None
  /\ Status.increment Fires None
       (Status.constructor (StatusOptions.mk 0 10000 None)) = None
  /\ Status.stats (Status.constructor (StatusOptions.mk (-3) 10000 None))
     = None
  /\ is_Some (Status.stats (Status.constructor (StatusOptions.mk 10 0 None)))
  /\ is_Some (CB.constructor (with_window 10 0 Options.defaults))
  /\ is_Some (CB.constructor (with_window 10 (-5) Options.defaults))
  /\ counters_after (with_window 10 0 Options.defaults)
       [CB.Request 0; CB.Finish 0 200 5; CB.RotationTick]
     = Some (0, 1, 1, 0).
Proof.
  repeat split; try (vm_compute; reflexivity); vm_compute; eauto.
Qed.

Lemma configuration_is_not_validated_witness :
  Status.stats (Status.constructor (StatusOptions.mk 0 10000 None)) = None
  /\ is_Some (Status.stats
                (Status.rotationTick
                   (Status.constructor (StatusOptions.mk 0 10000 None))))
  /\ is_Some (Status.stats
                (Status.constructor (StatusOptions.mk 10 (-1) None))).
Proof.
  destruct (configuration_is_not_validated
              (StatusOptions.mk 0 10000 None) Options.defaults)
    as (_ & _ & H0 & _).
  destruct (configuration_is_not_validated
              (StatusOptions.mk 10 (-1) None) Options.defaults)
    as (_ & _ & _ & H1 & _).
  destruct H0 as (_ & Hnone & _ & _ & _ & Htick); [simpl; lia|].
  destruct (Htick []) as (s' & Hs' & Hstats & _).
  destruct (H1 ltac:(simpl; lia) []) as (s1 & Hs1 & Hstats1 & _).
  injection Hs' as <-. injection Hs1 as <-.
  split; [exact Hnone|]. split; [exact Hstats|exact Hstats1].
Defined.

(** *** Sequences of reports *)

Section ReportFacts.

Implicit Types (w : CB.t) (r : CB.Report) (rs : list CB.Report).

Lemma rotation_spec w :
  Status.buckets (CB.status w) <> [] ->
  Status.buckets (CB.status (CB.rotation w)) <> []
  /\ CB.state (CB.rotation w) = CB.state w
  /\ CB.warmUp (CB.rotation w) = CB.warmUp w
  /\ CB.options (CB.rotation w) = CB.options w.
Proof.
  intros Hne. split; [|done]. simpl.
  eapply buckets_nonempty_length_status; [exact Hne|].
  by apply rotationTick_length.
Qed.

(** A report other than a rotation adds its tally to the window. *)
Lemma report_recorded r w :
  Status.buckets (CB.status w) <> [] ->
  is_rotation r = false ->
  exists w', CB.report r w = Some w'
             /\ recorded (fun p => tally1 p r) w w'.
Proof.
  intros Hne Hr. destruct r; simpl in *; try done.
  - destruct (countInvocation_spec w Hne) as (w' & H & _ & Hrec).
    exists w'. split; [done|]. eapply recorded_ext; [|exact Hrec].
    by intros [].
  - destruct (success_spec w Hne) as (w' & H & _ & Hrec).
    exists w'. split; [done|]. eapply recorded_ext; [|exact Hrec].
    by intros [].
  - destruct (fail_spec w Hne) as (w' & H & Hrec & _).
    exists w'. split; [done|]. eapply recorded_ext; [|exact Hrec].
    by intros [].
  - destruct (onTimeout_spec 0 latency w Hne) as (w' & H & Hrec & _).
    exists w'. split; [done|]. eapply recorded_ext; [|exact Hrec].
    by intros [].
Qed.

Lemma reports_recorded rs w :
  Status.buckets (CB.status w) <> [] ->
  Forall (fun r => is_rotation r = false) rs ->
  exists w', CB.reports rs w = Some w'
             /\ recorded (fun p => tally p rs) w w'.
Proof.
  revert w. induction rs as [|r rs IH]; intros w Hne Hall; simpl.
  - exists w. split; [done|]. apply recorded_refl.
  - inversion Hall as [|? ? Hr Hrs]; subst.
    destruct (report_recorded r w Hne Hr) as (w1 & -> & Hrec1). simpl.
    destruct (IH w1) as (w' & H' & Hrec'); [|done|].
    { by eapply recorded_nonempty. }
    exists w'. split; [done|].
    eapply recorded_ext; [|eapply recorded_trans; eauto].
    intros p. unfold tally. by csimpl.
Qed.

(** While the circuit is closed, a report leaves it closed if warm-up is
    active or the invocation count is below the volume threshold. *)
Lemma report_stays_closed r w :
  Status.buckets (CB.status w) <> [] ->
  CB.state w = State.closed ->
  CB.warmUp w = true \/ below_volume w ->
  exists w', CB.report r w = Some w'
             /\ Status.buckets (CB.status w') <> []
             /\ CB.state w' = State.closed
             /\ CB.warmUp w' = CB.warmUp w
             /\ CB.options w' = CB.options w.
Proof.
  intros Hne Hst Hguard.
  assert (Hquiet :
    (if CB.warmUp w then CB.state w
     else if trips (CB.options w) (CB.state w)
                   (S (window_total Failures (CB.status w)))
                   (window_total Fires (CB.status w))
          then State.open else CB.state w) = State.closed).
  { destruct (CB.warmUp w) eqn:Hw; [done|].
    destruct Hguard as [?|(n & Hn & Hlt)]; [done|].
    rewrite snapshot_total in Hn by done. injection Hn as <-.
    unfold trips. rewrite Hst. simpl.
    destruct (Z.ltb_spec (Z.of_nat (window_total Fires (CB.status w)))
                         (Options.volumeThreshold (CB.options w)));
      [done|lia]. }
  destruct r; simpl.
  - destruct (countInvocation_spec w Hne) as (w' & H & Hs & Hrec).
    exists w'. split; [done|]. split; [by eapply recorded_nonempty|].
    split; [congruence|]. by destruct Hrec.
  - destruct (success_spec w Hne) as (w' & H & Hs & Hrec).
    exists w'. split; [done|]. split; [by eapply recorded_nonempty|].
    rewrite Hst in Hs. by destruct Hrec.
  - destruct (fail_spec w Hne) as (w' & H & Hrec & Hs).
    exists w'. split; [done|]. split; [by eapply recorded_nonempty|].
    split; [congruence|]. by destruct Hrec.
  - destruct (onTimeout_spec 0 latency w Hne) as (w' & H & Hrec & Hs).
    exists w'. split; [done|]. split; [by eapply recorded_nonempty|].
    split; [congruence|]. by destruct Hrec.
  - destruct (rotation_spec w Hne) as (? & ? & ? & ?).
    eexists. split; [done|]. repeat split; congruence.
Qed.

Lemma trajectory_stays_closed rs w :
  Status.buckets (CB.status w) <> [] ->
  CB.state w = State.closed ->
  Forall (fun w' => CB.warmUp w' = true \/ below_volume w')
         (trajectory rs w) ->
  length (trajectory rs w) = S (length rs)
  /\ Forall (fun w' => CB.state w' = State.closed) (trajectory rs w).
Proof.
  revert w.
  induction rs as [|r rs IH]; intros w Hne Hst Hall; simpl in *.
  - split; [done|]. by repeat constructor.
  - inversion Hall as [|? ? Hw Hrest]; subst.
    destruct (report_stays_closed r w Hne Hst Hw)
      as (w' & Hr & Hne' & Hst' & _).
    rewrite Hr in *.
    destruct (IH w' Hne' Hst' Hrest) as [Hlen Hcl].
    split; [by rewrite Hlen|]. by constructor.
Qed.

Lemma trajectory_warm_up rs w :
  Status.buckets (CB.status w) <> [] ->
  CB.state w = State.closed ->
  CB.warmUp w = true ->
  length (trajectory rs w) = S (length rs)
  /\ Forall (fun w' => CB.state w' = State.closed /\ CB.warmUp w' = true)
            (trajectory rs w).
Proof.
  revert w.
  induction rs as [|r rs IH]; intros w Hne Hst Hw; simpl in *.
  - split; [done|]. by repeat constructor.
  - destruct (report_stays_closed r w Hne Hst (or_introl Hw))
      as (w' & Hr & Hne' & Hst' & Hw' & _).
    rewrite Hr. rewrite Hw in Hw'.
    destruct (IH w' Hne' Hst' Hw') as [Hlen Hcl].
    split; [by rewrite Hlen|]. by constructor.
Qed.

(** The reports read and write the window, the options, the state and
    the warm-up flag, and nothing else. *)
Lemma report_core r w1 w2 :
  core w1 = core w2 ->
  match CB.report r w1, CB.report r w2 with
  | Some w1', Some w2' => core w1' = core w2'
  | None, None => True
  | _, _ => False
  end.
Proof.
  destruct w1 as [s1 o1 wt1 st1 wu1 rt1 ts1 l1],
           w2 as [s2 o2 wt2 st2 wu2 rt2 ts2 l2].
  unfold core. simpl. intros [= -> -> -> ->].
  destruct r; simpl;
    unfold CB.countInvocation, CB.success, CB.fail, CB.onTimeout, CB.fail,
           CB.close, CB.open; simpl.
  - by destruct (Status.increment _ _ _).
  - destruct (Status.increment _ _ _) as [s|]; simpl; [|done].
    destruct (State.eqb st2 State.half_open); simpl; [|done].
    destruct (negb _); simpl; [|done].
    by destruct (Status.close s).
  - destruct (Status.increment _ _ _) as [s|]; simpl; [|done].
    destruct wu2; [done|].
    destruct (Status.stats s); simpl; [|done].
    destruct (_ && _); [done|].
    destruct (_ || _); [|done].
    destruct (negb _); simpl; [|done].
    by destruct (Status.open s).
  - destruct (Status.increment Timeouts _ _) as [s'|]; simpl; [|done].
    destruct (Status.increment _ _ _) as [s|]; simpl; [|done].
    destruct wu2; [done|].
    destruct (Status.stats s); simpl; [|done].
    destruct (_ && _); [done|].
    destruct (_ || _); [|done].
    destruct (negb _); simpl; [|done].
    by destruct (Status.open s).
  - done.
Qed.

Lemma reports_core rs w1 w2 w1' :
  core w1 = core w2 ->
  CB.reports rs w1 = Some w1' ->
  exists w2', CB.reports rs w2 = Some w2' /\ core w1' = core w2'.
Proof.
  revert w1 w2. induction rs as [|r rs IH]; intros w1 w2 Hc; simpl.
  - intros [= <-]. eauto.
  - pose proof (report_core r w1 w2 Hc) as H.
    destruct (CB.report r w1) as [a|], (CB.report r w2) as [b|];
      simpl; try done.
    by apply IH.
Qed.

(** *** A run of failures at a rate of 100 percent *)

(** Rounding does not look at the way a rational is written. *)
Lemma nearest_proper (p q : Q) :
  (p == q)%Q -> Binary64.nearest p = Binary64.nearest q.
Proof.
  intros E. unfold Binary64.nearest. by rewrite (Qred_complete p q E).
Qed.

(** A quotient of a count by itself is the double 1, and 1 times 100 is
    the double 100. *)
Lemma full_rate (m : nat) : rate (S m) (S m) = Finite 100.
Proof.
  unfold rate, Binary64.mul, Binary64.div. f_equal.
  set (x := inject_Z (Z.of_nat (S m))).
  assert (Hx : ~ (x == 0)%Q).
  { unfold x. intros E. unfold Qeq in E. simpl in E. lia. }
  assert (E : (x / x == 1)%Q).
  { unfold Qdiv. by rewrite Qmult_inv_r. }
  rewrite (nearest_proper _ _ E).
  by vm_compute.
Qed.

Lemma full_rate_exceeds (m : nat) (threshold : Q) :
  (threshold < 100)%Q ->
  number_gt (rate (S m) (S m)) threshold = true.
Proof.
  intros Hlt. rewrite full_rate. unfold number_gt.
  apply negb_true_iff. apply not_true_is_false.
  intros H%Qle_bool_iff.
  apply (Qlt_irrefl 100). eapply Qle_lt_trans; eassumption.
Qed.

Lemma full_rate_within (m : nat) (threshold : Q) :
  (100 <= threshold)%Q ->
  number_gt (rate (S m) (S m)) threshold = false.
Proof.
  intros Hle. rewrite full_rate. unfold number_gt.
  apply negb_false_iff. by apply Qle_bool_iff.
Qed.

Lemma failed_invocations_S n :
  failed_invocations (S n)
  = CB.Invoked :: CB.Failed :: failed_invocations n.
Proof. reflexivity. Qed.

Lemma failed_invocations_run n : forall w m,
  Status.buckets (CB.status w) <> [] ->
  CB.warmUp w = false ->
  (Options.errorThresholdPercentage (CB.options w) < 100)%Q ->
  window_total Failures (CB.status w) = m ->
  window_total Fires (CB.status w) = m ->
  CB.state w = State.closed \/ CB.state w = State.open ->
  exists w',
    CB.reports (failed_invocations n) w = Some w'
    /\ Status.buckets (CB.status w') <> []
    /\ window_total Failures (CB.status w') = m + n
    /\ window_total Fires (CB.status w') = m + n
    /\ CB.state w'
       = if State.eqb (CB.state w) State.open
            || ((1 <=? n) && (Options.volumeThreshold (CB.options w)
                              <=? Z.of_nat (m + n))%Z)
         then State.open else State.closed.
Proof.
  induction n as [|n IH]; intros w m Hne Hw Hthr HF HN Hst.
  - exists w. simpl. rewrite !Nat.add_0_r.
    repeat split; try done.
    destruct Hst as [->| ->]; reflexivity.
  - rewrite failed_invocations_S. simpl.
    destruct (countInvocation_spec w Hne) as (w1 & -> & Hs1 & Hr1). simpl.
    pose proof (recorded_nonempty _ _ _ Hr1 Hne) as Hne1.
    destruct (fail_spec w1 Hne1) as (w2 & -> & Hr2 & Hs2). simpl.
    pose proof (recorded_nonempty _ _ _ Hr2 Hne1) as Hne2.
    pose proof (rec_totals _ _ _ Hr1 Failures) as EF1.
    pose proof (rec_totals _ _ _ Hr1 Fires) as EN1.
    pose proof (rec_totals _ _ _ Hr2 Failures) as EF2.
    pose proof (rec_totals _ _ _ Hr2 Fires) as EN2.
    unfold one in *. simpl in *.
    rewrite (rec_warmUp _ _ _ Hr1), Hw in Hs2.
    rewrite (rec_options _ _ _ Hr1), Hs1 in Hs2.
    rewrite EF1, EN1, HF, HN, !Nat.add_0_r, Nat.add_1_r in Hs2.
    assert (Ho2 : CB.options w2 = CB.options w).
    { rewrite (rec_options _ _ _ Hr2). apply (rec_options _ _ _ Hr1). }
    assert (Hst2 : CB.state w2
                   = if State.eqb (CB.state w) State.open
                        || (Options.volumeThreshold (CB.options w)
                            <=? Z.of_nat (S m))%Z
                     then State.open else State.closed).
    { rewrite Hs2. unfold trips.
      rewrite (full_rate_exceeds m _ Hthr).
      destruct Hst as [E|E]; rewrite E; simpl.
      - destruct (Z.ltb_spec (Z.of_nat (S m))
                             (Options.volumeThreshold (CB.options w)));
          destruct (Z.leb_spec (Options.volumeThreshold (CB.options w))
                               (Z.of_nat (S m))); simpl; try done; lia.
      - by destruct (negb _ && _). }
    destruct (IH w2 (S m)) as (w' & Hrun & Hne' & HF' & HN' & Hst').
    { done. }
    { rewrite (rec_warmUp _ _ _ Hr2). by rewrite (rec_warmUp _ _ _ Hr1). }
    { by rewrite Ho2. }
    { lia. }
    { lia. }
    { rewrite Hst2. destruct (_ || _); auto. }
    exists w'. split; [done|]. split; [done|].
    split; [lia|]. split; [lia|].
    rewrite Hst', Hst2, Ho2.
    replace (S m + n) with (m + S n) by lia.
    destruct Hst as [E|E]; rewrite E; simpl; [|done].
    destruct (Z.leb_spec (Options.volumeThreshold (CB.options w))
                         (Z.of_nat (S m)));
      destruct (Z.leb_spec (Options.volumeThreshold (CB.options w))
                           (Z.of_nat (m + S n)));
      destruct n; simpl; try done; lia.
Qed.

(** Against an error threshold of 100 percent or more, failed
    invocations never open a circuit in which every invocation has
    failed: the rate is exactly 100. *)
Lemma failed_invocations_stay_closed n : forall w m,
  Status.buckets (CB.status w) <> [] ->
  CB.warmUp w = false ->
  (100 <= Options.errorThresholdPercentage (CB.options w))%Q ->
  window_total Failures (CB.status w) = m ->
  window_total Fires (CB.status w) = m ->
  CB.state w = State.closed ->
  exists w',
    CB.reports (failed_invocations n) w = Some w'
    /\ Status.buckets (CB.status w') <> []
    /\ window_total Failures (CB.status w') = m + n
    /\ window_total Fires (CB.status w') = m + n
    /\ CB.state w' = State.closed.
Proof.
  induction n as [|n IH]; intros w m Hne Hw Hthr HF HN Hst.
  - exists w. simpl. rewrite !Nat.add_0_r. by repeat split.
  - rewrite failed_invocations_S. simpl.
    destruct (countInvocation_spec w Hne) as (w1 & -> & Hs1 & Hr1). simpl.
    pose proof (recorded_nonempty _ _ _ Hr1 Hne) as Hne1.
    destruct (fail_spec w1 Hne1) as (w2 & -> & Hr2 & Hs2). simpl.
    pose proof (recorded_nonempty _ _ _ Hr2 Hne1) as Hne2.
    pose proof (rec_totals _ _ _ Hr1 Failures) as EF1.
    pose proof (rec_totals _ _ _ Hr1 Fires) as EN1.
    pose proof (rec_totals _ _ _ Hr2 Failures) as EF2.
    pose proof (rec_totals _ _ _ Hr2 Fires) as EN2.
    unfold one in *. simpl in *.
    rewrite (rec_warmUp _ _ _ Hr1), Hw in Hs2.
    rewrite (rec_options _ _ _ Hr1), Hs1 in Hs2.
    rewrite EF1, EN1, HF, HN, !Nat.add_0_r, Nat.add_1_r in Hs2.
    assert (Ho2 : CB.options w2 = CB.options w).
    { rewrite (rec_options _ _ _ Hr2). apply (rec_options _ _ _ Hr1). }
    assert (Hst2 : CB.state w2 = State.closed).
    { rewrite Hs2. unfold trips.
      rewrite (full_rate_within m _ Hthr), Hst. simpl.
      by rewrite andb_false_r. }
    destruct (IH w2 (S m)) as (w' & Hrun & Hne' & HF' & HN' & Hst').
    { done. }
    { rewrite (rec_warmUp _ _ _ Hr2). by rewrite (rec_warmUp _ _ _ Hr1). }
    { by rewrite Ho2. }
    { lia. }
    { lia. }
    { done. }
    exists w'. split; [done|]. split; [done|].
    split; [lia|]. split; [lia|done].
Qed.

End ReportFacts.

(** *** Sequences of events *)

Section EventFacts.

Implicit Types (w : CB.t) (e : CB.Event).

Lemma fail_stays_resting w :
  Status.buckets (CB.status w) <> [] ->
  resting (CB.state w) ->
  CB.warmUp w = true \/ below_volume w ->
  exists w', CB.fail w = Some w' /\ CB.state w' = CB.state w.
Proof.
  intros Hne Hrest Hguard.
  destruct (fail_spec w Hne) as (w' & H & _ & Hs).
  exists w'. split; [done|]. rewrite Hs.
  destruct (CB.warmUp w) eqn:Hw; [done|].
  destruct Hguard as [?|(n & Hn & Hlt)]; [done|].
  rewrite snapshot_total in Hn by done. injection Hn as <-.
  unfold trips.
  destruct (Z.ltb_spec (Z.of_nat (window_total Fires (CB.status w)))
                       (Options.volumeThreshold (CB.options w))); [|lia].
  by destruct Hrest as [-> | ->].
Qed.

(** While the circuit is neither open nor half-open, no event but an
    explicit [open] moves it there, if warm-up is active or the invocation
    count is below the volume threshold. *)
Lemma step_stays_resting e w :
  invariant w ->
  resting (CB.state w) ->
  is_open_call e = false ->
  CB.warmUp w = true \/ below_volume w ->
  exists w', CB.step e w = Some w'
             /\ invariant w'
             /\ resting (CB.state w').
Proof.
  intros Hi Hrest Hcall Hguard.
  destruct (step_is_Some e w Hi) as [w' Hstep].
  exists w'. split; [done|]. split; [by eapply invariant_step|].
  pose proof (inv_buckets _ Hi) as Hne.
  assert (Hnh : State.eqb (CB.state w) State.half_open = false).
  { by destruct Hrest as [-> | ->]. }
  assert (Hno : State.eqb (CB.state w) State.open = false).
  { by destruct Hrest as [-> | ->]. }
  destruct e; simpl in Hstep; try done.
  - (* a request *)
    unfold CB.middleware in Hstep.
    destruct (negb _); [by injection Hstep as <-|].
    destruct (countInvocation_spec w Hne) as (w1 & E1 & Hs1 & _).
    rewrite E1 in Hstep. simpl in Hstep. rewrite Hs1, Hno in Hstep.
    simpl in Hstep.
    destruct (Options.timeout (CB.options w1)); simpl in Hstep;
      injection Hstep as <-; simpl; by rewrite Hs1.
  - (* the response finished *)
    destruct (CB.listeners w !! listener) as [inv|];
      [|by injection Hstep as <-].
    unfold CB.onFinish in Hstep.
    set (w0 := CB.set_timers _ w) in Hstep.
    destruct (Options.isError _ _).
    + destruct (fail_stays_resting w0 Hne Hrest Hguard) as (w2 & E & Hs).
      rewrite E in Hstep. injection Hstep as <-. by rewrite Hs.
    + destruct (success_spec w0 Hne) as (w2 & E & Hs & _).
      rewrite E in Hstep. injection Hstep as <-. rewrite Hs. simpl.
      by rewrite Hnh.
  - (* the response was closed *)
    destruct (CB.listeners w !! listener) as [inv|];
      [|by injection Hstep as <-].
    unfold CB.onClose in Hstep.
    set (w0 := CB.set_timers _ w) in Hstep.
    destruct (fail_stays_resting w0 Hne Hrest Hguard) as (w2 & E & Hs).
    rewrite E in Hstep. injection Hstep as <-. by rewrite Hs.
  - (* a timer fires *)
    unfold CB.fireTimer in Hstep.
    destruct (Timers.callback_of id (CB.timers w)) as [c|] eqn:Hc;
      [|by injection Hstep as <-].
    destruct c as [| |startedAt].
    + destruct (inv_reset _ Hi id Hc) as [_ Hopen].
      rewrite Hopen in Hno. done.
    + by injection Hstep as <-.
    + set (w0 := CB.set_timers _ w) in Hstep.
      destruct (onTimeout_spec startedAt now w0 Hne) as (w2 & E & _ & Hs).
      rewrite E in Hstep. injection Hstep as <-. rewrite Hs. simpl.
      destruct (CB.warmUp w) eqn:Hw; [done|].
      destruct Hguard as [?|(n & Hn & Hlt)]; [done|].
      rewrite snapshot_total in Hn by done. injection Hn as <-.
      unfold trips.
      destruct (Z.ltb_spec (Z.of_nat (window_total Fires (CB.status w)))
                           (Options.volumeThreshold (CB.options w))); [|lia].
      rewrite Hnh. done.
  - (* the window rotates *)
    by injection Hstep as <-.
  - (* close() *)
    destruct (close_spec w Hne) as (w2 & E & Hs & _).
    rewrite E in Hstep. injection Hstep as <-. rewrite Hs. by left.
  - (* success() *)
    destruct (success_spec w Hne) as (w2 & E & Hs & _).
    rewrite E in Hstep. injection Hstep as <-. rewrite Hs. by rewrite Hnh.
  - (* shutdown() *)
    injection Hstep as <-. by right.
Qed.

Lemma visited_stay_resting events : forall w,
  invariant w ->
  resting (CB.state w) ->
  Forall (fun e => is_open_call e = false) events ->
  Forall (fun w' => CB.warmUp w' = true \/ below_volume w')
         (visited events w) ->
  length (visited events w) = S (length events)
  /\ Forall (fun w' => CB.state w' <> State.open
                       /\ CB.state w' <> State.half_open)
            (visited events w).
Proof.
  assert (Hrest_ne : forall st, resting st ->
             st <> State.open /\ st <> State.half_open).
  { by intros st [-> | ->]. }
  induction events as [|e events IH]; intros w Hi Hrest Hcalls Hall.
  - simpl. split; [done|]. constructor; [by apply Hrest_ne|constructor].
  - simpl in *.
    inversion Hcalls as [|? ? Hcall Hcalls']; subst.
    inversion Hall as [|? ? Hguard Hall']; subst.
    destruct (step_stays_resting e w Hi Hrest Hcall Hguard)
      as (w' & Hstep & Hi' & Hrest').
    rewrite Hstep in *.
    destruct (IH w' Hi' Hrest' Hcalls' Hall') as [Hlen Hst].
    split; [by rewrite Hlen|]. constructor; [by apply Hrest_ne|done].
Qed.

(** While the circuit is closed, no event but an explicit [open] or
    [shutdown] moves it, if warm-up is active or the invocation count is
    below the volume threshold. *)
Lemma step_stays_closed e w :
  invariant w ->
  CB.state w = State.closed ->
  is_open_call e = false ->
  is_shutdown_call e = false ->
  CB.warmUp w = true \/ below_volume w ->
  exists w', CB.step e w = Some w'
             /\ invariant w'
             /\ CB.state w' = State.closed.
Proof.
  intros Hi Hst Hcall Hshut Hguard.
  assert (Hrest : resting (CB.state w)) by (by left).
  destruct (step_is_Some e w Hi) as [w' Hstep].
  exists w'. split; [done|]. split; [by eapply invariant_step|].
  pose proof (inv_buckets _ Hi) as Hne.
  destruct e; simpl in Hstep; try done.
  - (* a request *)
    unfold CB.middleware in Hstep.
    destruct (negb _); [by injection Hstep as <-|].
    destruct (countInvocation_spec w Hne) as (w1 & E1 & Hs1 & _).
    rewrite E1 in Hstep. simpl in Hstep. rewrite Hs1, Hst in Hstep.
    simpl in Hstep.
    destruct (Options.timeout (CB.options w1)); simpl in Hstep;
      injection Hstep as <-; simpl; by rewrite Hs1.
  - (* the response finished *)
    destruct (CB.listeners w !! listener) as [inv|];
      [|by injection Hstep as <-].
    unfold CB.onFinish in Hstep.
    set (w0 := CB.set_timers _ w) in Hstep.
    destruct (Options.isError _ _).
    + destruct (fail_stays_resting w0 Hne Hrest Hguard) as (w2 & E & Hs).
      rewrite E in Hstep. injection Hstep as <-. by rewrite Hs.
    + destruct (success_spec w0 Hne) as (w2 & E & Hs & _).
      rewrite E in Hstep. injection Hstep as <-. rewrite Hs. simpl.
      by rewrite Hst.
  - (* the response was closed *)
    destruct (CB.listeners w !! listener) as [inv|];
      [|by injection Hstep as <-].
    unfold CB.onClose in Hstep.
    set (w0 := CB.set_timers _ w) in Hstep.
    destruct (fail_stays_resting w0 Hne Hrest Hguard) as (w2 & E & Hs).
    rewrite E in Hstep. injection Hstep as <-. by rewrite Hs.
  - (* a timer fires *)
    unfold CB.fireTimer in Hstep.
    destruct (Timers.callback_of id (CB.timers w)) as [c|] eqn:Hc;
      [|by injection Hstep as <-].
    destruct c as [| |startedAt].
    + destruct (inv_reset _ Hi id Hc) as [_ Hopen]. congruence.
    + by injection Hstep as <-.
    + set (w0 := CB.set_timers _ w) in Hstep.
      destruct (onTimeout_spec startedAt now w0 Hne) as (w2 & E & _ & Hs).
      rewrite E in Hstep. injection Hstep as <-. rewrite Hs. simpl.
      destruct (CB.warmUp w) eqn:Hw; [done|].
      destruct Hguard as [?|(n & Hn & Hlt)]; [done|].
      rewrite snapshot_total in Hn by done. injection Hn as <-.
      unfold trips.
      destruct (Z.ltb_spec (Z.of_nat (window_total Fires (CB.status w)))
                           (Options.volumeThreshold (CB.options w))); [|lia].
      by rewrite Hst.
  - (* the window rotates *)
    by injection Hstep as <-.
  - (* close() *)
    destruct (close_spec w Hne) as (w2 & E & Hs & _).
    rewrite E in Hstep. injection Hstep as <-. by rewrite Hs.
  - (* success() *)
    destruct (success_spec w Hne) as (w2 & E & Hs & _).
    rewrite E in Hstep. injection Hstep as <-. rewrite Hs. by rewrite Hst.
Qed.

Lemma visited_stay_closed events : forall w,
  invariant w ->
  CB.state w = State.closed ->
  Forall (fun e => is_open_call e = false /\ is_shutdown_call e = false)
         events ->
  Forall (fun w' => CB.warmUp w' = true \/ below_volume w')
         (visited events w) ->
  length (visited events w) = S (length events)
  /\ Forall (fun w' => CB.state w' = State.closed) (visited events w).
Proof.
  induction events as [|e events IH]; intros w Hi Hst Hcalls Hall.
  - simpl. split; [done|]. by repeat constructor.
  - simpl in *.
    inversion Hcalls as [|? ? [Hcall Hshut] Hcalls']; subst.
    inversion Hall as [|? ? Hguard Hall']; subst.
    destruct (step_stays_closed e w Hi Hst Hcall Hshut Hguard)
      as (w' & Hstep & Hi' & Hst').
    rewrite Hstep in *.
    destruct (IH w' Hi' Hst' Hcalls' Hall') as [Hlen Hcl].
    split; [by rewrite Hlen|]. by constructor.
Qed.

End EventFacts.

(** C4.  From the closed state with warm-up over: whatever is reported, in
    whatever order, the circuit stays closed as long as the invocation count
    of the window stays strictly below the volume threshold; the same holds
    of every sequence of events of the middleware (requests, completions,
    aborted responses, timers, rotations, [close], [success]) without an
    explicit [open] or [shutdown], and with [shutdown] allowed the circuit
    still never becomes open or half-open.  When every invocation of the
    window has failed, recording further failed invocations opens the
    circuit as soon as the invocation count is at least the volume
    threshold, if the error threshold is below 100 percent (the rate has to
    exceed it); so it is open when failures have been recorded until the
    count reaches [volumeThreshold + 1].  If the error threshold is 100
    percent or more, the failed invocations leave the circuit closed,
    however many they are.  Whenever the continuation of [fail] runs, it
    does nothing if it finds the invocation count below the volume
    threshold and a state other than half-open. *)
Theorem volume_threshold_guard (w : CB.t) :
  Status.buckets (CB.status w) <> [] ->
  CB.state w = State.closed ->
  CB.warmUp w = false ->
  (forall rs,
     Forall below_volume (trajectory rs w) ->
     length (trajectory rs w) = S (length rs)
     /\ Forall (fun w' => CB.state w' = State.closed) (trajectory rs w))
  /\ (invariant w ->
      forall events,
        Forall (fun e => is_open_call e = false
                         /\ is_shutdown_call e = false) events ->
        Forall below_volume (visited events w) ->
        length (visited events w) = S (length events)
        /\ Forall (fun w' => CB.state w' = State.closed) (visited events w))
  /\ (invariant w ->
      forall events,
        Forall (fun e => is_open_call e = false) events ->
        Forall below_volume (visited events w) ->
        length (visited events w) = S (length events)
        /\ Forall (fun w' => CB.state w' <> State.open
                             /\ CB.state w' <> State.half_open)
                  (visited events w))
  /\ (forall m n,
        (Options.errorThresholdPercentage (CB.options w) < 100)%Q ->
        CB.snapshot Fires w = Some m ->
        CB.snapshot Failures w = Some m ->
        exists w',
          CB.reports (failed_invocations n) w = Some w'
          /\ CB.snapshot Fires w' = Some (m + n)
          /\ CB.snapshot Failures w' = Some (m + n)
          /\ CB.state w'
             = (if (1 <=? n)
                   && (Options.volumeThreshold (CB.options w)
                       <=? Z.of_nat (m + n))%Z
                then State.open else State.closed)
          /\ (1 <= n ->
              Z.of_nat (m + n)
              = (Options.volumeThreshold (CB.options w) + 1)%Z ->
              CB.state w' = State.open))
  /\ (forall m n,
        (100 <= Options.errorThresholdPercentage (CB.options w))%Q ->
        CB.snapshot Fires w = Some m ->
        CB.snapshot Failures w = Some m ->
        exists w',
          CB.reports (failed_invocations n) w = Some w'
          /\ CB.snapshot Fires w' = Some (m + n)
          /\ CB.snapshot Failures w' = Some (m + n)
          /\ CB.state w' = State.closed)
  /\ (forall w1,
        Status.buckets (CB.status w1) <> [] ->
        CB.state w1 <> State.half_open ->
        below_volume w1 ->
        CB.fail_resume w1 = Some w1).
Proof.
  intros Hne Hst Hw. split; [|split; [|split; [|split; [|split]]]].
  - intros rs Hall. apply trajectory_stays_closed; try done.
    eapply Forall_impl; [exact Hall|]. auto.
  - intros Hi events Hcalls Hall.
    apply visited_stay_closed; try done.
    eapply Forall_impl; [exact Hall|]. auto.
  - intros Hi events Hcalls Hall.
    apply visited_stay_resting; try done; [by left|].
    eapply Forall_impl; [exact Hall|]. auto.
  - intros m n Hthr HN HF.
    rewrite snapshot_total in HN, HF by done.
    injection HN as HN. injection HF as HF.
    destruct (failed_invocations_run n w m Hne Hw Hthr HF HN (or_introl Hst))
      as (w' & Hrun & Hne' & HF' & HN' & Hst').
    exists w'. split; [done|].
    rewrite !snapshot_total by done. rewrite HF', HN'.
    split; [done|]. split; [done|].
    rewrite Hst, orb_false_l in Hst'.
    split; [exact Hst'|].
    intros Hn HV. rewrite Hst'.
    destruct (Nat.leb_spec 1 n); [|lia]. simpl.
    destruct (Z.leb_spec (Options.volumeThreshold (CB.options w))
                         (Z.of_nat (m + n))); [done|lia].
  - intros m n Hthr HN HF.
    rewrite snapshot_total in HN, HF by done.
    injection HN as HN. injection HF as HF.
    destruct (failed_invocations_stay_closed n w m Hne Hw Hthr HF HN Hst)
      as (w' & Hrun & Hne' & HF' & HN' & Hst').
    exists w'. split; [done|].
    rewrite !snapshot_total by done. by rewrite HF', HN'.
  - intros w1 Hne1 Hst1 (n & Hn & Hlt).
    rewrite snapshot_total in Hn by done. injection Hn as <-.
    unfold CB.fail_resume.
    destruct (CB.warmUp w1); [done|].
    destruct (stats_of_totals (CB.status w1) Hne1) as (st & -> & _ & HN & _).
    simpl. rewrite HN.
    destruct (Z.ltb_spec (Z.of_nat (window_total Fires (CB.status w1)))
                         (Options.volumeThreshold (CB.options w1))); [|lia].
    by destruct (CB.state w1).
Qed.

(** With an error threshold of 100 percent a failure rate of 100 percent
    does not exceed it: four invocations, all failed, with a volume
    threshold of 3 leave the circuit closed, where a threshold of 50 percent
    opens it.  A failure that is reported when the window holds no
    invocation has an infinite rate: with a volume threshold of 0 it opens
    the circuit even against a threshold of 100 percent. *)
Lemma full_failure_rate_does_not_open :
  after_reports (with_thresholds 3 100 Options.defaults)
                (failed_invocations 4)
  = Some (State.closed, Some 4, Some 4)
  /\ state_after (with_thresholds 3 100 Options.defaults)
       [CB.Request 0; CB.Finish 0 500 1; CB.Request 2; CB.Finish 1 500 3;
        CB.Request 4; CB.Finish 2 500 5; CB.Request 6; CB.Finish 3 500 7]
     = Some State.closed
  /\ after_reports (with_thresholds 3 50 Options.defaults)
                   (failed_invocations 4)
     = Some (State.open, Some 4, Some 4)
  /\ after_reports (with_thresholds 0 100 Options.defaults) [CB.Failed]
     = Some (State.open, Some 0, Some 1).
Proof. repeat split; vm_compute; reflexivity. Qed.

Lemma volume_threshold_guard_witness :
  exists w w',
    CB.constructor (with_thresholds 3 50 Options.defaults) = Some w
    /\ CB.reports (failed_invocations 4) w = Some w'
    /\ CB.state w' = State.open.
Proof.
  destruct (CB.constructor (with_thresholds 3 50 Options.defaults))
    as [w|] eqn:E; [|vm_compute in E; discriminate].
  assert (Hne : Status.buckets (CB.status w) <> []).
  { apply inv_buckets. by eapply invariant_constructor. }
  assert (Hst : CB.state w = State.closed).
  { vm_compute in E. by injection E as <-. }
  assert (Hw : CB.warmUp w = false).
  { vm_compute in E. by injection E as <-. }
  destruct (volume_threshold_guard w Hne Hst Hw) as (_ & _ & _ & H & _).
  destruct (H 0 4) as (w' & Hrun & _ & _ & _ & Hopen).
  - vm_compute in E. injection E as <-. reflexivity.
  - vm_compute in E. injection E as <-. vm_compute. reflexivity.
  - vm_compute in E. injection E as <-. vm_compute. reflexivity.
  - exists w, w'. split; [reflexivity|]. split; [assumption|].
    apply Hopen; [lia|].
    vm_compute in E. injection E as <-. reflexivity.
Defined.

(** The same four requests, each answered with status 500, against an
    error threshold of 50 percent: the third one opens the circuit and the
    fourth is rejected. *)
Lemma failing_requests_open :
  state_after (with_thresholds 3 50 Options.defaults)
    [CB.Request 0; CB.Finish 0 500 1; CB.Request 2; CB.Finish 1 500 3]
  = Some State.closed
  /\ state_after (with_thresholds 3 50 Options.defaults)
       [CB.Request 0; CB.Finish 0 500 1; CB.Request 2; CB.Finish 1 500 3;
        CB.Request 4; CB.Finish 2 500 5]
     = Some State.open
  /\ counters_after (with_thresholds 3 50 Options.defaults)
       [CB.Request 0; CB.Finish 0 500 1; CB.Request 2; CB.Finish 1 500 3;
        CB.Request 4; CB.Finish 2 500 5; CB.Request 6]
     = Some (3, 0, 4, 0).
Proof. repeat split; vm_compute; reflexivity. Qed.

(** Twenty requests in flight against a volume threshold of 20 and an
    error threshold of 55 percent; nine responses finish well and the others
    fail.  After the tenth failure the rate is 50 percent and the circuit is
    closed.  After the eleventh the quotient 11/20 is rounded to a double
    and its product with 100 to the double above 55: the circuit opens. *)
Lemma rounded_rate_opens :
  let o := with_thresholds 20 55 Options.defaults in
  let requests := replicate 20 (CB.Request 0) in
  let successes := (fun k => CB.Finish k 200 1) <$> seq 0 9 in
  let failures n := (fun k => CB.Finish k 500 1) <$> seq 9 n in
  rate 11 20 = Finite (7740561859543041 # 140737488355328)
  /\ number_gt (rate 11 20) 55 = true
  /\ state_after o (requests ++ successes ++ failures 10)
     = Some State.closed
  /\ state_after o (requests ++ successes ++ failures 11)
     = Some State.open.
Proof. repeat split; vm_compute; reflexivity. Qed.

(** C7.  While the warm-up flag is set, no sequence of reports moves the
    circuit from closed to open, and neither does any sequence of events of
    the middleware without an explicit [open].  Once the warm-up timer has
    fired, the
    breaker answers every sequence of reports as the same breaker without
    warm-up does, so a pattern of failures that passes the volume and
    error-rate guards opens it; in particular, failed invocations that bring
    the window to the volume threshold at a rate of 100 percent do. *)
Theorem warm_up_absorbs_failures (w : CB.t) (id : nat) (now : Z) :
  Status.buckets (CB.status w) <> [] ->
  CB.state w = State.closed ->
  CB.warmUp w = true ->
  Timers.callback_of id (CB.timers w) = Some WarmUpCallback ->
  (forall rs,
     length (trajectory rs w) = S (length rs)
     /\ Forall (fun w' => CB.state w' = State.closed /\ CB.warmUp w' = true)
               (trajectory rs w))
  /\ (invariant w ->
      forall events,
        Forall (fun e => is_open_call e = false) events ->
        Forall (fun w' => CB.warmUp w' = true) (visited events w) ->
        length (visited events w) = S (length events)
        /\ Forall (fun w' => CB.state w' <> State.open) (visited events w))
  /\ exists w1,
       CB.fireTimer id now w = Some w1
       /\ CB.warmUp w1 = false
       /\ CB.state w1 = State.closed
       /\ CB.status w1 = CB.status w
       /\ (forall rs w2,
             CB.reports rs (CB.set_warmUp false w) = Some w2 ->
             exists w3, CB.reports rs w1 = Some w3
                        /\ CB.state w3 = CB.state w2
                        /\ CB.status w3 = CB.status w2)
       /\ (forall n,
             (Options.errorThresholdPercentage (CB.options w) < 100)%Q ->
             CB.snapshot Failures w = CB.snapshot Fires w ->
             1 <= n ->
             (Options.volumeThreshold (CB.options w)
              <= Z.of_nat (window_total Fires (CB.status w) + n))%Z ->
             exists w3, CB.reports (failed_invocations n) w1 = Some w3
                        /\ CB.state w3 = State.open).
Proof.
  intros Hne Hst Hw Hc. split; [|split].
  - intros rs. by apply trajectory_warm_up.
  - intros Hi events Hcalls Hall.
    destruct (visited_stay_resting events w Hi (or_introl Hst) Hcalls)
      as [Hlen Hrest].
    { eapply Forall_impl; [exact Hall|]. auto. }
    split; [done|]. eapply Forall_impl; [exact Hrest|]. by intros ? [? _].
  - unfold CB.fireTimer. rewrite Hc. eexists. split; [reflexivity|].
    split; [done|]. split; [done|]. split; [done|]. split.
    + intros rs w2 H2.
      destruct (reports_core rs (CB.set_warmUp false w)
                  (CB.set_warmUp false
                     (CB.set_timers (Timers.clearTimeout id (CB.timers w)) w))
                  w2 eq_refl H2) as (w3 & H3 & Hcore).
      exists w3. split; [done|]. unfold core in Hcore.
      injection Hcore as -> _ -> _. done.
    + intros n Hthr Hrate Hn HV.
      rewrite !snapshot_total in Hrate by done. injection Hrate as Hrate.
      set (w1 := CB.set_warmUp false
                   (CB.set_timers (Timers.clearTimeout id (CB.timers w)) w)).
      destruct (failed_invocations_run n w1
                  (window_total Fires (CB.status w)))
        as (w3 & Hrun & _ & _ & _ & Hst3); try done.
      { by left. }
      exists w3. split; [done|]. rewrite Hst3. simpl. rewrite Hst. simpl.
      destruct n as [|n]; [lia|]. simpl.
      destruct (Z.leb_spec (Options.volumeThreshold (CB.options w))
                           (Z.of_nat (window_total Fires (CB.status w) + S n)));
        [done|lia].
Qed.

Lemma warm_up_absorbs_failures_witness :
  let o := with_thresholds 3 50 (with_warmUp 30000 Options.defaults) in
  exists w w1 w3,
    CB.constructor o = Some w
    /\ Forall (fun w' => CB.state w' = State.closed /\ CB.warmUp w' = true)
              (trajectory (failed_invocations 3) w)
    /\ CB.fireTimer 0 10000 w = Some w1
    /\ CB.reports (failed_invocations 3) w1 = Some w3
    /\ CB.state w3 = State.open.
Proof.
  intros o.
  destruct (CB.constructor o) as [w|] eqn:E; [|vm_compute in E; discriminate].
  assert (Hne : Status.buckets (CB.status w) <> []).
  { apply inv_buckets. by eapply invariant_constructor. }
  assert (Hst : CB.state w = State.closed).
  { vm_compute in E. by injection E as <-. }
  assert (Hw : CB.warmUp w = true).
  { vm_compute in E. by injection E as <-. }
  assert (Hc : Timers.callback_of 0 (CB.timers w) = Some WarmUpCallback).
  { vm_compute in E. by injection E as <-. }
  destruct (warm_up_absorbs_failures w 0 10000 Hne Hst Hw Hc)
    as (Hclosed & _ & w1 & Hfire & _ & _ & _ & _ & Hopen).
  destruct (Hopen 3) as (w3 & Hrun & Hst3).
  - vm_compute in E. injection E as <-. reflexivity.
  - vm_compute in E. injection E as <-. vm_compute. reflexivity.
  - lia.
  - vm_compute in E. injection E as <-. vm_compute. discriminate.
  - exists w, w1, w3. split; [reflexivity|].
    split; [apply Hclosed|]. repeat split; assumption.
Defined.


(** ** Objects: what a read of the snapshot touches *)

Section StoreFacts.

Implicit Types (h : gmap positive Store.object) (r : positive).

(** Lookups through a stack of writes, given the disequalities. *)
Ltac store_lookup :=
  repeat first
    [ rewrite lookup_insert_eq
    | rewrite lookup_insert_ne by congruence ];
  simpl.

Lemma alloc_spec o h r h' :
  Store.alloc o h = (r, h') ->
  h !! r = None /\ h' = <[r := o]> h /\ h ⊆ h'.
Proof.
  unfold Store.alloc. intros [= <- <-].
  assert (H : h !! fresh (dom h) = None).
  { apply not_elem_of_dom, is_fresh. }
  split; [done|]. split; [done|]. by apply insert_subseteq.
Qed.

Lemma same_shape_refl h : same_shape h h.
Proof.
  intros r. destruct (h !! r) as [[a|l|d]|]; eauto.
Qed.

Lemma same_shape_trans h1 h2 h3 :
  same_shape h1 h2 -> same_shape h2 h3 -> same_shape h1 h3.
Proof.
  intros H12 H23 r. specialize (H12 r). specialize (H23 r).
  destruct (h1 !! r) as [[a|l|d]|]; [| | |done].
  - destruct H12 as (a' & E & Hl & Hp). rewrite E in H23.
    destruct H23 as (a'' & E' & Hl' & Hp'). exists a''.
    split; [done|]. split; congruence.
  - destruct H12 as (l' & E). by rewrite E in H23.
  - destruct H12 as (d' & E). by rewrite E in H23.
Qed.

Lemma subseteq_same_shape h h' : h ⊆ h' -> same_shape h h'.
Proof.
  intros Hsub r. destruct (h !! r) as [[a|l|d]|] eqn:E; [| | |done].
  - exists a. split; [by eapply lookup_weaken|done].
  - exists l. by eapply lookup_weaken.
  - exists d. by eapply lookup_weaken.
Qed.

Lemma same_shape_put_bucket h r a a' :
  h !! r = Some (Store.OBucket a) ->
  Store.latencyTimes a' = Store.latencyTimes a ->
  Store.percentiles a' = Store.percentiles a ->
  same_shape h (Store.put r (Store.OBucket a') h).
Proof.
  intros E Hl Hp r'. unfold Store.put.
  destruct (decide (r' = r)) as [->|Hne].
  - rewrite E. exists a'. by rewrite lookup_insert_eq.
  - rewrite lookup_insert_ne by done.
    destruct (h !! r') as [[b|l|d]|]; eauto.
Qed.

Lemma same_shape_put_array h r l l' :
  h !! r = Some (Store.OArray l) ->
  same_shape h (Store.put r (Store.OArray l') h).
Proof.
  intros E r'. unfold Store.put.
  destruct (decide (r' = r)) as [->|Hne].
  - rewrite E. exists l'. by rewrite lookup_insert_eq.
  - rewrite lookup_insert_ne by done.
    destruct (h !! r') as [[b|k|d]|]; eauto.
Qed.

Lemma read_bucket_weaken h h' r v :
  h ⊆ h' -> Store.read_bucket h r = Some v -> Store.read_bucket h' r = Some v.
Proof.
  intros Hsub. unfold Store.read_bucket, Store.getBucket, Store.getArray,
    Store.getDict.
  destruct (h !! r) as [[a| |]|] eqn:Ea; simpl; try done.
  destruct (h !! Store.latencyTimes a) as [[|l|]|] eqn:El; simpl; try done.
  destruct (h !! Store.percentiles a) as [[| |d]|] eqn:Ed; simpl; try done.
  intros [= <-].
  rewrite (lookup_weaken _ _ _ _ Ea Hsub). simpl.
  rewrite (lookup_weaken _ _ _ _ El Hsub). simpl.
  by rewrite (lookup_weaken _ _ _ _ Ed Hsub).
Qed.

Lemma read_bucket_is_Some h r :
  is_Some (Store.read_bucket h r) <->
  exists a l d, h !! r = Some (Store.OBucket a)
                /\ h !! Store.latencyTimes a = Some (Store.OArray l)
                /\ h !! Store.percentiles a = Some (Store.ODict d).
Proof.
  unfold Store.read_bucket, Store.getBucket, Store.getArray, Store.getDict.
  split.
  - intros [v Hv].
    destruct (h !! r) as [[a| |]|] eqn:Ea; simpl in *; try done.
    destruct (h !! Store.latencyTimes a) as [[|l|]|] eqn:El; simpl in *;
      try done.
    destruct (h !! Store.percentiles a) as [[| |d]|] eqn:Ed; simpl in *;
      try done.
    eauto 10.
  - intros (a & l & d & -> & El & Ed). simpl. rewrite El. simpl.
    rewrite Ed. simpl. eauto.
Qed.

Lemma read_bucket_shape h h' r :
  same_shape h h' ->
  is_Some (Store.read_bucket h r) -> is_Some (Store.read_bucket h' r).
Proof.
  intros Hs. rewrite !read_bucket_is_Some.
  intros (a & l & d & Ea & El & Ed).
  pose proof (Hs r) as Hr. rewrite Ea in Hr.
  destruct Hr as (a' & Ea' & Hl & Hp).
  pose proof (Hs (Store.latencyTimes a)) as Hrl. rewrite El in Hrl.
  destruct Hrl as (l' & El').
  pose proof (Hs (Store.percentiles a)) as Hrd. rewrite Ed in Hrd.
  destruct Hrd as (d' & Ed').
  exists a', l', d'. rewrite Hl, Hp. done.
Qed.

Lemma readable_shape h h' s :
  same_shape h h' -> readable h s -> readable h' s.
Proof.
  intros Hs Hr. unfold readable. eapply Forall_impl; [exact Hr|].
  intros b. by apply read_bucket_shape.
Qed.

Lemma read_buckets_weaken h h' s :
  h ⊆ h' -> readable h s ->
  StatusObj.read_buckets h' s = StatusObj.read_buckets h s.
Proof.
  intros Hsub Hr. unfold StatusObj.read_buckets.
  apply Forall_mapM_ext. eapply Forall_impl; [exact Hr|].
  intros b [v Hv]. simpl.
  by rewrite Hv, (read_bucket_weaken _ _ _ _ Hsub Hv).
Qed.

Lemma read_buckets_is_Some h s :
  readable h s <-> is_Some (StatusObj.read_buckets h s).
Proof.
  unfold readable, StatusObj.read_buckets. by rewrite mapM_is_Some.
Qed.

(** *** The operations keep the window readable *)

Lemma createBucket_spec h b h' :
  StatusObj.createBucket h = (b, h') ->
  h ⊆ h'
  /\ h !! b = None
  /\ Store.read_bucket h' b = Some Status.createBucket
  /\ exists a,
       h' !! b = Some (Store.OBucket a)
       /\ h !! Store.latencyTimes a = None
       /\ h !! Store.percentiles a = None
       /\ Store.latencyMean a = None.
Proof.
  unfold StatusObj.createBucket.
  destruct (Store.alloc (Store.ODict []) h) as [d h1] eqn:E1.
  destruct (Store.alloc (Store.OArray []) h1) as [l h2] eqn:E2.
  intros E3.
  apply alloc_spec in E1 as (Hd & -> & Hs1).
  apply alloc_spec in E2 as (Hl & -> & Hs2).
  apply alloc_spec in E3 as (Hb & -> & Hs3).
  assert (Hdl : d <> l).
  { intros ->. by rewrite lookup_insert_eq in Hl. }
  assert (Hdb : d <> b).
  { intros ->. rewrite lookup_insert_ne in Hb; [|done].
    by rewrite lookup_insert_eq in Hb. }
  assert (Hlb : l <> b).
  { intros ->. by rewrite lookup_insert_eq in Hb. }
  split; [by repeat (etrans; [eassumption|])|].
  split.
  { rewrite !lookup_insert_ne in Hb by done. exact Hb. }
  split.
  { unfold Store.read_bucket, Store.getBucket, Store.getArray, Store.getDict.
    store_lookup. by store_lookup. }
  eexists. rewrite lookup_insert_eq. split; [reflexivity|]. simpl.
  split; [|done]. by rewrite lookup_insert_ne in Hl.
Qed.

Lemma createBuckets_S n h :
  StatusObj.createBuckets (S n) h
  = let '(b, h) := StatusObj.createBucket h in
    let '(bs, h) := StatusObj.createBuckets n h in
    (b :: bs, h).
Proof. reflexivity. Qed.

Lemma createBuckets_spec n h bs h' :
  StatusObj.createBuckets n h = (bs, h') ->
  h ⊆ h'
  /\ length bs = n
  /\ Forall (fun b => is_Some (Store.read_bucket h' b)) bs.
Proof.
  revert h bs h'. induction n as [|n IH]; intros h bs h'.
  - simpl. intros [= <- <-]. by repeat split.
  - rewrite createBuckets_S.
    destruct (StatusObj.createBucket h) as [b h1] eqn:E1.
    destruct (StatusObj.createBuckets n h1) as [bs' h2] eqn:E2.
    intros [= <- <-].
    apply createBucket_spec in E1 as (Hs1 & _ & Hr & _).
    apply IH in E2 as (Hs2 & Hlen & Hall).
    split; [by etrans|]. split; [by rewrite <- Hlen|].
    constructor; [|done].
    exists Status.createBucket. by eapply read_bucket_weaken.
Qed.

Lemma constructor_readable options h s h' :
  StatusObj.constructor options h = (s, h') ->
  readable h' s
  /\ length (StatusObj.buckets s)
     = Z.to_nat (StatusOptions.rollingCountBuckets options).
Proof.
  unfold StatusObj.constructor.
  destruct (StatusObj.createBuckets _ h) as [bs h1] eqn:E.
  intros [= <- <-].
  apply createBuckets_spec in E as (_ & Hlen & Hall). by split.
Qed.

Lemma modify_spec h r f a :
  h !! r = Some (Store.OBucket a) ->
  Store.modify r f h = Some (Store.put r (Store.OBucket (f a)) h).
Proof. intros E. unfold Store.modify, Store.getBucket. by rewrite E. Qed.

Lemma bump_refs property a :
  Store.latencyTimes (StatusObj.bump property a) = Store.latencyTimes a
  /\ Store.percentiles (StatusObj.bump property a) = Store.percentiles a.
Proof. by destruct property. Qed.

Lemma increment_readable property latency s h :
  readable h s -> StatusObj.buckets s <> [] ->
  exists h', StatusObj.increment property latency s h = Some h'
             /\ same_shape h h'.
Proof.
  intros Hr Hne. unfold StatusObj.increment.
  destruct (StatusObj.buckets s) as [|cur rest] eqn:Eb; [done|]. simpl.
  unfold readable in Hr. rewrite Eb in Hr.
  inversion Hr as [|? ? Hcur _]; subst.
  apply read_bucket_is_Some in Hcur as (a & l & d & Ea & El & Ed).
  rewrite (modify_spec _ _ _ _ Ea). simpl.
  destruct (bump_refs property a) as [Hl Hp].
  pose proof (same_shape_put_bucket h cur a (StatusObj.bump property a)
                Ea Hl Hp) as Hs1.
  destruct latency as [latency|]; [|eauto].
  assert (Hcl : cur <> Store.latencyTimes a).
  { intros E. rewrite <- E in El. congruence. }
  unfold Store.getBucket, Store.getArray, Store.put.
  rewrite lookup_insert_eq. simpl. rewrite Hl.
  rewrite lookup_insert_ne by done. rewrite El. simpl.
  eexists. split; [reflexivity|].
  eapply same_shape_trans; [exact Hs1|].
  eapply (same_shape_put_array _ _ l). unfold Store.put.
  by rewrite lookup_insert_ne.
Qed.

Lemma set_flag_readable f s h :
  readable h s -> StatusObj.buckets s <> [] ->
  exists h',
    (b ← head (StatusObj.buckets s);
     Store.modify b (Store.set_isCircuitBreakerOpen f) h) = Some h'
    /\ same_shape h h'.
Proof.
  intros Hr Hne.
  destruct (StatusObj.buckets s) as [|cur rest] eqn:Eb; [done|]. simpl.
  unfold readable in Hr. rewrite Eb in Hr.
  inversion Hr as [|? ? Hcur _]; subst.
  apply read_bucket_is_Some in Hcur as (a & l & d & Ea & El & Ed).
  rewrite (modify_spec _ _ _ _ Ea). eexists. split; [done|].
  by eapply same_shape_put_bucket.
Qed.

Lemma Forall_removelast {A} (P : A -> Prop) (l : list A) :
  Forall P l -> Forall P (removelast l).
Proof.
  induction 1 as [|x l Hx Hl IH]; simpl; [done|].
  destruct l; [done|]. by constructor.
Qed.

Lemma rotate_readable s h s' h' :
  StatusObj.rotate s h = (s', h') ->
  readable h s -> StatusObj.buckets s <> [] ->
  readable h' s'
  /\ length (StatusObj.buckets s') = length (StatusObj.buckets s).
Proof.
  unfold StatusObj.rotate.
  destruct (StatusObj.createBucket h) as [b h1] eqn:E.
  intros [= <- <-] Hr Hne.
  apply createBucket_spec in E as (Hsub & _ & Hb & _).
  split.
  - unfold readable. simpl. constructor; [eauto|].
    apply Forall_removelast.
    eapply (readable_shape h h1 s); [|done]. by apply subseteq_same_shape.
  - simpl. rewrite removelast_length.
    destruct (StatusObj.buckets s); [done|]. simpl. lia.
Qed.

Lemma exec_readable op s h :
  readable h s -> StatusObj.buckets s <> [] ->
  exists s' h', StatusObj.exec op (s, h) = Some (s', h')
                /\ readable h' s' /\ StatusObj.buckets s' <> [].
Proof.
  intros Hr Hne. destruct op; simpl.
  - destruct (increment_readable property latencyRunTime s h Hr Hne)
      as (h' & -> & Hs).
    simpl. exists s, h'. split; [done|]. split; [|done].
    by eapply readable_shape.
  - destruct (StatusObj.rotate s h) as [s' h'] eqn:E.
    destruct (rotate_readable _ _ _ _ E Hr Hne) as [Hr' Hlen].
    exists s', h'. split; [done|]. split; [done|].
    apply nonempty_length. rewrite Hlen. by apply nonempty_length.
  - unfold StatusObj.open.
    destruct (set_flag_readable true s h Hr Hne) as (h' & -> & Hs).
    simpl. exists s, h'. split; [done|]. split; [|done].
    by eapply readable_shape.
  - unfold StatusObj.close.
    destruct (set_flag_readable false s h Hr Hne) as (h' & -> & Hs).
    simpl. exists s, h'. split; [done|]. split; [|done].
    by eapply readable_shape.
Qed.

Lemma execs_readable ops s h :
  readable h s -> StatusObj.buckets s <> [] ->
  exists s' h', StatusObj.execs ops (s, h) = Some (s', h')
                /\ readable h' s' /\ StatusObj.buckets s' <> [].
Proof.
  revert s h. induction ops as [|op ops IH]; intros s h Hr Hne.
  - simpl. eauto.
  - change (StatusObj.execs (op :: ops) (s, h))
      with (sh ← StatusObj.exec op (s, h); StatusObj.execs ops sh).
    destruct (exec_readable op s h Hr Hne) as (s1 & h1 & -> & Hr1 & Hne1).
    simpl. by apply IH.
Qed.

End StoreFacts.

Section SnapshotInStore.

Implicit Types (h : gmap positive Store.object) (r acc : positive).

Ltac store_lookup :=
  repeat first
    [ rewrite lookup_insert_eq
    | rewrite lookup_insert_ne by congruence ];
  simpl.

Lemma lookup_weaken_None' h0 h r :
  h0 ⊆ h -> h !! r = None -> h0 !! r = None.
Proof.
  intros Hsub Hr. destruct (h0 !! r) as [o|] eqn:E; [|done].
  by rewrite (lookup_weaken _ _ _ _ E Hsub) in Hr.
Qed.

Lemma read_bucket_inv h r v :
  Store.read_bucket h r = Some v ->
  exists a,
    h !! r = Some (Store.OBucket a)
    /\ h !! Store.latencyTimes a = Some (Store.OArray (Bucket.latencyTimes v))
    /\ h !! Store.percentiles a = Some (Store.ODict (Bucket.percentiles v))
    /\ agrees a v (Store.latencyMean a).
Proof.
  unfold Store.read_bucket, Store.getBucket, Store.getArray, Store.getDict.
  destruct (h !! r) as [[a| |]|] eqn:Ea; simpl; try done.
  destruct (h !! Store.latencyTimes a) as [[|l|]|] eqn:El; simpl; try done.
  destruct (h !! Store.percentiles a) as [[| |d]|] eqn:Ed; simpl; try done.
  intros [= <-]. exists a. by repeat split.
Qed.

Lemma accumulator_read h0 h acc v m :
  accumulator h0 h acc v m -> Store.read_bucket h acc = Some v.
Proof.
  intros (_ & _ & a & Ea & _ & _ & El & Ed & Hf & Hs & Hn & Ht & Ho & _).
  unfold Store.read_bucket, Store.getBucket, Store.getArray, Store.getDict.
  rewrite Ea. simpl. rewrite El. simpl. rewrite Ed. simpl.
  rewrite Hf, Hs, Hn, Ht, Ho. by destruct v.
Qed.

Lemma accumulator_create h0 acc h :
  StatusObj.createBucket h0 = (acc, h) ->
  accumulator h0 h acc Status.createBucket None.
Proof.
  intros E. apply createBucket_spec in E
    as (Hsub & Hacc & Hread & a & Ea & Hl & Hp & Hm).
  apply read_bucket_inv in Hread as (a' & Ea' & El & Ed & Hag).
  rewrite Ea in Ea'. injection Ea' as <-.
  split; [done|]. split; [done|]. exists a.
  repeat (split; [done|]). destruct Hag as (? & ? & ? & ? & ? & _).
  by repeat split.
Qed.

(** An assignment to a scalar field of the accumulator. *)
Lemma accumulator_modify h0 h acc v m f v' m' :
  accumulator h0 h acc v m ->
  (forall a, agrees a v m ->
             Store.latencyTimes (f a) = Store.latencyTimes a
             /\ Store.percentiles (f a) = Store.percentiles a
             /\ agrees (f a) v' m') ->
  Bucket.latencyTimes v' = Bucket.latencyTimes v ->
  Bucket.percentiles v' = Bucket.percentiles v ->
  exists h', Store.modify acc f h = Some h' /\ accumulator h0 h' acc v' m'.
Proof.
  intros (Hsub & Hacc & a & Ea & Hl & Hp & El & Ed & Hag) Hf El' Ed'.
  destruct (Hf a Hag) as (Hfl & Hfp & Hag').
  rewrite (modify_spec _ _ _ _ Ea). eexists. split; [reflexivity|].
  assert (Hla : Store.latencyTimes a <> acc) by congruence.
  assert (Hpa : Store.percentiles a <> acc) by congruence.
  unfold Store.put.
  split; [by apply insert_subseteq_r|]. split; [done|].
  exists (f a). rewrite Hfl, Hfp, El', Ed'. store_lookup.
  by repeat (split; [done|]).
Qed.

Lemma accumulator_getBucket h0 h acc v m b bo :
  accumulator h0 h acc v m ->
  h0 !! b = Some (Store.OBucket bo) -> Store.getBucket b h = Some bo.
Proof.
  intros (Hsub & _) Hb. unfold Store.getBucket.
  by rewrite (lookup_weaken _ _ _ _ Hb Hsub).
Qed.

Lemma accumulator_getArray h0 h acc v m r l :
  accumulator h0 h acc v m ->
  h0 !! r = Some (Store.OArray l) -> Store.getArray r h = Some l.
Proof.
  intros (Hsub & _) Hb. unfold Store.getArray.
  by rewrite (lookup_weaken _ _ _ _ Hb Hsub).
Qed.

(** One step of the reducer. *)
Lemma accumulate_step h0 h acc v m b pb :
  accumulator h0 h acc v m ->
  Store.read_bucket h0 b = Some pb ->
  exists h', StatusObj.accumulate acc b h = Some h'
             /\ accumulator h0 h' acc (Status.accumulate v pb) m.
Proof.
  intros Hacc Hb.
  apply read_bucket_inv in Hb
    as (bo & Eb & Ebl & _ & (Hbf & Hbs & Hbn & Hbt & _)).
  unfold StatusObj.accumulate.
  (* acc.failures += bucket.failures *)
  rewrite (accumulator_getBucket _ _ _ _ _ _ _ Hacc Eb). simpl.
  destruct (accumulator_modify h0 h acc v m
              (Store.add_failures (Store.failures bo))
              (Bucket.mk (Bucket.failures v + Bucket.failures pb)
                         (Bucket.successes v) (Bucket.fires v)
                         (Bucket.timeouts v) (Bucket.percentiles v)
                         (Bucket.latencyTimes v)
                         (Bucket.isCircuitBreakerOpen v)) m Hacc)
    as (h1 & -> & Hacc1); try done.
  { intros a (? & ? & ? & ? & ? & ?). repeat split; simpl; congruence. }
  simpl.
  (* acc.successes += bucket.successes *)
  rewrite (accumulator_getBucket _ _ _ _ _ _ _ Hacc1 Eb). simpl.
  destruct (accumulator_modify h0 h1 acc _ m
              (Store.add_successes (Store.successes bo))
              (Bucket.mk (Bucket.failures v + Bucket.failures pb)
                         (Bucket.successes v + Bucket.successes pb)
                         (Bucket.fires v)
                         (Bucket.timeouts v) (Bucket.percentiles v)
                         (Bucket.latencyTimes v)
                         (Bucket.isCircuitBreakerOpen v)) m Hacc1)
    as (h2 & -> & Hacc2); try done.
  { intros a (? & ? & ? & ? & ? & ?). repeat split; simpl in *; congruence. }
  simpl.
  (* acc.fires += bucket.fires *)
  rewrite (accumulator_getBucket _ _ _ _ _ _ _ Hacc2 Eb). simpl.
  destruct (accumulator_modify h0 h2 acc _ m
              (Store.add_fires (Store.fires bo))
              (Bucket.mk (Bucket.failures v + Bucket.failures pb)
                         (Bucket.successes v + Bucket.successes pb)
                         (Bucket.fires v + Bucket.fires pb)
                         (Bucket.timeouts v) (Bucket.percentiles v)
                         (Bucket.latencyTimes v)
                         (Bucket.isCircuitBreakerOpen v)) m Hacc2)
    as (h3 & -> & Hacc3); try done.
  { intros a (? & ? & ? & ? & ? & ?). repeat split; simpl in *; congruence. }
  simpl.
  (* acc.timeouts += bucket.timeouts *)
  rewrite (accumulator_getBucket _ _ _ _ _ _ _ Hacc3 Eb). simpl.
  destruct (accumulator_modify h0 h3 acc _ m
              (Store.add_timeouts (Store.timeouts bo))
              (Bucket.mk (Bucket.failures v + Bucket.failures pb)
                         (Bucket.successes v + Bucket.successes pb)
                         (Bucket.fires v + Bucket.fires pb)
                         (Bucket.timeouts v + Bucket.timeouts pb)
                         (Bucket.percentiles v)
                         (Bucket.latencyTimes v)
                         (Bucket.isCircuitBreakerOpen v)) m Hacc3)
    as (h4 & -> & Hacc4); try done.
  { intros a (? & ? & ? & ? & ? & ?). repeat split; simpl in *; congruence. }
  simpl.
  (* acc.latencyTimes = [...acc.latencyTimes, ...bucket.latencyTimes] *)
  pose proof (accumulator_getBucket _ _ _ _ _ _ _ Hacc4 Eb) as Gb.
  pose proof (accumulator_getArray _ _ _ _ _ _ _ Hacc4 Ebl) as Gbl.
  destruct Hacc4 as (Hsub & Hnone & a & Ea & Hl & Hp & El & Ed & Hag).
  simpl in El, Ed.
  assert (Ga : Store.getBucket acc h4 = Some a).
  { unfold Store.getBucket. by rewrite Ea. }
  assert (Gal : Store.getArray (Store.latencyTimes a) h4
                = Some (Bucket.latencyTimes v)).
  { unfold Store.getArray. by rewrite El. }
  rewrite Ga. simpl. rewrite Gal. simpl.
  rewrite Gb. simpl. rewrite Gbl. simpl.
  set (r := fresh (dom h4)).
  assert (Hr : h4 !! r = None) by apply not_elem_of_dom, is_fresh.
  assert (Hra : r <> acc) by congruence.
  assert (Hrp : r <> Store.percentiles a) by congruence.
  assert (Hpa : Store.percentiles a <> acc) by congruence.
  rewrite (modify_spec _ acc _ a) by (by store_lookup).
  eexists. split; [reflexivity|]. unfold Store.put.
  split.
  { apply insert_subseteq_r; [done|].
    apply insert_subseteq_r; [|done]. by eapply lookup_weaken_None'. }
  split; [done|].
  exists (Store.set_latencyTimes r a). simpl. store_lookup.
  split; [done|]. split; [by eapply lookup_weaken_None'|].
  split; [done|]. split; [done|]. split; [done|].
  destruct Hag as (? & ? & ? & ? & ? & ?). by repeat split.
Qed.

Lemma reduce_spec h0 acc bs : forall h v m pbs,
  accumulator h0 h acc v m ->
  Forall2 (fun b pb => Store.read_bucket h0 b = Some pb) bs pbs ->
  exists h', StatusObj.reduce acc bs h = Some h'
             /\ accumulator h0 h' acc (foldl Status.accumulate v pbs) m.
Proof.
  induction bs as [|b bs IH]; intros h v m pbs Hacc Hall.
  - apply Forall2_nil_inv_l in Hall as ->. simpl. eauto.
  - apply Forall2_cons_inv_l in Hall as (pb & pbs' & Hb & Hall & ->).
    change (StatusObj.reduce acc (b :: bs) h)
      with (h1 ← StatusObj.accumulate acc b h; StatusObj.reduce acc bs h1).
    destruct (accumulate_step _ _ _ _ _ _ _ Hacc Hb) as (h1 & -> & Hacc1).
    simpl. by apply IH.
Qed.

(** A write into the array of the accumulator. *)
Lemma accumulator_put_array h0 h acc v m l :
  accumulator h0 h acc v m ->
  exists a,
    Store.getBucket acc h = Some a
    /\ Store.getArray (Store.latencyTimes a) h = Some (Bucket.latencyTimes v)
    /\ accumulator h0
         (Store.put (Store.latencyTimes a) (Store.OArray l) h) acc
         (Bucket.set_latencyTimes l v) m.
Proof.
  intros (Hsub & Hacc & a & Ea & Hl & Hp & El & Ed & Hag).
  exists a. unfold Store.getBucket, Store.getArray. rewrite Ea, El.
  split; [done|]. split; [done|].
  assert (Hla : Store.latencyTimes a <> acc) by congruence.
  assert (Hlp : Store.latencyTimes a <> Store.percentiles a) by congruence.
  unfold Store.put.
  split; [by apply insert_subseteq_r|]. split; [done|].
  exists a. store_lookup. by repeat (split; [done|]).
Qed.

(** A write into the dictionary of the accumulator. *)
Lemma accumulator_put_dict h0 h acc v m d :
  accumulator h0 h acc v m ->
  exists a,
    Store.getBucket acc h = Some a
    /\ Store.getArray (Store.latencyTimes a) h = Some (Bucket.latencyTimes v)
    /\ Store.getDict (Store.percentiles a) h = Some (Bucket.percentiles v)
    /\ accumulator h0
         (Store.put (Store.percentiles a) (Store.ODict d) h) acc
         (Bucket.set_percentiles d v) m.
Proof.
  intros (Hsub & Hacc & a & Ea & Hl & Hp & El & Ed & Hag).
  exists a. unfold Store.getBucket, Store.getArray, Store.getDict.
  rewrite Ea, El, Ed.
  split; [done|]. split; [done|]. split; [done|].
  assert (Hpa : Store.percentiles a <> acc) by congruence.
  assert (Hlp : Store.latencyTimes a <> Store.percentiles a) by congruence.
  unfold Store.put.
  split; [by apply insert_subseteq_r|]. split; [done|].
  exists a. store_lookup. by repeat (split; [done|]).
Qed.

Lemma set_percentiles_spec h0 acc enabled levels : forall h v m,
  accumulator h0 h acc v m ->
  exists h',
    StatusObj.set_percentiles enabled acc levels h = Some h'
    /\ accumulator h0 h' acc
         (Bucket.set_percentiles
            (Status.fill_percentiles enabled levels (Bucket.latencyTimes v)
                                     (Bucket.percentiles v)) v) m.
Proof.
  induction levels as [|p levels IH]; intros h v m Hacc.
  - simpl. exists h. split; [done|].
    unfold Status.fill_percentiles. destruct enabled; simpl; by destruct v.
  - change (StatusObj.set_percentiles enabled acc (p :: levels) h)
      with (h1 ← StatusObj.set_percentile enabled acc p h;
            StatusObj.set_percentiles enabled acc levels h1).
    set (value := if enabled
                  then Status.calculatePercentile p (Bucket.latencyTimes v)
                  else 0%Z).
    destruct (accumulator_put_dict h0 h acc v m
                (dict_set p value (Bucket.percentiles v)) Hacc)
      as (a & Ga & Gl & Gd & Hacc1).
    assert (E1 : StatusObj.set_percentile enabled acc p h
                 = Some (Store.put (Store.percentiles a)
                           (Store.ODict (dict_set p value
                                           (Bucket.percentiles v))) h)).
    { unfold StatusObj.set_percentile. rewrite Ga. simpl.
      unfold value. destruct enabled; simpl.
      - rewrite Gl. simpl. by rewrite Gd.
      - by rewrite Gd. }
    rewrite E1. simpl.
    destruct (IH _ _ _ Hacc1) as (h' & -> & Hacc').
    exists h'. split; [done|].
    unfold Status.fill_percentiles in *. unfold value in *.
    by destruct enabled.
Qed.

(** The snapshot in the store returns a new object, leaves every object
    of the store as it was, and has the value that [Status.stats] computes
    from the values of the buckets. *)
Lemma stats_in_store s h0 ps :
  StatusObj.read_status h0 s = Some ps ->
  StatusObj.buckets s <> [] ->
  exists acc h st,
    StatusObj.stats s h0 = Some (acc, h)
    /\ h0 ⊆ h
    /\ h0 !! acc = None
    /\ Status.stats ps = Some st
    /\ Store.read_stats h acc = Some st.
Proof.
  intros Hps Hne. unfold StatusObj.read_status in Hps.
  destruct (StatusObj.read_buckets h0 s) as [pbs|] eqn:Hpbs;
    simpl in Hps; [|done].
  injection Hps as <-.
  unfold StatusObj.read_buckets in Hpbs. apply mapM_Some in Hpbs.
  unfold StatusObj.stats.
  destruct (StatusObj.createBucket h0) as [acc h1] eqn:E1.
  apply accumulator_create in E1.
  destruct (reduce_spec h0 acc (StatusObj.buckets s) h1 _ None pbs E1 Hpbs)
    as (h2 & -> & Hacc2).
  simpl.
  set (agg := foldl Status.accumulate Status.createBucket pbs) in *.
  (* sort *)
  destruct (accumulator_put_array h0 h2 acc agg None
              (Status.sort_ascending (Bucket.latencyTimes agg)) Hacc2)
    as (a2 & Ga2 & Gl2 & Hacc3).
  rewrite Ga2. simpl. rewrite Gl2. simpl.
  (* mean *)
  set (sorted := Status.sort_ascending (Bucket.latencyTimes agg)) in *.
  destruct (accumulator_put_array h0 _ acc _ None sorted Hacc3)
    as (a3 & Ga3 & Gl3 & _).
  rewrite Ga3. simpl. rewrite Gl3. simpl.
  destruct (accumulator_modify h0 _ acc _ None
              (Store.set_latencyMean (Status.mean sorted))
              (Bucket.set_latencyTimes sorted agg)
              (Some (Status.mean sorted)) Hacc3)
    as (h4 & -> & Hacc4); try done.
  { intros a (? & ? & ? & ? & ? & ?). by repeat split. }
  simpl.
  (* percentiles *)
  destruct (set_percentiles_spec h0 acc
              (StatusObj.rollingPercentilesEnabled s)
              (StatusObj.percentiles s) h4 _ _ Hacc4)
    as (h5 & -> & Hacc5).
  simpl.
  (* isCircuitBreakerOpen *)
  destruct (StatusObj.buckets s) as [|first rest] eqn:Eb; [done|].
  apply Forall2_cons_inv_l in Hpbs as (pfirst & prest & Hfirst & _ & Epbs).
  simpl.
  apply read_bucket_inv in Hfirst
    as (fo & Efo & _ & _ & (_ & _ & _ & _ & Hflag & _)).
  rewrite (accumulator_getBucket _ _ _ _ _ _ _ Hacc5 Efo). simpl.
  match type of Hacc5 with
  | accumulator _ _ _ ?v5 _ =>
      destruct (accumulator_modify h0 h5 acc v5 (Some (Status.mean sorted))
                  (Store.set_isCircuitBreakerOpen
                     (Store.isCircuitBreakerOpen fo))
                  (Bucket.set_isCircuitBreakerOpen
                     (Bucket.isCircuitBreakerOpen pfirst) v5)
                  (Some (Status.mean sorted)) Hacc5)
        as (h6 & -> & Hacc6); try done
  end.
  { intros a (? & ? & ? & ? & ? & ?). repeat split; simpl in *; congruence. }
  simpl.
  eexists acc, h6, _. split; [reflexivity|].
  destruct Hacc6 as (Hsub & Hnone & a & Ea & Hl & Hp & El & Ed & Hag).
  split; [done|]. split; [done|].
  split.
  - unfold Status.stats. simpl. rewrite Epbs. simpl. reflexivity.
  - unfold Store.read_stats, Store.read_bucket, Store.getBucket,
      Store.getArray, Store.getDict.
    rewrite Ea. simpl. rewrite El. simpl. rewrite Ed. simpl.
    destruct Hag as (-> & -> & -> & -> & -> & ->). simpl.
    subst sorted agg. rewrite Epbs. reflexivity.
Qed.

End SnapshotInStore.

(** ** The two models of the window agree

    On a store in which the buckets of the window are distinct objects with
    distinct arrays, which is what the constructor builds and what every
    operation keeps, each operation on the store has the effect on the
    values of the buckets that the first model gives it. *)

Section Refinement.

Implicit Types (h : gmap positive Store.object) (r b : positive).

Ltac store_lookup :=
  repeat first
    [ rewrite lookup_insert_eq
    | rewrite lookup_insert_ne by congruence ];
  simpl.

Lemma Forall2_impl_elem {A B} (P Q : A -> B -> Prop) (l : list A)
    (k : list B) :
  Forall2 P l k ->
  (forall x y, x ∈ l -> P x y -> Q x y) ->
  Forall2 Q l k.
Proof.
  induction 1 as [|x y l k Hxy Hlk IH]; intros Himp; constructor.
  - apply Himp; [left|done].
  - apply IH. intros x' y' Hin. apply Himp. by right.
Qed.

Lemma read_bucket_insert_ne h b r o a :
  h !! b = Some (Store.OBucket a) ->
  r <> b -> r <> Store.latencyTimes a -> r <> Store.percentiles a ->
  Store.read_bucket (<[r := o]> h) b = Store.read_bucket h b.
Proof.
  intros Ea Hb Hl Hp.
  unfold Store.read_bucket, Store.getBucket, Store.getArray, Store.getDict.
  store_lookup. rewrite Ea. simpl. by store_lookup.
Qed.

Lemma read_status_inv h s ps :
  StatusObj.read_status h s = Some ps ->
  Forall2 (fun b v => Store.read_bucket h b = Some v)
          (StatusObj.buckets s) (Status.buckets ps)
  /\ ps = Status.mk (Status.buckets ps) (StatusObj.timeout s)
                    (StatusObj.percentiles s)
                    (StatusObj.rollingPercentilesEnabled s)
                    (StatusObj.rotationTimer s).
Proof.
  unfold StatusObj.read_status, StatusObj.read_buckets.
  destruct (mapM _ _) as [bs|] eqn:E; simpl; [|done].
  intros [= <-]. simpl. split; [by apply mapM_Some|done].
Qed.

Lemma read_status_intro h s bs :
  Forall2 (fun b v => Store.read_bucket h b = Some v)
          (StatusObj.buckets s) bs ->
  StatusObj.read_status h s
  = Some (Status.mk bs (StatusObj.timeout s) (StatusObj.percentiles s)
                    (StatusObj.rollingPercentilesEnabled s)
                    (StatusObj.rotationTimer s)).
Proof.
  intros H. unfold StatusObj.read_status, StatusObj.read_buckets.
  apply mapM_Some in H. by rewrite H.
Qed.

Lemma read_status_readable h s ps :
  StatusObj.read_status h s = Some ps -> readable h s.
Proof.
  intros H. apply read_buckets_is_Some.
  unfold StatusObj.read_status in H.
  destruct (StatusObj.read_buckets h s); [eauto|done].
Qed.

Lemma separated_shape h h' s :
  readable h s -> same_shape h h' -> separated h s -> separated h' s.
Proof.
  intros Hr Hs [Hnd Hinj]. split; [done|].
  intros b1 b2 a1' a2' Hb1 Hb2 E1' E2' Hl.
  unfold readable in Hr. rewrite Forall_forall in Hr.
  destruct (proj1 (read_bucket_is_Some h b1) (Hr b1 Hb1))
    as (a1 & l1 & d1 & E1 & _).
  destruct (proj1 (read_bucket_is_Some h b2) (Hr b2 Hb2))
    as (a2 & l2 & d2 & E2 & _).
  pose proof (Hs b1) as S1. rewrite E1 in S1.
  destruct S1 as (y1 & X1 & L1 & _).
  pose proof (Hs b2) as S2. rewrite E2 in S2.
  destruct S2 as (y2 & X2 & L2 & _).
  rewrite E1' in X1. injection X1 as <-.
  rewrite E2' in X2. injection X2 as <-.
  eapply Hinj; eauto. congruence.
Qed.

(** What a write to the first bucket object, and a write to its array,
    leave alone: the values of the other buckets. *)
Lemma others_after_bucket_write h s cur rest a o vrest :
  StatusObj.buckets s = cur :: rest ->
  separated h s ->
  h !! cur = Some (Store.OBucket a) ->
  Forall2 (fun b v => Store.read_bucket h b = Some v) rest vrest ->
  Forall2 (fun b v => Store.read_bucket (<[cur := o]> h) b = Some v)
          rest vrest.
Proof.
  intros Eb [Hnd _] Ea Hrest.
  rewrite Eb in Hnd. apply NoDup_cons in Hnd as [Hnotin _].
  eapply Forall2_impl_elem; [exact Hrest|].
  intros b v Hin Hb. simpl in *.
  pose proof Hb as Hb'.
  apply read_bucket_inv in Hb' as (ab & Eab & Elb & Edb & _).
  rewrite (read_bucket_insert_ne _ _ _ _ _ Eab); [done| | |].
  - intros ->. done.
  - congruence.
  - congruence.
Qed.

Lemma others_after_array_write h s cur rest a l vrest :
  StatusObj.buckets s = cur :: rest ->
  separated h s ->
  h !! cur = Some (Store.OBucket a) ->
  is_Some (h !! Store.latencyTimes a ≫= fun o =>
           match o with Store.OArray x => Some x | _ => None end) ->
  Forall2 (fun b v => Store.read_bucket h b = Some v) rest vrest ->
  Forall2 (fun b v =>
             Store.read_bucket
               (<[Store.latencyTimes a := Store.OArray l]> h) b = Some v)
          rest vrest.
Proof.
  intros Eb [Hnd Hinj] Ea Harr Hrest.
  rewrite Eb in Hnd, Hinj. apply NoDup_cons in Hnd as [Hnotin _].
  destruct (h !! Store.latencyTimes a) as [[|x|]|] eqn:El;
    simpl in Harr; try (by destruct Harr).
  eapply Forall2_impl_elem; [exact Hrest|].
  intros b v Hin Hb. simpl in *.
  pose proof Hb as Hb'.
  apply read_bucket_inv in Hb' as (ab & Eab & Elb & Edb & _).
  rewrite (read_bucket_insert_ne _ _ _ _ _ Eab); [done| | |].
  - congruence.
  - intros E. assert (cur = b); [|by subst].
    eapply Hinj; eauto; [left|by right].
  - congruence.
Qed.

Lemma bump_agrees property a v :
  agrees a v (Store.latencyMean a) ->
  agrees (StatusObj.bump property a) (Status.bump property v)
         (Store.latencyMean a)
  /\ Bucket.latencyTimes (Status.bump property v) = Bucket.latencyTimes v
  /\ Bucket.percentiles (Status.bump property v) = Bucket.percentiles v.
Proof.
  intros (Hf & Hs & Hn & Ht & Ho & Hm).
  destruct property; simpl; unfold agrees; simpl;
    rewrite ?Hf, ?Hs, ?Hn, ?Ht, ?Ho; repeat split; lia.
Qed.

Lemma read_bucket_intro h b a v :
  h !! b = Some (Store.OBucket a) ->
  h !! Store.latencyTimes a = Some (Store.OArray (Bucket.latencyTimes v)) ->
  h !! Store.percentiles a = Some (Store.ODict (Bucket.percentiles v)) ->
  agrees a v (Store.latencyMean a) ->
  Store.read_bucket h b = Some v.
Proof.
  intros Ea El Ed (Hf & Hs & Hn & Ht & Ho & _).
  unfold Store.read_bucket, Store.getBucket, Store.getArray, Store.getDict.
  rewrite Ea. simpl. rewrite El. simpl. rewrite Ed. simpl.
  rewrite Hf, Hs, Hn, Ht, Ho. by destruct v.
Qed.

Lemma increment_refines property latency s h ps :
  StatusObj.read_status h s = Some ps ->
  separated h s ->
  StatusObj.buckets s <> [] ->
  exists h' ps',
    StatusObj.increment property latency s h = Some h'
    /\ Status.increment property latency ps = Some ps'
    /\ StatusObj.read_status h' s = Some ps'
    /\ separated h' s.
Proof.
  intros Hps Hsep Hne.
  pose proof (read_status_readable _ _ _ Hps) as Hr.
  destruct (increment_readable property latency s h Hr Hne)
    as (h' & Hinc & Hshape).
  exists h'.
  apply read_status_inv in Hps as [Hall Eps].
  destruct (StatusObj.buckets s) as [|cur rest] eqn:Eb; [done|].
  apply Forall2_cons_inv_l in Hall as (vcur & vrest & Hcur & Hrest & Ebs).
  pose proof Hcur as Hcur'.
  apply read_bucket_inv in Hcur' as (a & Ea & El & Ed & Hag).
  destruct (bump_agrees property a vcur Hag) as (Hag' & El' & Ed').
  destruct (bump_refs property a) as [Hfl Hfp].
  assert (Hla : Store.latencyTimes a <> cur) by congruence.
  assert (Hpa : Store.percentiles a <> cur) by congruence.
  assert (Hlp : Store.latencyTimes a <> Store.percentiles a) by congruence.
  exists (Status.set_buckets
            (Status.push_latency latency (Status.bump property vcur)
             :: vrest) ps).
  split; [done|]. split.
  { unfold Status.increment. by rewrite Ebs. }
  split; [|by eapply separated_shape].
  rewrite Eps at 1. unfold Status.set_buckets. simpl.
  apply read_status_intro. rewrite Eb.
  unfold StatusObj.increment in Hinc. rewrite Eb in Hinc. simpl in Hinc.
  rewrite (modify_spec _ _ _ _ Ea) in Hinc. simpl in Hinc.
  unfold Store.put in Hinc.
  pose proof (others_after_bucket_write h s cur rest a
                (Store.OBucket (StatusObj.bump property a)) vrest
                Eb Hsep Ea Hrest) as Hrest1.
  destruct latency as [x|].
  - unfold Store.getBucket, Store.getArray in Hinc.
    rewrite lookup_insert_eq in Hinc. simpl in Hinc.
    rewrite Hfl in Hinc. rewrite lookup_insert_ne in Hinc by done.
    rewrite El in Hinc. simpl in Hinc. injection Hinc as <-.
    unfold Store.put. constructor.
    + eapply (read_bucket_intro _ _ (StatusObj.bump property a)).
      * by store_lookup.
      * rewrite Hfl. store_lookup. by rewrite El'.
      * rewrite Hfp. store_lookup. by rewrite Ed, Ed'.
      * destruct Hag' as (? & ? & ? & ? & ? & ?).
        repeat split; simpl; try done; by destruct property.
    + assert (Hsep1 : separated
                        (<[cur := Store.OBucket (StatusObj.bump property a)]> h)
                        s).
      { eapply separated_shape; [exact Hr| |exact Hsep].
        by eapply same_shape_put_bucket. }
      rewrite <- Hfl.
      eapply (others_after_array_write _ s cur rest); eauto.
      * by rewrite lookup_insert_eq.
      * rewrite Hfl. rewrite lookup_insert_ne by done. rewrite El. eauto.
  - injection Hinc as <-. constructor; [|done].
    eapply (read_bucket_intro _ _ (StatusObj.bump property a)).
    + by store_lookup.
    + rewrite Hfl. store_lookup. by rewrite El, El'.
    + rewrite Hfp. store_lookup. by rewrite Ed, Ed'.
    + destruct Hag' as (? & ? & ? & ? & ? & ?).
      repeat split; simpl; try done; by destruct property.
Qed.

Lemma set_flag_refines f s h ps :
  StatusObj.read_status h s = Some ps ->
  separated h s ->
  StatusObj.buckets s <> [] ->
  exists h' vcur vrest,
    (b ← head (StatusObj.buckets s);
     Store.modify b (Store.set_isCircuitBreakerOpen f) h) = Some h'
    /\ Status.buckets ps = vcur :: vrest
    /\ StatusObj.read_status h' s
       = Some (Status.set_buckets
                 (Bucket.set_isCircuitBreakerOpen f vcur :: vrest) ps)
    /\ separated h' s.
Proof.
  intros Hps Hsep Hne.
  pose proof (read_status_readable _ _ _ Hps) as Hr.
  destruct (set_flag_readable f s h Hr Hne) as (h' & Hset & Hshape).
  exists h'.
  apply read_status_inv in Hps as [Hall Eps].
  destruct (StatusObj.buckets s) as [|cur rest] eqn:Eb; [done|].
  apply Forall2_cons_inv_l in Hall as (vcur & vrest & Hcur & Hrest & Ebs).
  exists vcur, vrest.
  pose proof Hcur as Hcur'.
  apply read_bucket_inv in Hcur' as (a & Ea & El & Ed & Hag).
  assert (Hla : Store.latencyTimes a <> cur) by congruence.
  assert (Hpa : Store.percentiles a <> cur) by congruence.
  split; [done|]. split; [done|].
  split; [|by eapply separated_shape].
  rewrite Eps at 1. unfold Status.set_buckets. simpl.
  apply read_status_intro. rewrite Eb.
  simpl in Hset. rewrite (modify_spec _ _ _ _ Ea) in Hset.
  injection Hset as <-. unfold Store.put. constructor.
  - eapply (read_bucket_intro _ _ (Store.set_isCircuitBreakerOpen f a)).
    + by store_lookup.
    + simpl. by store_lookup.
    + simpl. by store_lookup.
    + destruct Hag as (? & ? & ? & ? & ? & ?). by repeat split.
  - by eapply others_after_bucket_write.
Qed.

Lemma Forall2_removelast {A B} (P : A -> B -> Prop) l k :
  Forall2 P l k -> Forall2 P (removelast l) (removelast k).
Proof.
  induction 1 as [|x y l k Hxy Hlk IH]; simpl; [constructor|].
  destruct Hlk; [constructor|]. by constructor.
Qed.

Lemma elem_of_removelast {A} (x : A) (l : list A) :
  x ∈ removelast l -> x ∈ l.
Proof.
  induction l as [|y l IH]; simpl; [done|].
  destruct l as [|z l]; [by intros ?%elem_of_nil|].
  intros [->|H]%elem_of_cons; [left|right; by apply IH].
Qed.

Lemma NoDup_removelast {A} (l : list A) : NoDup l -> NoDup (removelast l).
Proof.
  induction 1 as [|x l Hx Hl IH]; simpl; [constructor|].
  destruct l as [|z l]; [constructor|].
  constructor; [|done]. intros H%elem_of_removelast. done.
Qed.

Lemma rotate_refines s h ps :
  StatusObj.read_status h s = Some ps ->
  separated h s ->
  exists s' h',
    StatusObj.rotate s h = (s', h')
    /\ StatusObj.read_status h' s' = Some (Status.rotate ps)
    /\ separated h' s'.
Proof.
  intros Hps [Hnd Hinj].
  pose proof (read_status_readable _ _ _ Hps) as Hr.
  apply read_status_inv in Hps as [Hall Eps].
  unfold StatusObj.rotate.
  destruct (StatusObj.createBucket h) as [b h1] eqn:E.
  apply createBucket_spec in E
    as (Hsub & Hnew & Hb & a & Ea & Hl & Hp & _).
  eexists _, _. split; [reflexivity|].
  assert (Hold : forall b', b' ∈ StatusObj.buckets s ->
             exists a', h !! b' = Some (Store.OBucket a')
                        /\ is_Some (h !! Store.latencyTimes a')).
  { intros b' Hin. unfold readable in Hr. rewrite Forall_forall in Hr.
    destruct (proj1 (read_bucket_is_Some h b') (Hr b' Hin))
      as (a' & l' & d' & ? & ? & ?). eauto. }
  split.
  - rewrite Eps at 1. unfold Status.rotate, Status.set_buckets. simpl.
    unfold StatusObj.read_status, StatusObj.read_buckets. simpl.
    rewrite Hb. simpl.
    assert (Hrest : mapM (Store.read_bucket h1)
                         (removelast (StatusObj.buckets s))
                    = Some (removelast (Status.buckets ps))).
    { apply mapM_Some. apply Forall2_removelast.
      eapply Forall2_impl; [exact Hall|].
      intros b' v Hv. simpl in *. by eapply read_bucket_weaken. }
    by rewrite Hrest.
  - split; simpl.
    + constructor; [|by apply NoDup_removelast].
      intros Hin%elem_of_removelast.
      destruct (Hold b Hin) as (a' & Ea' & _). congruence.
    + intros b1 b2 a1 a2 Hb1 Hb2 E1 E2 Hlat.
      apply elem_of_cons in Hb1 as [->|Hb1%elem_of_removelast];
        apply elem_of_cons in Hb2 as [->|Hb2%elem_of_removelast];
        try done.
      * destruct (Hold b2 Hb2) as (a2' & Ea2 & [x Hx]).
        rewrite (lookup_weaken _ _ _ _ Ea2 Hsub) in E2. injection E2 as <-.
        rewrite Ea in E1. injection E1 as <-. congruence.
      * destruct (Hold b1 Hb1) as (a1' & Ea1 & [x Hx]).
        rewrite (lookup_weaken _ _ _ _ Ea1 Hsub) in E1. injection E1 as <-.
        rewrite Ea in E2. injection E2 as <-. congruence.
      * destruct (Hold b1 Hb1) as (a1' & Ea1 & _).
        destruct (Hold b2 Hb2) as (a2' & Ea2 & _).
        rewrite (lookup_weaken _ _ _ _ Ea1 Hsub) in E1. injection E1 as <-.
        rewrite (lookup_weaken _ _ _ _ Ea2 Hsub) in E2. injection E2 as <-.
        eapply Hinj; eauto.
Qed.

(** One operation. *)
Theorem exec_refines op s h ps :
  StatusObj.read_status h s = Some ps ->
  separated h s ->
  StatusObj.buckets s <> [] ->
  exists s' h' ps',
    StatusObj.exec op (s, h) = Some (s', h')
    /\ on_values op ps = Some ps'
    /\ StatusObj.read_status h' s' = Some ps'
    /\ separated h' s'
    /\ StatusObj.buckets s' <> [].
Proof.
  intros Hps Hsep Hne. destruct op; simpl.
  - destruct (increment_refines property latencyRunTime s h ps Hps Hsep Hne)
      as (h' & ps' & -> & Hv & Hr & Hs).
    simpl. exists s, h', ps'. by repeat (split; [done|]).
  - destruct (rotate_refines s h ps Hps Hsep) as (s' & h' & E & Hr & Hs).
    rewrite E. exists s', h', (Status.rotate ps).
    repeat (split; [done|]).
    unfold StatusObj.rotate in E.
    destruct (StatusObj.createBucket h). by injection E as <- <-.
  - unfold StatusObj.open.
    destruct (set_flag_refines true s h ps Hps Hsep Hne)
      as (h' & vcur & vrest & -> & Eb & Hr & Hs).
    simpl. eexists s, h', _. split; [done|].
    split; [|by repeat (split; [done|])].
    unfold Status.open. by rewrite Eb.
  - unfold StatusObj.close.
    destruct (set_flag_refines false s h ps Hps Hsep Hne)
      as (h' & vcur & vrest & -> & Eb & Hr & Hs).
    simpl. eexists s, h', _. split; [done|].
    split; [|by repeat (split; [done|])].
    unfold Status.close. by rewrite Eb.
Qed.

Lemma createBuckets_separated n : forall h0 bs h,
  StatusObj.createBuckets n h0 = (bs, h) ->
  h0 ⊆ h
  /\ NoDup bs
  /\ Forall2 (fun b v => Store.read_bucket h b = Some v)
             bs (replicate n Status.createBucket)
  /\ forall b, b ∈ bs ->
       h0 !! b = None
       /\ exists a, h !! b = Some (Store.OBucket a)
                    /\ h0 !! Store.latencyTimes a = None
                    /\ is_Some (h !! Store.latencyTimes a)
                    /\ forall b' a', b' ∈ bs ->
                         h !! b' = Some (Store.OBucket a') ->
                         Store.latencyTimes a = Store.latencyTimes a' ->
                         b = b'.
Proof.
  induction n as [|n IH]; intros h0 bs h.
  - simpl. intros [= <- <-]. split; [done|]. split; [constructor|].
    split; [constructor|]. by intros b ?%elem_of_nil.
  - rewrite createBuckets_S.
    destruct (StatusObj.createBucket h0) as [b h1] eqn:E1.
    destruct (StatusObj.createBuckets n h1) as [bs' h2] eqn:E2.
    intros [= <- <-].
    apply createBucket_spec in E1
      as (Hsub1 & Hnew & Hread & a & Ea & Hl & Hp & _).
    apply IH in E2 as (Hsub2 & Hnd & Hall & Hnew').
    pose proof Hread as Hread'.
    apply read_bucket_inv in Hread' as (a0 & Ea0 & El0 & _).
    rewrite Ea in Ea0. injection Ea0 as <-.
    assert (Hb : b ∉ bs').
    { intros Hin. destruct (Hnew' b Hin) as [Hnone _]. congruence. }
    split; [by etrans|]. split; [by constructor|].
    split.
    { simpl. constructor; [by eapply read_bucket_weaken|done]. }
    intros b1 [->|Hin]%elem_of_cons.
    + split; [done|]. exists a.
      split; [by eapply lookup_weaken|]. split; [done|].
      split; [eexists; by eapply lookup_weaken|].
      intros b' a' [->|Hin']%elem_of_cons Ea' Hlat; [done|].
      destruct (Hnew' b' Hin') as (_ & a'' & Ea'' & Hl'' & _).
      rewrite Ea' in Ea''. injection Ea'' as <-. congruence.
    + destruct (Hnew' b1 Hin) as (Hnone1 & a1 & Ea1 & Hl1 & Hsome1 & Hinj1).
      split; [by eapply lookup_weaken_None|]. exists a1.
      split; [done|]. split; [by eapply lookup_weaken_None|].
      split; [done|].
      intros b' a' [->|Hin']%elem_of_cons Ea' Hlat.
      * rewrite (lookup_weaken _ _ _ _ Ea Hsub2) in Ea'.
        injection Ea' as <-. congruence.
      * by eapply Hinj1.
Qed.

Lemma constructor_refines options h0 s h :
  StatusObj.constructor options h0 = (s, h) ->
  StatusObj.read_status h s = Some (Status.constructor options)
  /\ separated h s.
Proof.
  unfold StatusObj.constructor.
  destruct (StatusObj.createBuckets _ h0) as [bs h1] eqn:E.
  intros [= <- <-].
  apply createBuckets_separated in E as (_ & Hnd & Hall & Hnew).
  split.
  - unfold StatusObj.read_status, StatusObj.read_buckets. simpl.
    apply mapM_Some in Hall. by rewrite Hall.
  - split; [done|]. simpl.
    intros b1 b2 a1 a2 Hb1 Hb2 E1 E2 Hlat.
    destruct (Hnew b1 Hb1) as (_ & a & Ea & _ & _ & Hinj).
    rewrite E1 in Ea. injection Ea as <-. by eapply Hinj.
Qed.

Lemma execs_refine ops : forall s h ps,
  StatusObj.read_status h s = Some ps ->
  separated h s ->
  StatusObj.buckets s <> [] ->
  exists s' h' ps',
    StatusObj.execs ops (s, h) = Some (s', h')
    /\ all_on_values ops ps = Some ps'
    /\ StatusObj.read_status h' s' = Some ps'.
Proof.
  induction ops as [|op ops IH]; intros s h ps Hps Hsep Hne.
  - simpl. eauto 10.
  - change (StatusObj.execs (op :: ops) (s, h))
      with (sh ← StatusObj.exec op (s, h); StatusObj.execs ops sh).
    destruct (exec_refines op s h ps Hps Hsep Hne)
      as (s1 & h1 & ps1 & -> & Hv & Hps1 & Hsep1 & Hne1).
    simpl. rewrite Hv. simpl. by apply IH.
Qed.

(** The window over the store and the window of values go through the
    same states, whatever is done to them. *)
Theorem window_models_agree options h0 ops :
  (1 <= StatusOptions.rollingCountBuckets options)%Z ->
  exists s h ps,
    StatusObj.execs ops (StatusObj.constructor options h0) = Some (s, h)
    /\ all_on_values ops (Status.constructor options) = Some ps
    /\ StatusObj.read_status h s = Some ps.
Proof.
  intros Hn.
  destruct (StatusObj.constructor options h0) as [s0 hc] eqn:Ec.
  destruct (constructor_refines _ _ _ _ Ec) as [Hps Hsep].
  destruct (constructor_readable _ _ _ _ Ec) as [_ Hlen].
  apply execs_refine; try done.
  apply nonempty_length. lia.
Qed.

End Refinement.

Lemma read_stats_weaken (h h' : gmap positive Store.object) (r : positive)
    (st : Stats.t) :
  h ⊆ h' -> Store.read_stats h r = Some st -> Store.read_stats h' r = Some st.
Proof.
  intros Hsub. unfold Store.read_stats, Store.getBucket.
  destruct (h !! r) as [[a| |]|] eqn:Ea; simpl; try done.
  destruct (Store.read_bucket h r) as [v|] eqn:Ev; simpl; [|done].
  rewrite (lookup_weaken _ _ _ _ Ea Hsub). simpl.
  by rewrite (read_bucket_weaken _ _ _ _ Hsub Ev).
Qed.

(** C10.  Reading the snapshot changes no bucket.  After any sequence of
    increments (and rotations and flag changes) on a window with at least
    one bucket, the read returns a new object and leaves every object of the
    store as it was, so the counters, the latency samples in their order and
    the open flags of all buckets read the same before and after; a second
    read, with nothing in between, returns an aggregate equal to the first,
    and the first aggregate is itself untouched by the second read. *)
Theorem snapshot_read_is_pure
    (options : StatusOptions.t) (h0 : gmap positive Store.object)
    (ops : list StatusObj.Op) :
  (1 <= StatusOptions.rollingCountBuckets options)%Z ->
  exists s h bs ps,
    StatusObj.execs ops (StatusObj.constructor options h0) = Some (s, h)
    /\ StatusObj.read_buckets h s = Some bs
    /\ StatusObj.read_status h s = Some ps
    /\ exists r1 h1 st,
         StatusObj.stats s h = Some (r1, h1)
         /\ h ⊆ h1
         /\ h !! r1 = None
         /\ StatusObj.read_buckets h1 s = Some bs
         /\ Store.read_stats h1 r1 = Some st
         /\ Status.stats ps = Some st
         /\ exists r2 h2,
              StatusObj.stats s h1 = Some (r2, h2)
              /\ h1 ⊆ h2
              /\ StatusObj.read_buckets h2 s = Some bs
              /\ Store.read_stats h2 r2 = Some st
              /\ Store.read_stats h2 r1 = Some st.
Proof.
  intros Hn.
  destruct (StatusObj.constructor options h0) as [s0 hc] eqn:Ec.
  destruct (constructor_readable _ _ _ _ Ec) as [Hr0 Hlen0].
  assert (Hne0 : StatusObj.buckets s0 <> []).
  { apply nonempty_length. lia. }
  destruct (execs_readable ops s0 hc Hr0 Hne0) as (s & h & Hrun & Hr & Hne).
  destruct (proj1 (read_buckets_is_Some h s) Hr) as [bs Hbs].
  set (ps := Status.mk bs (StatusObj.timeout s) (StatusObj.percentiles s)
                       (StatusObj.rollingPercentilesEnabled s)
                       (StatusObj.rotationTimer s)).
  assert (Hps : StatusObj.read_status h s = Some ps).
  { unfold StatusObj.read_status. by rewrite Hbs. }
  exists s, h, bs, ps. split; [done|]. split; [done|]. split; [done|].
  destruct (stats_in_store s h ps Hps Hne)
    as (r1 & h1 & st & H1 & Hsub1 & Hnew1 & Hst & Hread1).
  exists r1, h1, st. split; [done|]. split; [done|]. split; [done|].
  assert (Hbs1 : StatusObj.read_buckets h1 s = Some bs).
  { by rewrite (read_buckets_weaken h h1 s Hsub1 Hr). }
  split; [done|]. split; [done|]. split; [done|].
  assert (Hps1 : StatusObj.read_status h1 s = Some ps).
  { unfold StatusObj.read_status. by rewrite Hbs1. }
  destruct (stats_in_store s h1 ps Hps1 Hne)
    as (r2 & h2 & st2 & H2 & Hsub2 & Hnew2 & Hst2 & Hread2).
  rewrite Hst in Hst2. injection Hst2 as <-.
  exists r2, h2. split; [done|]. split; [done|].
  assert (Hr1 : readable h1 s) by (apply read_buckets_is_Some; eauto).
  split; [by rewrite (read_buckets_weaken h1 h2 s Hsub2 Hr1)|].
  split; [done|]. by eapply read_stats_weaken.
Qed.

Lemma snapshot_read_is_pure_witness :
  exists s h bs r1 h1,
    StatusObj.execs
      [StatusObj.Increment Successes (Some 250%Z);
       StatusObj.Increment Failures (Some 50%Z);
       StatusObj.Rotate;
       StatusObj.Increment Timeouts (Some 100%Z)]
      (StatusObj.constructor (StatusOptions.mk 3 3000 None) ∅) = Some (s, h)
    /\ StatusObj.read_buckets h s = Some bs
    /\ StatusObj.stats s h = Some (r1, h1)
    /\ StatusObj.read_buckets h1 s = Some bs.
Proof.
  destruct (snapshot_read_is_pure (StatusOptions.mk 3 3000 None) ∅
              [StatusObj.Increment Successes (Some 250%Z);
               StatusObj.Increment Failures (Some 50%Z);
               StatusObj.Rotate;
               StatusObj.Increment Timeouts (Some 100%Z)])
    as (s & h & bs & ps & Hrun & Hbs & _ & r1 & h1 & st & H1 & _ & _ & Hbs1 & _).
  { simpl. lia. }
  exists s, h, bs, r1, h1. repeat split; assumption.
Defined.

(** ** Further properties of the window *)

Section WindowFacts.

Implicit Types (s : Status.t) (b : Bucket.t) (l : list Z).

Lemma removelast_take {A} (k : list A) :
  removelast k = take (pred (length k)) k.
Proof.
  induction k as [|x [|y k] IH]; try done.
  change (removelast (x :: y :: k)) with (x :: removelast (y :: k)).
  rewrite IH. reflexivity.
Qed.

Lemma sum_list_append (xs ys : list nat) :
  sum_list (xs ++ ys) = sum_list xs + sum_list ys.
Proof. induction xs as [|x xs IH]; simpl; lia. Qed.

Lemma rotate_buckets s :
  Status.buckets (Status.rotate s)
  = Status.createBucket
    :: take (pred (length (Status.buckets s))) (Status.buckets s).
Proof. simpl. by rewrite removelast_take. Qed.

Lemma rotationTick_iter_timer s k :
  Status.rotationTimer (Nat.iter k Status.rotationTick s)
  = Status.rotationTimer s.
Proof.
  induction k as [|k IH]; simpl; [done|].
  unfold Status.rotationTick at 1.
  destruct (Status.rotationTimer (Nat.iter k Status.rotationTick s)) eqn:E;
    simpl; congruence.
Qed.

(** After [k] ticks the window holds [k] new buckets in front of the
    buckets that are left of the old ones. *)
Lemma rotationTick_iter s k :
  Status.rotationTimer s = true ->
  Status.buckets s <> [] ->
  Status.buckets (Nat.iter k Status.rotationTick s)
  = replicate (k `min` length (Status.buckets s)) Status.createBucket
    ++ take (length (Status.buckets s) - k) (Status.buckets s).
Proof.
  intros Ht Hne. apply nonempty_length in Hne.
  set (n := length (Status.buckets s)) in *.
  induction k as [|k IH].
  - simpl. rewrite Nat.sub_0_r. unfold n. by rewrite firstn_all.
  - rewrite Nat.iter_succ. unfold Status.rotationTick at 1.
    rewrite rotationTick_iter_timer, Ht, rotate_buckets, IH.
    rewrite length_app, length_replicate, length_take.
    fold n.
    replace (pred (k `min` n + (n - k) `min` n)) with (n - 1) by lia.
    rewrite take_app, take_replicate, length_replicate, take_take.
    destruct (Nat.le_gt_cases n k) as [Hle|Hlt].
    + replace (n - S k) with 0 by lia. replace (n - k) with 0 by lia.
      replace (S k `min` n) with (S (n - 1)) by lia.
      replace ((n - 1) `min` (k `min` n)) with (n - 1) by lia.
      replace ((n - 1 - k `min` n) `min` 0) with 0 by lia.
      by rewrite !take_0.
    + replace (S k `min` n) with (S k) by lia.
      replace ((n - 1) `min` (k `min` n)) with k by lia.
      replace ((n - 1 - k `min` n) `min` (n - k)) with (n - S k) by lia.
      reflexivity.
Qed.

Lemma stats_latencyMean s st :
  Status.stats s = Some st ->
  Stats.latencyMean st
  = Status.mean (Status.sort_ascending (window_latencies s)).
Proof.
  unfold Status.stats, window_latencies.
  destruct (head (Status.buckets s)) as [b0|]; simpl; [|done].
  intros [= <-]. simpl. by rewrite accumulate_latencyTimes.
Qed.

Lemma stats_flag_head s st b0 :
  Status.stats s = Some st ->
  head (Status.buckets s) = Some b0 ->
  Stats.isCircuitBreakerOpen st = Bucket.isCircuitBreakerOpen b0.
Proof.
  unfold Status.stats. intros H Hb. rewrite Hb in H. simpl in H.
  by injection H as <-.
Qed.

(** *** Percentiles *)

Lemma calculatePercentile_nil (p : Q) : Status.calculatePercentile p [] = 0%Z.
Proof. reflexivity. Qed.

Lemma calculatePercentile_elem_of (p : Q) l :
  Sorted Z.le l -> l <> [] -> Status.calculatePercentile p l ∈ l.
Proof.
  intros Hs Hne.
  destruct (calculatePercentile_nearest_rank p l Hs Hne) as (H0 & H1 & Hm).
  destruct (Qlt_le_dec 0 p) as [Hp0|Hp0].
  - destruct (Qlt_le_dec p 1) as [Hp1|Hp1].
    + destruct (Hm Hp0 Hp1) as [_ Hl]. by eapply list_elem_of_lookup_2.
    + destruct (H1 Hp1) as [Hl _]. rewrite last_lookup in Hl.
      by eapply list_elem_of_lookup_2.
  - destruct (H0 Hp0) as [Hl _]. rewrite head_lookup in Hl.
    by eapply list_elem_of_lookup_2.
Qed.

Lemma calculatePercentile_mono (p q : Q) l :
  Sorted Z.le l -> (p <= q)%Q ->
  (Status.calculatePercentile p l <= Status.calculatePercentile q l)%Z.
Proof.
  intros Hs Hpq.
  destruct l as [|x0 l0] eqn:El; [done|]. rewrite <- El in *.
  assert (Hne : l <> []) by (by rewrite El).
  assert (Hlen : 0 < length l) by (by apply nonempty_length).
  destruct (calculatePercentile_nearest_rank p l Hs Hne) as (P0 & P1 & Pm).
  destruct (calculatePercentile_nearest_rank q l Hs Hne) as (Q0 & Q1 & Qm).
  pose proof (calculatePercentile_elem_of p l Hs Hne) as Hpin.
  pose proof (calculatePercentile_elem_of q l Hs Hne) as Hqin.
  destruct (Qlt_le_dec 0 p) as [Hp0|Hp0].
  2:{ destruct (P0 Hp0) as [_ Hmin]. by apply Hmin. }
  destruct (Qlt_le_dec q 1) as [Hq1|Hq1].
  2:{ destruct (Q1 Hq1) as [_ Hmax]. by apply Hmax. }
  assert (Hq0 : (0 < q)%Q) by (eapply Qlt_le_trans; eassumption).
  assert (Hp1 : (p < 1)%Q) by (eapply Qle_lt_trans; eassumption).
  destruct (Pm Hp0 Hp1) as [Hpi Hpl].
  destruct (Qm Hq0 Hq1) as [Hqi Hql].
  eapply (sorted_lookup_le l); [exact Hs|exact Hpl|exact Hql|].
  assert (Hc : (Qceiling (p * inject_Z (Z.of_nat (length l)))
                <= Qceiling (q * inject_Z (Z.of_nat (length l))))%Z).
  { apply Qceiling_resp_le. apply Qmult_le_compat_r; [exact Hpq|].
    rewrite <- (Zle_Qle 0). lia. }
  lia.
Qed.

(** *** The dictionary of percentiles *)

Lemma Qeq_bool_trans_l (a b c : Q) :
  Qeq_bool a b = true -> Qeq_bool a c = Qeq_bool b c.
Proof.
  intros Hab%Qeq_bool_iff.
  destruct (Qeq_bool b c) eqn:E.
  - apply Qeq_bool_iff in E. apply Qeq_bool_iff. by rewrite Hab.
  - apply not_true_is_false. intros H%Qeq_bool_iff.
    apply not_true_iff_false in E. apply E, Qeq_bool_iff.
    by rewrite <- Hab.
Qed.

Lemma dict_get_set (p k : Q) (v : Z) (d : list (Q * Z)) :
  dict_get p (dict_set k v d)
  = if Qeq_bool k p then Some v else dict_get p d.
Proof.
  induction d as [|[k' v'] d IH]; simpl; [done|].
  destruct (Qeq_bool k' k) eqn:E; simpl.
  - rewrite (Qeq_bool_trans_l k' k p E). by destruct (Qeq_bool k p).
  - rewrite IH. destruct (Qeq_bool k' p) eqn:E1, (Qeq_bool k p) eqn:E2;
      try done.
    apply Qeq_bool_iff in E1, E2. apply not_true_iff_false in E.
    exfalso. apply E, Qeq_bool_iff. by rewrite E1, E2.
Qed.

Lemma dict_get_fill_zero (p : Q) (levels : list Q) : forall d,
  p ∈ levels \/ dict_get p d = Some 0%Z ->
  dict_get p (foldl (fun d k => dict_set k 0%Z d) d levels) = Some 0%Z.
Proof.
  induction levels as [|k levels IH]; intros d H; simpl.
  - destruct H as [H|H]; [by apply elem_of_nil in H|done].
  - apply IH. destruct H as [H|H].
    + apply elem_of_cons in H as [->|H]; [|by left].
      right. rewrite dict_get_set.
      by rewrite (proj2 (Qeq_bool_iff k k) (Qeq_refl k)).
    + right. rewrite dict_get_set. by destruct (Qeq_bool k p).
Qed.

End WindowFacts.

(** *** Sums and means of doubles *)

Section Binary64Facts.

Lemma total_Permutation l l' : l ≡ₚ l' -> total l = total l'.
Proof.
  induction 1; unfold total in *; simpl; try lia.
Qed.

Lemma Qred_inject_Z (z : Z) : Qred (inject_Z z) = inject_Z z.
Proof.
  unfold Qred, inject_Z.
  pose proof (Z.ggcd_gcd z 1) as Hg.
  pose proof (Z.ggcd_correct_divisors z 1) as Hd.
  destruct (Z.ggcd z 1) as [g [aa bb]]. simpl in *.
  rewrite Z.gcd_1_r in Hg. subst g. destruct Hd as [Ha Hb].
  rewrite Z.mul_1_l in Ha, Hb. by subst.
Qed.

Lemma nearest_even_inject_Z (q : Q) (n : Z) :
  (q == inject_Z n)%Q -> Binary64.nearest_even q = n.
Proof.
  intros E. unfold Binary64.nearest_even.
  assert (Ef : Qfloor q = n).
  { rewrite E. apply Qfloor_Z. }
  rewrite Ef.
  assert (E0 : (q - inject_Z n == 0)%Q).
  { rewrite E. unfold Qminus. apply Qplus_opp_r. }
  destruct (Qcompare_spec (q - inject_Z n) (1 # 2)) as [H|H|H];
    [|done|]; rewrite E0 in H; done.
Qed.

Lemma exponent_inject_Z (z : Z) :
  (0 < z)%Z -> Binary64.exponent (inject_Z z) = Z.log2 z.
Proof.
  intros Hz. unfold Binary64.exponent. simpl.
  rewrite Z.sub_0_r.
  pose proof (Z.log2_nonneg z) as Hnn.
  destruct (Z.log2_spec z Hz) as [Hle _].
  assert (H : Qle_bool (Binary64.scale (Z.log2 z) 1) (inject_Z z) = true).
  { apply Qle_bool_iff. unfold Binary64.scale.
    destruct (Z.leb_spec 0 (Z.log2 z)); [|lia].
    rewrite Qmult_1_l. by rewrite <- Zle_Qle. }
  by rewrite H.
Qed.

(** An integer below 2^53 is a double. *)
Lemma nearest_inject_Z (z : Z) :
  (0 <= z < 2 ^ 53)%Z -> Binary64.nearest (inject_Z z) = inject_Z z.
Proof.
  intros [H0 Hlt]. unfold Binary64.nearest. rewrite Qred_inject_Z.
  destruct (Z.eq_dec z 0%Z) as [->|Hne]; [reflexivity|].
  assert (Hz : (0 < z)%Z) by lia.
  assert (E0 : Qeq_bool (inject_Z z) 0 = false).
  { apply not_true_is_false. intros E%Qeq_bool_iff.
    unfold Qeq in E. simpl in E. lia. }
  rewrite E0.
  assert (Ea : Qabs (inject_Z z) = inject_Z z).
  { unfold Qabs, inject_Z. by rewrite Z.abs_eq by lia. }
  rewrite Ea, (exponent_inject_Z z Hz).
  assert (He : (0 <= Z.log2 z <= 52)%Z).
  { split; [apply Z.log2_nonneg|].
    assert (Z.log2 z < 53)%Z by (apply Z.log2_lt_pow2; lia). lia. }
  set (e := Z.log2 z) in *.
  replace (Z.max (e - 52) (-1074)) with (e - 52)%Z by lia.
  assert (Hpos : (0 < 2 ^ (52 - e))%Z) by (apply Z.pow_pos_nonneg; lia).
  assert (En : Binary64.nearest_even
                 (Binary64.scale (- (e - 52)) (inject_Z z))
               = (z * 2 ^ (52 - e))%Z).
  { apply nearest_even_inject_Z. unfold Binary64.scale.
    destruct (Z.leb_spec 0 (- (e - 52))); [|lia].
    replace (- (e - 52))%Z with (52 - e)%Z by lia.
    by rewrite inject_Z_mult. }
  rewrite En.
  assert (Es : (Binary64.scale (e - 52) (inject_Z (z * 2 ^ (52 - e)))
                == inject_Z z)%Q).
  { unfold Binary64.scale. rewrite inject_Z_mult.
    destruct (Z.leb_spec 0 (e - 52)).
    - replace (52 - e)%Z with 0%Z by lia.
      replace (e - 52)%Z with 0%Z by lia.
      change (inject_Z (2 ^ 0)) with 1%Q. ring.
    - replace (- (e - 52))%Z with (52 - e)%Z by lia.
      field. intros E. unfold Qeq in E. simpl in E. lia. }
  rewrite (Qred_complete _ _ Es), Qred_inject_Z.
  assert (Hq : Qle_bool 0 (inject_Z z) = true).
  { apply Qle_bool_iff. rewrite <- (Zle_Qle 0). lia. }
  by rewrite Hq.
Qed.

(** The sum of the samples is exact while it stays below 2^53. *)
Lemma sum_is_exact (l : list Z) : forall a : Z,
  (0 <= a)%Z ->
  Forall (fun x => (0 <= x)%Z) l ->
  (a + total l < 2 ^ 53)%Z ->
  foldl (fun acc cur => Binary64.add acc (inject_Z cur)) (inject_Z a) l
  = inject_Z (a + total l).
Proof.
  induction l as [|x l IH]; intros a Ha Hall Hlt.
  - simpl. unfold total. simpl. by rewrite Z.add_0_r.
  - inversion Hall as [|? ? Hx Hl]; subst.
    assert (Ht : total (x :: l) = (x + total l)%Z) by reflexivity.
    assert (Hnn : (0 <= total l)%Z).
    { clear -Hl. induction Hl as [|y l Hy Hl IH]; [done|].
      change (total (y :: l)) with (y + total l)%Z. lia. }
    rewrite Ht in Hlt. simpl foldl.
    assert (E : Binary64.add (inject_Z a) (inject_Z x) = inject_Z (a + x)).
    { unfold Binary64.add.
      rewrite (nearest_proper _ (inject_Z (a + x)))
        by (by rewrite inject_Z_plus).
      apply nearest_inject_Z. lia. }
    rewrite E, IH; [|lia|done|lia]. f_equal. rewrite Ht. lia.
Qed.

Lemma mean_nearest (l : list Z) :
  l <> [] ->
  Forall (fun x => (0 <= x)%Z) l ->
  (total l < 2 ^ 53)%Z ->
  Status.mean l
  = Binary64.nearest (inject_Z (total l) / inject_Z (Z.of_nat (length l))).
Proof.
  intros Hne Hall Hlt. apply nonempty_length in Hne.
  unfold Status.mean.
  destruct (Nat.ltb_spec 0 (length l)) as [_|]; [|lia].
  change 0%Q with (inject_Z 0).
  rewrite (sum_is_exact l 0) by (done || lia).
  by rewrite Z.add_0_l.
Qed.

End Binary64Facts.

(** X1.  The window forgets: with the rotation installed, after [k] ticks
    the window of [n >= 1] buckets holds [min k n] empty buckets in front of
    the [n - k] newest of the old buckets, so each counter of the snapshot
    is the sum over those, and after [n] ticks or more every counter is 0
    and no latency sample is left. *)
Theorem window_forgets_after_full_cycle (s : Status.t) (k : nat) :
  Status.rotationTimer s = true ->
  Status.buckets s <> [] ->
  let n := length (Status.buckets s) in
  let s' := Nat.iter k Status.rotationTick s in
  Status.buckets s'
  = replicate (k `min` n) Status.createBucket
    ++ take (n - k) (Status.buckets s)
  /\ (forall p,
        window_total p s'
        = sum_list (counter p <$> take (n - k) (Status.buckets s)))
  /\ (n <= k ->
      exists st,
        Status.stats s' = Some st
        /\ (forall p, stats_counter p st = 0)
        /\ Stats.latencyTimes st = []
        /\ Stats.latencyMean st = 0%Q).
Proof.
  intros Ht Hne n s'.
  pose proof (rotationTick_iter s k Ht Hne) as Hb. fold n s' in Hb.
  assert (Hzero : forall p m,
             sum_list (counter p <$> replicate m Status.createBucket) = 0).
  { intros p m. induction m as [|m IH]; csimpl; [done|].
    rewrite IH. by destruct p. }
  assert (Htot : forall p,
             window_total p s'
             = sum_list (counter p <$> take (n - k) (Status.buckets s))).
  { intros p. unfold window_total. rewrite Hb, fmap_app, sum_list_append.
    rewrite Hzero. lia. }
  split; [exact Hb|]. split; [exact Htot|].
  intros Hnk.
  assert (Hb' : Status.buckets s' = replicate n Status.createBucket).
  { rewrite Hb. replace (n - k) with 0 by lia.
    replace (k `min` n) with n by lia. by rewrite take_0, app_nil_r. }
  assert (Hne' : Status.buckets s' <> []).
  { apply nonempty_length. rewrite Hb', length_replicate.
    by apply nonempty_length. }
  destruct (proj2 (stats_is_Some s') Hne') as [st Hst].
  assert (Hlat : window_latencies s' = []).
  { unfold window_latencies. rewrite Hb'.
    clear. induction n as [|m IH]; csimpl; [done|]. exact IH. }
  exists st. split; [done|]. split; [|split].
  - intros p. rewrite (stats_counter_total p s' st Hst), Htot.
    replace (n - k) with 0 by lia. by rewrite take_0.
  - rewrite (stats_latencyTimes s' st Hst), Hlat. reflexivity.
  - rewrite (stats_latencyMean s' st Hst), Hlat. reflexivity.
Qed.

Lemma window_forgets_after_full_cycle_witness :
  exists s st,
    Status.increment Failures None
      (Status.constructor (StatusOptions.mk 3 10000 None)) = Some s
    /\ window_total Failures s = 1
    /\ window_total Failures (Nat.iter 2 Status.rotationTick s) = 1
    /\ Status.stats (Nat.iter 3 Status.rotationTick s) = Some st
    /\ stats_counter Failures st = 0.
Proof.
  destruct (Status.increment Failures None
              (Status.constructor (StatusOptions.mk 3 10000 None)))
    as [s|] eqn:E; [|vm_compute in E; discriminate].
  assert (Es : s = Status.mk
                     [Bucket.mk 1 0 0 0 [] [] false; Status.createBucket;
                      Status.createBucket]
                     10000 Status.default_percentiles true true).
  { vm_compute in E. injection E as <-. reflexivity. }
  assert (Ht : Status.rotationTimer s = true) by (by rewrite Es).
  assert (Hne : Status.buckets s <> []) by (by rewrite Es).
  destruct (window_forgets_after_full_cycle s 3 Ht Hne)
    as (_ & _ & Hgone).
  destruct Hgone as (st & Hst & Hzero & _).
  { rewrite Es. simpl. lia. }
  destruct (window_forgets_after_full_cycle s 2 Ht Hne) as (_ & Htot & _).
  exists s, st. split; [reflexivity|].
  split; [by rewrite Es|].
  split; [rewrite Htot, Es; reflexivity|].
  split; [exact Hst|apply Hzero].
Defined.

(** X2.  A tick on a window without buckets: [pop] finds nothing to remove
    and [unshift] adds a bucket, so the window has exactly one bucket from
    the first tick on, and the snapshot and [increment], which raised an
    error on the empty window, succeed from then on. *)
Theorem rotation_of_empty_window_adds_a_bucket (s : Status.t) (k : nat) :
  Status.rotationTimer s = true ->
  Status.buckets s = [] ->
  Status.stats s = None
  /\ Status.buckets (Nat.iter (S k) Status.rotationTick s)
     = [Status.createBucket]
  /\ is_Some (Status.stats (Nat.iter (S k) Status.rotationTick s))
  /\ forall property latency,
       is_Some (Status.increment property latency
                  (Nat.iter (S k) Status.rotationTick s)).
Proof.
  intros Ht Hb.
  assert (H : Status.buckets (Nat.iter (S k) Status.rotationTick s)
              = [Status.createBucket]).
  { induction k as [|k IH].
    - simpl. unfold Status.rotationTick. rewrite Ht. simpl. by rewrite Hb.
    - change (Nat.iter (S (S k)) Status.rotationTick s)
        with (Status.rotationTick (Nat.iter (S k) Status.rotationTick s)).
      unfold Status.rotationTick at 1.
      rewrite rotationTick_iter_timer, Ht. simpl Status.buckets at 1.
      change (Nat.iter k Status.rotationTick s)
        with (Nat.iter k Status.rotationTick s).
      simpl in IH. simpl. by rewrite IH. }
  split; [by apply stats_None|]. split; [exact H|].
  split.
  - apply stats_is_Some. by rewrite H.
  - intros property latency. apply increment_is_Some. by rewrite H.
Qed.

Lemma rotation_of_empty_window_adds_a_bucket_witness :
  Status.stats (Status.constructor (StatusOptions.mk 0 10000 None)) = None
  /\ is_Some (Status.stats
                (Status.rotationTick
                   (Status.constructor (StatusOptions.mk 0 10000 None)))).
Proof.
  destruct (rotation_of_empty_window_adds_a_bucket
              (Status.constructor (StatusOptions.mk 0 10000 None)) 0
              eq_refl eq_refl) as (H0 & _ & H1 & _).
  split; [exact H0|exact H1].
Defined.

(** X3.  The mean latency of the snapshot, whatever the order of the
    samples and whether or not percentiles are enabled.  It is 0 when there
    is no sample.  When no sample is negative and the sum of the samples is
    below 2^53, the sum is computed without rounding and the mean is the
    double nearest to the arithmetic mean of the samples; it is the
    arithmetic mean itself when that is an integer. *)
Theorem latency_mean_is_nearest_average (s : Status.t) (st : Stats.t) :
  Status.stats s = Some st ->
  let l := window_latencies s in
  (l = [] -> Stats.latencyMean st = 0%Q)
  /\ (l <> [] ->
      Forall (fun x => (0 <= x)%Z) l ->
      (total l < 2 ^ 53)%Z ->
      Stats.latencyMean st
      = Binary64.nearest
          (inject_Z (total l) / inject_Z (Z.of_nat (length l)))
      /\ forall k : Z,
           total l = (k * Z.of_nat (length l))%Z ->
           Stats.latencyMean st = inject_Z k).
Proof.
  intros Hst l. rewrite (stats_latencyMean s st Hst). fold l.
  pose proof (sort_ascending_Permutation l) as Hp.
  split.
  - intros ->. reflexivity.
  - intros Hne Hall Hlt.
    assert (Hne' : Status.sort_ascending l <> []).
    { intros E. rewrite E in Hp. apply Permutation_nil_l in Hp. done. }
    assert (Hmean : Status.mean (Status.sort_ascending l)
                    = Binary64.nearest
                        (inject_Z (total l)
                         / inject_Z (Z.of_nat (length l)))).
    { rewrite mean_nearest; [|done| |].
      - by rewrite (Permutation_length Hp), (total_Permutation _ _ Hp).
      - by rewrite Hp.
      - by rewrite (total_Permutation _ _ Hp). }
    split; [exact Hmean|].
    intros k Hk. rewrite Hmean.
    apply nonempty_length in Hne.
    assert (Hn : (0 < Z.of_nat (length l))%Z) by lia.
    assert (Hnn : (0 <= total l)%Z).
    { clear -Hall. induction Hall as [|y l' Hy Hl IH]; [done|].
      change (total (y :: l')) with (y + total l')%Z. lia. }
    assert (Hk0 : (0 <= k < 2 ^ 53)%Z) by nia.
    rewrite (nearest_proper _ (inject_Z k)); [by apply nearest_inject_Z|].
    rewrite Hk, inject_Z_mult. field.
    intros E. unfold Qeq in E. simpl in E. lia.
Qed.

Lemma latency_mean_is_nearest_average_witness :
  exists s st,
    record_samples [2; 1; 2]%Z
      (Status.constructor (StatusOptions.mk 10 10000 (Some false))) = Some s
    /\ Status.stats s = Some st
    /\ Stats.latencyMean st = (7505999378950827 # 4503599627370496)%Q.
Proof.
  destruct (record_samples [2; 1; 2]%Z
              (Status.constructor (StatusOptions.mk 10 10000 (Some false))))
    as [s|] eqn:E; [|vm_compute in E; discriminate].
  destruct (Status.stats s) as [st|] eqn:Est.
  2:{ vm_compute in E. injection E as <-. vm_compute in Est. discriminate. }
  assert (El : window_latencies s = [2; 1; 2]%Z).
  { vm_compute in E. injection E as <-. reflexivity. }
  destruct (latency_mean_is_nearest_average s st Est) as [_ H].
  rewrite El in H.
  destruct H as [Hm _]; [done|by repeat constructor|reflexivity|].
  exists s, st. split; [reflexivity|]. split; [exact Est|].
  rewrite Hm. vm_compute. reflexivity.
Defined.

(** X4.  The percentile of the ascending samples is 0 when there is no
    sample, is one of the samples otherwise, and grows with the level: a
    higher level never reports a smaller latency. *)
Theorem percentiles_are_monotone (samples : list Z) (p q : Q) :
  let l := Status.sort_ascending samples in
  (samples = [] -> Status.calculatePercentile p l = 0%Z)
  /\ (samples <> [] -> Status.calculatePercentile p l ∈ samples)
  /\ ((p <= q)%Q ->
      (Status.calculatePercentile p l <= Status.calculatePercentile q l)%Z).
Proof.
  intros l.
  pose proof (sort_ascending_Permutation samples) as Hp. fold l in Hp.
  pose proof (sort_ascending_Sorted samples) as Hs. fold l in Hs.
  split; [|split].
  - intros ->. reflexivity.
  - intros Hne. rewrite <- Hp. apply calculatePercentile_elem_of; [exact Hs|].
    intros E. rewrite E in Hp. apply Permutation_nil_l in Hp. done.
  - intros Hpq. by apply calculatePercentile_mono.
Qed.

Lemma percentiles_are_monotone_witness :
  (Status.calculatePercentile (1 # 4)
     (Status.sort_ascending [250; 50; 200; 100; 150]%Z)
   <= Status.calculatePercentile (3 # 4)
        (Status.sort_ascending [250; 50; 200; 100; 150]%Z))%Z.
Proof.
  destruct (percentiles_are_monotone [250; 50; 200; 100; 150]%Z
              (1 # 4) (3 # 4)) as (_ & _ & H).
  apply H. unfold Qle. simpl. lia.
Defined.

(** X5.  With percentiles disabled the snapshot reports 0 at every
    configured level, whatever the samples are, while the sorted samples
    are still part of the snapshot. *)
Theorem disabled_percentiles_report_zero
    (s : Status.t) (st : Stats.t) (p : Q) :
  Status.rollingPercentilesEnabled s = false ->
  Status.stats s = Some st ->
  p ∈ Status.percentiles s ->
  dict_get p (Stats.percentiles st) = Some 0%Z
  /\ Stats.latencyTimes st = Status.sort_ascending (window_latencies s).
Proof.
  intros Hoff Hst Hp. split.
  - rewrite (stats_percentiles s st Hst), Hoff. simpl.
    apply dict_get_fill_zero. by left.
  - by apply stats_latencyTimes.
Qed.

Lemma disabled_percentiles_report_zero_witness :
  exists s st,
    record_samples [300; 100; 200]%Z
      (Status.constructor (StatusOptions.mk 10 10000 (Some false))) = Some s
    /\ Status.stats s = Some st
    /\ dict_get (1 # 2) (Stats.percentiles st) = Some 0%Z
    /\ Stats.latencyTimes st = [100; 200; 300]%Z.
Proof.
  destruct (record_samples [300; 100; 200]%Z
              (Status.constructor (StatusOptions.mk 10 10000 (Some false))))
    as [s|] eqn:E; [|vm_compute in E; discriminate].
  destruct (Status.stats s) as [st|] eqn:Est.
  2:{ vm_compute in E. injection E as <-. vm_compute in Est. discriminate. }
  assert (El : window_latencies s = [300; 100; 200]%Z).
  { vm_compute in E. injection E as <-. reflexivity. }
  assert (Eoff : Status.rollingPercentilesEnabled s = false).
  { vm_compute in E. injection E as <-. reflexivity. }
  assert (Ep : (1 # 2)%Q ∈ Status.percentiles s).
  { vm_compute in E. injection E as <-. simpl.
    unfold Status.default_percentiles. set_solver. }
  destruct (disabled_percentiles_report_zero s st (1 # 2) Eoff Est Ep)
    as (H0 & Hl).
  exists s, st. split; [reflexivity|]. split; [exact Est|].
  split; [exact H0|]. rewrite Hl, El. reflexivity.
Defined.

(** ** Further properties of the circuit breaker *)

(** *** What the methods leave as it is *)

Section FrameFacts.

Implicit Types (w : CB.t) (ts : Timers.t) (id : nat).

Lemma callback_of_pending id ts c :
  Timers.callback_of id ts = Some c
  <-> exists delay, Timers.pending ts !! id = Some (c, delay).
Proof.
  unfold Timers.callback_of.
  destruct (Timers.pending ts !! id) as [[c' d]|]; simpl; split.
  - intros [= <-]. eauto.
  - by intros [d' [= <- _]].
  - done.
  - by intros [d' ?].
Qed.

Lemma pending_fresh w id x :
  invariant w -> Timers.pending (CB.timers w) !! id = Some x ->
  id < Timers.next (CB.timers w).
Proof.
  intros Hi H. destruct x as [c d].
  eapply (inv_fresh _ Hi id c). apply callback_of_pending. eauto.
Qed.

Lemma pending_clearTimeout id id' ts :
  Timers.pending (Timers.clearTimeout id' ts) !! id
  = if decide (id = id') then None else Timers.pending ts !! id.
Proof.
  simpl. case_decide as E.
  - subst. by rewrite lookup_delete_eq.
  - by rewrite lookup_delete_ne.
Qed.

Lemma pending_clearHandle id h ts :
  Timers.pending (Timers.clearHandle h ts) !! id
  = if decide (h = Some id) then None else Timers.pending ts !! id.
Proof.
  destruct h as [id'|]; simpl.
  - case_decide as E.
    + injection E as ->. by rewrite lookup_delete_eq.
    + rewrite lookup_delete_ne; [done|congruence].
  - try case_decide; done.
Qed.

Lemma pending_clearHandle_Some id h ts x :
  Timers.pending (Timers.clearHandle h ts) !! id = Some x ->
  Timers.pending ts !! id = Some x /\ h <> Some id.
Proof. rewrite pending_clearHandle. by case_decide. Qed.

Lemma pending_clearTimeout_Some id id' ts x :
  Timers.pending (Timers.clearTimeout id' ts) !! id = Some x ->
  Timers.pending ts !! id = Some x /\ id <> id'.
Proof. rewrite pending_clearTimeout. by case_decide. Qed.

Lemma open_rotationTimer (s s' : Status.t) :
  Status.open s = Some s' ->
  Status.rotationTimer s' = Status.rotationTimer s.
Proof.
  unfold Status.open. destruct (Status.buckets s); [done|]. by intros [= <-].
Qed.

Lemma close_rotationTimer (s s' : Status.t) :
  Status.close s = Some s' ->
  Status.rotationTimer s' = Status.rotationTimer s.
Proof.
  unfold Status.close. destruct (Status.buckets s); [done|].
  by intros [= <-].
Qed.

Lemma increment_rotationTimer q latency (s s' : Status.t) :
  Status.increment q latency s = Some s' ->
  Status.rotationTimer s' = Status.rotationTimer s.
Proof.
  unfold Status.increment. destruct (Status.buckets s); [done|].
  by intros [= <-].
Qed.

Lemma rotationTick_rotationTimer (s : Status.t) :
  Status.rotationTimer (Status.rotationTick s) = Status.rotationTimer s.
Proof.
  unfold Status.rotationTick. by destruct (Status.rotationTimer s) eqn:E.
Qed.

Lemma frame_refl w : invariant w -> frame w w.
Proof.
  intros Hi. split; try done.
  - by left.
  - intros id c delay Hle H%(pending_fresh _ _ _ Hi). lia.
Qed.

Lemma frame_trans w1 w2 w3 : frame w1 w2 -> frame w2 w3 -> frame w1 w3.
Proof.
  intros [Ho1 Hw1 Hn1 Hold1 Hnew1 Hf1 Hr1 Hl1] [Ho2 Hw2 Hn2 Hold2 Hnew2 Hf2 Hr2 Hl2].
  split; try congruence; auto.
  - lia.
  - intros id Hid.
    destruct (Hold2 id) as [E2|E2]; [lia| |by right].
    destruct (Hold1 id Hid) as [E1|E1]; [left|right]; congruence.
  - intros id c delay Hle H.
    destruct (Nat.lt_ge_cases id (Timers.next (CB.timers w2))) as [Hlt|Hge].
    + destruct (Hold2 id Hlt) as [E2|E2]; [|congruence].
      rewrite E2 in H. by eapply Hnew1.
    + by eapply Hnew2.
  - by etrans.
Qed.

(** A change of the window only. *)
Lemma frame_set_status w (s : Status.t) :
  invariant w ->
  (Status.rotationTimer (CB.status w) = false ->
   Status.rotationTimer s = false) ->
  frame w (CB.set_status s w).
Proof.
  intros Hi Hr. split; simpl; try done.
  - by left.
  - intros id c delay Hle H%(pending_fresh _ _ _ Hi). lia.
Qed.

Lemma frame_increment w q latency (s : Status.t) :
  invariant w ->
  Status.increment q latency (CB.status w) = Some s ->
  frame w (CB.set_status s w).
Proof.
  intros Hi Hs. apply frame_set_status; [done|].
  by rewrite (increment_rotationTimer _ _ _ _ Hs).
Qed.

(** Timers are cancelled. *)
Lemma frame_cancel w ts :
  invariant w ->
  Timers.next ts = Timers.next (CB.timers w) ->
  (forall id x, Timers.pending ts !! id = Some x ->
                Timers.pending (CB.timers w) !! id = Some x) ->
  frame w (CB.set_timers ts w).
Proof.
  intros Hi Hn Hsub. split; simpl; try done.
  - lia.
  - intros id Hid. destruct (Timers.pending ts !! id) as [x|] eqn:E.
    + left. by rewrite (Hsub _ _ E).
    + by right.
  - intros id c delay Hle H%Hsub%(pending_fresh _ _ _ Hi). lia.
Qed.

Lemma frame_clearHandle w h :
  invariant w ->
  frame w (CB.set_timers (Timers.clearHandle h (CB.timers w)) w).
Proof.
  intros Hi. apply frame_cancel; [done|apply next_clearHandle|].
  by intros id x [H _]%pending_clearHandle_Some.
Qed.

Lemma frame_clearTimeout w id :
  invariant w ->
  frame w (CB.set_timers (Timers.clearTimeout id (CB.timers w)) w).
Proof.
  intros Hi. apply frame_cancel; [done|done|].
  by intros id' x [H _]%pending_clearTimeout_Some.
Qed.

Lemma frame_open w w' : invariant w -> CB.open w = Some w' -> frame w w'.
Proof.
  intros Hi. unfold CB.open.
  destruct (negb _); simpl; [|intros [= <-]; by apply frame_refl].
  destruct (Status.open (CB.status w)) as [s|] eqn:Hs; simpl; [|done].
  intros [= <-]. unfold CB.startTimer. split; simpl; try done.
  - lia.
  - intros id Hid. left. rewrite lookup_insert_ne; [done|lia].
  - intros id c delay Hle.
    destruct (decide (id = Timers.next (CB.timers w))) as [->|Hne].
    + rewrite lookup_insert_eq. by intros [= <- _].
    + rewrite lookup_insert_ne by done.
      intros H%(pending_fresh _ _ _ Hi). lia.
  - by rewrite (open_rotationTimer _ _ Hs).
Qed.

Lemma frame_close w w' : invariant w -> CB.close w = Some w' -> frame w w'.
Proof.
  intros Hi. unfold CB.close.
  destruct (negb _); simpl; [|intros [= <-]; by apply frame_refl].
  destruct (Status.close (CB.status w)) as [s|] eqn:Hs; simpl; [|done].
  intros [= <-]. split; simpl; try done.
  - by rewrite next_clearHandle.
  - intros id Hid. rewrite pending_clearHandle. case_decide; auto.
  - intros id c delay Hle [H _]%pending_clearHandle_Some.
    apply (pending_fresh _ _ _ Hi) in H. lia.
  - by rewrite (close_rotationTimer _ _ Hs).
Qed.

Lemma frame_shutdown w : invariant w -> frame w (CB.shutdown w).
Proof.
  intros Hi. unfold CB.shutdown. split; simpl; try done.
  - by rewrite !next_clearHandle.
  - intros id Hid. rewrite !pending_clearHandle. repeat case_decide; auto.
  - intros id c delay Hle
      [[H _]%pending_clearHandle_Some _]%pending_clearHandle_Some.
    apply (pending_fresh _ _ _ Hi) in H. lia.
Qed.

Lemma frame_fail w w' : invariant w -> CB.fail w = Some w' -> frame w w'.
Proof.
  intros Hi. unfold CB.fail.
  destruct (Status.increment _ _ _) as [s|] eqn:Hs; simpl; [|done].
  pose proof (invariant_increment _ _ _ _ Hi Hs) as Hi'.
  pose proof (frame_increment _ _ _ _ Hi Hs) as Hf.
  destruct (CB.warmUp w); [by intros [= <-]|].
  destruct (Status.stats s) as [st|]; simpl; [|done].
  destruct (_ && _); [by intros [= <-]|].
  destruct (_ || _); [|by intros [= <-]].
  intros H. eapply frame_trans; [exact Hf|]. by apply frame_open.
Qed.

Lemma frame_success w w' :
  invariant w -> CB.success w = Some w' -> frame w w'.
Proof.
  intros Hi. unfold CB.success.
  destruct (Status.increment _ _ _) as [s|] eqn:Hs; simpl; [|done].
  pose proof (invariant_increment _ _ _ _ Hi Hs) as Hi'.
  pose proof (frame_increment _ _ _ _ Hi Hs) as Hf.
  destruct (State.eqb _ _); [|by intros [= <-]].
  intros H. eapply frame_trans; [exact Hf|]. by apply frame_close.
Qed.

Lemma frame_onTimeout startedAt now w w' :
  invariant w -> CB.onTimeout startedAt now w = Some w' -> frame w w'.
Proof.
  intros Hi. unfold CB.onTimeout.
  destruct (Status.increment _ _ _) as [s|] eqn:Hs; simpl; [|done].
  intros H. eapply frame_trans; [by eapply frame_increment|].
  apply frame_fail; [|done]. by eapply invariant_increment.
Qed.

Lemma frame_middleware now w w' a :
  invariant w -> CB.middleware now w = Some (w', a) -> frame w w'.
Proof.
  intros Hi. unfold CB.middleware.
  destruct (negb _); [intros [= <- _]; by apply frame_refl|].
  unfold CB.countInvocation.
  destruct (Status.increment _ _ _) as [s|] eqn:Hs; simpl; [|done].
  pose proof (frame_increment _ _ _ _ Hi Hs) as Hf.
  destruct (_ && _); [by intros [= <- _]|].
  destruct (Options.timeout (CB.options w)) as [delay|]; simpl;
    intros [= <- _].
  - split; simpl; try done.
    + lia.
    + intros id Hid. left. rewrite lookup_insert_ne; [done|lia].
    + intros id c d Hle.
      destruct (decide (id = Timers.next (CB.timers w))) as [->|Hne].
      * rewrite lookup_insert_eq. by intros [= <- _].
      * rewrite lookup_insert_ne by done.
        intros H%(pending_fresh _ _ _ Hi). lia.
    + by rewrite (increment_rotationTimer _ _ _ _ Hs).
    + by apply prefix_app_r.
  - split; simpl; try done.
    + by left.
    + intros id c d Hle H%(pending_fresh _ _ _ Hi). lia.
    + by rewrite (increment_rotationTimer _ _ _ _ Hs).
    + by apply prefix_app_r.
Qed.

Lemma frame_onFinish inv statusCode now w w' :
  invariant w -> CB.onFinish inv statusCode now w = Some w' -> frame w w'.
Proof.
  intros Hi. unfold CB.onFinish. simpl.
  pose proof (frame_clearHandle w (Invocation.timeoutId inv) Hi) as Hf.
  pose proof (invariant_clearHandle w (Invocation.timeoutId inv) Hi) as Hi'.
  destruct (Options.isError _ _); intros H;
    (eapply frame_trans; [exact Hf|]).
  - by apply frame_fail.
  - by apply frame_success.
Qed.

Lemma frame_onClose inv now w w' :
  invariant w -> CB.onClose inv now w = Some w' -> frame w w'.
Proof.
  intros Hi. unfold CB.onClose.
  pose proof (frame_clearHandle w (Invocation.timeoutId inv) Hi) as Hf.
  pose proof (invariant_clearHandle w (Invocation.timeoutId inv) Hi) as Hi'.
  intros H. eapply frame_trans; [exact Hf|]. by apply frame_fail.
Qed.

Lemma invariant_clearTimeout w id :
  invariant w ->
  invariant (CB.set_timers (Timers.clearTimeout id (CB.timers w)) w).
Proof.
  intros Hi. apply invariant_set_timers; [done| |].
  - intros id' c' [H _]%callback_of_clearTimeout_Some. by left.
  - intros id' c' [H _]%callback_of_clearTimeout_Some. simpl.
    by eapply inv_fresh.
Qed.

Lemma frame_fireTimer id now w w' :
  invariant w -> CB.fireTimer id now w = Some w' -> frame w w'.
Proof.
  intros Hi. unfold CB.fireTimer.
  destruct (Timers.callback_of id (CB.timers w)) as [c|] eqn:Hc;
    [|intros [= <-]; by apply frame_refl].
  pose proof (frame_clearTimeout w id Hi) as Hf.
  pose proof (invariant_clearTimeout w id Hi) as Hi'.
  destruct c as [| |startedAt].
  - intros [= <-]. destruct Hf. by split.
  - intros [= <-]. destruct Hf. by split.
  - intros H. eapply frame_trans; [exact Hf|]. by eapply frame_onTimeout.
Qed.

Lemma frame_rotation w : invariant w -> frame w (CB.rotation w).
Proof.
  intros Hi. apply frame_set_status; [done|].
  by rewrite rotationTick_rotationTimer.
Qed.

Lemma frame_step e w w' : invariant w -> CB.step e w = Some w' -> frame w w'.
Proof.
  intros Hi. destruct e; simpl.
  - destruct (CB.middleware now w) as [[w1 a]|] eqn:H; simpl; [|done].
    intros [= <-]. by eapply frame_middleware.
  - destruct (CB.listeners w !! listener);
      [|intros [= <-]; by apply frame_refl].
    by apply frame_onFinish.
  - destruct (CB.listeners w !! listener);
      [|intros [= <-]; by apply frame_refl].
    by apply frame_onClose.
  - by apply frame_fireTimer.
  - intros [= <-]. by apply frame_rotation.
  - by apply frame_open.
  - by apply frame_close.
  - by apply frame_success.
  - intros [= <-]. by apply frame_shutdown.
Qed.

Lemma frame_run events : forall w w',
  invariant w -> CB.run events w = Some w' -> frame w w'.
Proof.
  induction events as [|e events IH]; intros w w' Hi; simpl.
  - intros [= <-]. by apply frame_refl.
  - destruct (CB.step e w) as [w1|] eqn:H; simpl; [|done].
    intros Hrun. eapply frame_trans; [by eapply frame_step|].
    apply IH; [|done]. by eapply invariant_step.
Qed.

End FrameFacts.

(** *** Timers and listeners *)

Section WiringFacts.

Implicit Types (w : CB.t) (id : nat).

(** Nothing is added to the timers, and the reset timer of an open
    circuit is not touched. *)
Lemma wiring_cancel w w' :
  wiring w ->
  CB.options w' = CB.options w ->
  CB.warmupTimeout w' = CB.warmupTimeout w ->
  CB.resetTimeout w' = CB.resetTimeout w ->
  CB.listeners w' = CB.listeners w ->
  Timers.next (CB.timers w') = Timers.next (CB.timers w) ->
  (forall id x, Timers.pending (CB.timers w') !! id = Some x ->
                Timers.pending (CB.timers w) !! id = Some x) ->
  (CB.state w' = State.open ->
   CB.state w = State.open
   /\ forall id, CB.resetTimeout w = Some id ->
                 Timers.pending (CB.timers w') !! id
                 = Timers.pending (CB.timers w) !! id) ->
  wiring w'.
Proof.
  intros [Hr Hl Hd Hw Hwd] Eo Ew Er El En Hsub Hopen. split.
  - intros Hst. destruct (Hopen Hst) as [Hst' Hsame].
    destruct (Hr Hst') as (id & Hid & Hp).
    exists id. split; [congruence|]. rewrite Eo, (Hsame id Hid). exact Hp.
  - intros inv id Hin Hid. rewrite El in Hin.
    destruct (Hl inv id Hin Hid) as [Hlt Hc].
    split; [congruence|].
    intros c [d Hp%Hsub]%callback_of_pending. apply Hc.
    apply callback_of_pending. eauto.
  - intros id startedAt delay Hp%Hsub. rewrite Eo. by eapply Hd.
  - intros id Hid. rewrite En. apply Hw. congruence.
  - intros id delay Hp%Hsub. rewrite Eo. by eapply Hwd.
Qed.

Lemma wiring_set_status w (s : Status.t) :
  wiring w -> wiring (CB.set_status s w).
Proof. intros Hw. by eapply wiring_cancel. Qed.

Lemma wiring_constructor options w :
  CB.constructor options = Some w -> wiring w.
Proof.
  intros Hc. destruct (constructor_Some _ _ Hc) as (_ & _ & ->).
  destruct (Options.allowWarmUp options); split; simpl; try done.
  - intros inv id Hin. by apply elem_of_nil in Hin.
  - intros id startedAt delay.
    destruct (decide (id = 0)) as [->|Hne].
    + by rewrite lookup_insert_eq.
    + by rewrite lookup_insert_ne, lookup_empty.
  - intros id [= <-]. lia.
  - intros id delay.
    destruct (decide (id = 0)) as [->|Hne].
    + rewrite lookup_insert_eq. by intros [= <-].
    + by rewrite lookup_insert_ne, lookup_empty.
  - intros inv id Hin. by apply elem_of_nil in Hin.
Qed.

Lemma wiring_open w w' :
  invariant w -> wiring w -> CB.open w = Some w' -> wiring w'.
Proof.
  intros Hi Hw. unfold CB.open.
  destruct (negb _); simpl; [|by intros [= <-]].
  destruct (Status.open (CB.status w)) as [s|] eqn:Hs; simpl; [|done].
  intros [= <-]. destruct Hw as [Hr Hl Hd Hwu Hwd].
  unfold CB.startTimer. split; simpl.
  - intros _. eexists. split; [reflexivity|]. by rewrite lookup_insert_eq.
  - intros inv id Hin Hid. destruct (Hl inv id Hin Hid) as [Hlt Hc].
    split; [lia|]. intros c. rewrite callback_of_insert.
    case_decide; [lia|]. apply Hc.
  - intros id startedAt delay.
    destruct (decide (id = Timers.next (CB.timers w))) as [->|Hne].
    + by rewrite lookup_insert_eq.
    + rewrite lookup_insert_ne by done. apply Hd.
  - intros id Hid%Hwu. lia.
  - intros id delay.
    destruct (decide (id = Timers.next (CB.timers w))) as [->|Hne].
    + by rewrite lookup_insert_eq.
    + rewrite lookup_insert_ne by done. apply Hwd.
Qed.

Lemma wiring_close w w' :
  wiring w -> CB.close w = Some w' -> wiring w'.
Proof.
  intros Hw. unfold CB.close.
  destruct (negb _); simpl; [|by intros [= <-]].
  destruct (Status.close (CB.status w)) as [s|] eqn:Hs; simpl; [|done].
  intros [= <-]. eapply wiring_cancel; try done; simpl.
  - apply next_clearHandle.
  - by intros id x [H _]%pending_clearHandle_Some.
Qed.

Lemma wiring_shutdown w : wiring w -> wiring (CB.shutdown w).
Proof.
  intros Hw. unfold CB.shutdown.
  eapply wiring_cancel; try done; simpl.
  - by rewrite !next_clearHandle.
  - by intros id x [[H _]%pending_clearHandle_Some _]%pending_clearHandle_Some.
Qed.

Lemma wiring_fail w w' :
  invariant w -> wiring w -> CB.fail w = Some w' -> wiring w'.
Proof.
  intros Hi Hw. unfold CB.fail.
  destruct (Status.increment _ _ _) as [s|] eqn:Hs; simpl; [|done].
  pose proof (invariant_increment _ _ _ _ Hi Hs) as Hi'.
  pose proof (wiring_set_status w s Hw) as Hw'.
  destruct (CB.warmUp w); [by intros [= <-]|].
  destruct (Status.stats s) as [st|]; simpl; [|done].
  destruct (_ && _); [by intros [= <-]|].
  destruct (_ || _); [|by intros [= <-]].
  by apply wiring_open.
Qed.

Lemma wiring_success w w' :
  wiring w -> CB.success w = Some w' -> wiring w'.
Proof.
  intros Hw. unfold CB.success.
  destruct (Status.increment _ _ _) as [s|] eqn:Hs; simpl; [|done].
  pose proof (wiring_set_status w s Hw) as Hw'.
  destruct (State.eqb _ _); [|by intros [= <-]].
  by apply wiring_close.
Qed.

Lemma wiring_onTimeout startedAt now w w' :
  invariant w -> wiring w -> CB.onTimeout startedAt now w = Some w' ->
  wiring w'.
Proof.
  intros Hi Hw. unfold CB.onTimeout.
  destruct (Status.increment _ _ _) as [s|] eqn:Hs; simpl; [|done].
  apply wiring_fail; [by eapply invariant_increment|].
  by apply wiring_set_status.
Qed.

Lemma wiring_middleware now w w' a :
  invariant w -> wiring w -> CB.middleware now w = Some (w', a) ->
  wiring w'.
Proof.
  intros Hi Hw. unfold CB.middleware.
  destruct (negb _); [by intros [= <- _]|].
  unfold CB.countInvocation.
  destruct (Status.increment _ _ _) as [s|] eqn:Hs; simpl; [|done].
  pose proof (wiring_set_status w s Hw) as Hw'.
  destruct (_ && _); [by intros [= <- _]|].
  destruct Hw as [Hr Hl Hd Hwu Hwd].
  destruct (Options.timeout (CB.options w)) as [delay|] eqn:Ht; simpl;
    intros [= <- _]; split; simpl.
  - intros Hst. destruct (Hr Hst) as (id & Hid & Hp).
    exists id. split; [done|]. rewrite lookup_insert_ne; [done|].
    apply (pending_fresh _ _ _ Hi) in Hp. lia.
  - intros inv id [Hin|Hin]%elem_of_app Hid.
    + destruct (Hl inv id Hin Hid) as [Hlt Hc].
      split; [lia|]. intros c. rewrite callback_of_insert.
      case_decide; [lia|]. apply Hc.
    + apply list_elem_of_singleton in Hin. subst inv. simpl in *.
      injection Hid as <-. split; [lia|].
      intros c. rewrite callback_of_insert. case_decide; [|done].
      by intros [= <-].
  - intros id startedAt delay'.
    destruct (decide (id = Timers.next (CB.timers w))) as [->|Hne].
    + rewrite lookup_insert_eq. by intros [= _ <-].
    + rewrite lookup_insert_ne by done. intros H. rewrite Ht.
      by eapply Hd.
  - intros id Hid%Hwu. lia.
  - intros id delay'.
    destruct (decide (id = Timers.next (CB.timers w))) as [->|Hne].
    + by rewrite lookup_insert_eq.
    + rewrite lookup_insert_ne by done. apply Hwd.
  - exact Hr.
  - intros inv id [Hin|Hin]%elem_of_app Hid.
    + by apply Hl.
    + apply list_elem_of_singleton in Hin. by subst inv.
  - intros id startedAt delay H. rewrite Ht. by eapply Hd.
  - exact Hwu.
  - exact Hwd.
Qed.

(** A listener cancels its own deadline timer. *)
Lemma wiring_clear_deadline w inv :
  wiring w -> inv ∈ CB.listeners w ->
  wiring (CB.set_timers
            (Timers.clearHandle (Invocation.timeoutId inv) (CB.timers w)) w).
Proof.
  intros Hw Hin. eapply wiring_cancel; try done; simpl.
  - apply next_clearHandle.
  - by intros id x [H _]%pending_clearHandle_Some.
  - intros Hst. split; [done|]. intros id Hid.
    rewrite pending_clearHandle. case_decide as E; [|done].
    destruct (wired_reset _ Hw Hst) as (id' & Hid' & Hp).
    assert (id' = id) by congruence. subst id'.
    destruct (wired_listeners _ Hw inv id Hin E) as [_ Hc].
    specialize (Hc ResetCallback). rewrite callback_of_pending in Hc.
    discriminate Hc. eauto.
Qed.

Lemma wiring_onFinish inv statusCode now w w' :
  invariant w -> wiring w -> inv ∈ CB.listeners w ->
  CB.onFinish inv statusCode now w = Some w' -> wiring w'.
Proof.
  intros Hi Hw Hin. unfold CB.onFinish. simpl.
  pose proof (wiring_clear_deadline w inv Hw Hin) as Hw'.
  pose proof (invariant_clearHandle w (Invocation.timeoutId inv) Hi) as Hi'.
  destruct (Options.isError _ _).
  - by apply wiring_fail.
  - by apply wiring_success.
Qed.

Lemma wiring_onClose inv now w w' :
  invariant w -> wiring w -> inv ∈ CB.listeners w ->
  CB.onClose inv now w = Some w' -> wiring w'.
Proof.
  intros Hi Hw Hin. unfold CB.onClose.
  pose proof (wiring_clear_deadline w inv Hw Hin) as Hw'.
  pose proof (invariant_clearHandle w (Invocation.timeoutId inv) Hi) as Hi'.
  by apply wiring_fail.
Qed.

Lemma wiring_fireTimer id now w w' :
  invariant w -> wiring w -> CB.fireTimer id now w = Some w' -> wiring w'.
Proof.
  intros Hi Hw. unfold CB.fireTimer.
  destruct (Timers.callback_of id (CB.timers w)) as [c|] eqn:Hc;
    [|by intros [= <-]].
  pose proof (invariant_clearTimeout w id Hi) as Hi'.
  assert (Hother : c <> ResetCallback ->
            wiring (CB.set_timers (Timers.clearTimeout id (CB.timers w)) w)).
  { intros Hne. eapply wiring_cancel; try done; simpl.
    - by intros id' x [H _]%pending_clearTimeout_Some.
    - intros Hst. split; [done|]. intros id' Hid'.
      rewrite lookup_delete_ne; [done|]. intros ->.
      destruct (wired_reset _ Hw Hst) as (id'' & Hid'' & Hp).
      assert (id'' = id') by congruence. subst id''.
      assert (Hc' : Timers.callback_of id' (CB.timers w) = Some ResetCallback).
      { apply callback_of_pending. eauto. }
      congruence. }
  destruct c as [| |startedAt].
  - intros [= <-]. eapply wiring_cancel; try done; simpl.
    by intros id' x [H _]%pending_clearTimeout_Some.
  - intros [= <-]. eapply wiring_cancel; [by apply Hother|..]; done.
  - intros H. eapply wiring_onTimeout; [exact Hi'| |exact H].
    by apply Hother.
Qed.

Lemma wiring_step e w w' :
  invariant w -> wiring w -> CB.step e w = Some w' -> wiring w'.
Proof.
  intros Hi Hw. destruct e; simpl.
  - destruct (CB.middleware now w) as [[w1 a]|] eqn:H; simpl; [|done].
    intros [= <-]. by eapply wiring_middleware.
  - destruct (CB.listeners w !! listener) as [inv|] eqn:E;
      [|by intros [= <-]].
    apply wiring_onFinish; try done. by eapply list_elem_of_lookup_2.
  - destruct (CB.listeners w !! listener) as [inv|] eqn:E;
      [|by intros [= <-]].
    apply wiring_onClose; try done. by eapply list_elem_of_lookup_2.
  - by apply wiring_fireTimer.
  - intros [= <-]. by apply wiring_set_status.
  - by apply wiring_open.
  - by apply wiring_close.
  - by apply wiring_success.
  - intros [= <-]. by apply wiring_shutdown.
Qed.

Lemma wiring_run events : forall w w',
  invariant w -> wiring w -> CB.run events w = Some w' -> wiring w'.
Proof.
  induction events as [|e events IH]; intros w w' Hi Hw; simpl.
  - by intros [= <-].
  - destruct (CB.step e w) as [w1|] eqn:H; simpl; [|done].
    apply IH; [by eapply invariant_step|by eapply wiring_step].
Qed.

Lemma reachable_wiring w : CB.reachable w -> wiring w.
Proof.
  induction 1 as [options w H|e w w' Hr IH H].
  - by eapply wiring_constructor.
  - eapply wiring_step; [|exact IH|exact H]. by apply reachable_invariant.
Qed.

End WiringFacts.

(** *** Buckets and counters along the events *)

Section CounterFacts.

Implicit Types (w : CB.t) (s : Status.t) (b : Bucket.t).

Lemma bucket_ok_createBucket : bucket_ok Status.createBucket.
Proof. split; simpl; lia. Qed.

Lemma window_ok_constructor options :
  window_ok (Status.constructor options).
Proof.
  unfold window_ok. simpl. apply Forall_replicate, bucket_ok_createBucket.
Qed.

Lemma window_ok_increment q s s' :
  q <> Timeouts -> window_ok s ->
  Status.increment q None s = Some s' -> window_ok s'.
Proof.
  unfold window_ok, Status.increment. intros Hq Hok.
  destruct (Status.buckets s) as [|b bs]; [done|]. intros [= <-]. simpl.
  apply Forall_cons in Hok as [[Hl Ht] Hbs].
  constructor; [|done]. destruct q; try done; split; simpl; lia.
Qed.

(** A deadline that expires stores a sample with the timeout, and the
    failure follows in the same bucket. *)
Lemma window_ok_timeout latency s s1 s2 :
  window_ok s ->
  Status.increment Timeouts (Some latency) s = Some s1 ->
  Status.increment Failures None s1 = Some s2 ->
  window_ok s2.
Proof.
  unfold window_ok, Status.increment. intros Hok.
  destruct (Status.buckets s) as [|b bs]; [done|]. intros [= <-]. simpl.
  intros [= <-]. simpl.
  apply Forall_cons in Hok as [[Hl Ht] Hbs].
  constructor; [|done]. split; simpl.
  - rewrite length_app. simpl. lia.
  - lia.
Qed.

Lemma window_ok_open s s' :
  window_ok s -> Status.open s = Some s' -> window_ok s'.
Proof.
  unfold window_ok, Status.open. intros Hok.
  destruct (Status.buckets s) as [|b bs]; [done|]. intros [= <-]. simpl.
  apply Forall_cons in Hok as [Hb Hbs]. by constructor.
Qed.

Lemma window_ok_close s s' :
  window_ok s -> Status.close s = Some s' -> window_ok s'.
Proof.
  unfold window_ok, Status.close. intros Hok.
  destruct (Status.buckets s) as [|b bs]; [done|]. intros [= <-]. simpl.
  apply Forall_cons in Hok as [Hb Hbs]. by constructor.
Qed.

Lemma window_ok_rotationTick s :
  window_ok s -> window_ok (Status.rotationTick s).
Proof.
  unfold window_ok, Status.rotationTick. intros Hok.
  destruct (Status.rotationTimer s); [|done]. simpl.
  constructor; [apply bucket_ok_createBucket|by apply Forall_removelast].
Qed.

Lemma window_ok_CB_open w w' :
  window_ok (CB.status w) -> CB.open w = Some w' ->
  window_ok (CB.status w').
Proof.
  intros Hok. unfold CB.open.
  destruct (negb _); simpl; [|by intros [= <-]].
  destruct (Status.open (CB.status w)) as [s|] eqn:Hs; simpl; [|done].
  intros [= <-]. simpl. by eapply window_ok_open.
Qed.

Lemma window_ok_CB_close w w' :
  window_ok (CB.status w) -> CB.close w = Some w' ->
  window_ok (CB.status w').
Proof.
  intros Hok. unfold CB.close.
  destruct (negb _); simpl; [|by intros [= <-]].
  destruct (Status.close (CB.status w)) as [s|] eqn:Hs; simpl; [|done].
  intros [= <-]. simpl. by eapply window_ok_close.
Qed.

(** [fail], given that the window is in order once the failure is
    counted. *)
Lemma window_ok_fail_counted w w' :
  (forall s, Status.increment Failures None (CB.status w) = Some s ->
             window_ok s) ->
  CB.fail w = Some w' -> window_ok (CB.status w').
Proof.
  intros Hok. unfold CB.fail.
  destruct (Status.increment _ _ _) as [s|] eqn:Hs; simpl; [|done].
  specialize (Hok s eq_refl).
  destruct (CB.warmUp w); [by intros [= <-]|].
  destruct (Status.stats s) as [st|]; simpl; [|done].
  destruct (_ && _); [by intros [= <-]|].
  destruct (_ || _); [|by intros [= <-]].
  by apply window_ok_CB_open.
Qed.

Lemma window_ok_fail w w' :
  window_ok (CB.status w) -> CB.fail w = Some w' ->
  window_ok (CB.status w').
Proof.
  intros Hok. apply window_ok_fail_counted.
  intros s Hs. by apply (window_ok_increment Failures _ _ ltac:(done) Hok).
Qed.

Lemma window_ok_success w w' :
  window_ok (CB.status w) -> CB.success w = Some w' ->
  window_ok (CB.status w').
Proof.
  intros Hok. unfold CB.success.
  destruct (Status.increment _ _ _) as [s|] eqn:Hs; simpl; [|done].
  assert (Hok' : window_ok s)
    by (by apply (window_ok_increment Successes _ _ ltac:(done) Hok)).
  destruct (State.eqb _ _); [|by intros [= <-]].
  by apply window_ok_CB_close.
Qed.

Lemma window_ok_onTimeout startedAt now w w' :
  window_ok (CB.status w) -> CB.onTimeout startedAt now w = Some w' ->
  window_ok (CB.status w').
Proof.
  intros Hok. unfold CB.onTimeout.
  destruct (Status.increment _ _ _) as [s|] eqn:Hs; simpl; [|done].
  apply window_ok_fail_counted. simpl. intros s2 Hs2.
  by eapply window_ok_timeout.
Qed.

Lemma window_ok_step e w w' :
  window_ok (CB.status w) -> CB.step e w = Some w' ->
  window_ok (CB.status w').
Proof.
  intros Hok. destruct e; simpl.
  - unfold CB.middleware. destruct (negb _); [by intros [= <-]|].
    unfold CB.countInvocation.
    destruct (Status.increment _ _ _) as [s|] eqn:Hs; simpl; [|done].
    assert (Hok' : window_ok s)
      by (by apply (window_ok_increment Fires _ _ ltac:(done) Hok)).
    destruct (_ && _); [by intros [= <-]|].
    destruct (Options.timeout _); simpl; by intros [= <-].
  - destruct (CB.listeners w !! listener); [|by intros [= <-]].
    unfold CB.onFinish. destruct (Options.isError _ _).
    + by apply window_ok_fail.
    + by apply window_ok_success.
  - destruct (CB.listeners w !! listener); [|by intros [= <-]].
    by apply window_ok_fail.
  - unfold CB.fireTimer.
    destruct (Timers.callback_of id (CB.timers w)) as [[| |startedAt]|];
      try (by intros [= <-]).
    by apply window_ok_onTimeout.
  - intros [= <-]. by apply window_ok_rotationTick.
  - by apply window_ok_CB_open.
  - by apply window_ok_CB_close.
  - by apply window_ok_success.
  - by intros [= <-].
Qed.

Lemma window_ok_run events : forall w w',
  window_ok (CB.status w) -> CB.run events w = Some w' ->
  window_ok (CB.status w').
Proof.
  induction events as [|e events IH]; intros w w' Hok; simpl.
  - by intros [= <-].
  - destruct (CB.step e w) as [w1|] eqn:H; simpl; [|done].
    apply IH. by eapply window_ok_step.
Qed.

Lemma window_ok_CB_constructor options w :
  CB.constructor options = Some w -> window_ok (CB.status w).
Proof.
  intros Hc. destruct (constructor_Some _ _ Hc) as (_ & _ & ->).
  apply window_ok_constructor.
Qed.

(** The totals of a window whose buckets are in order. *)
Lemma window_ok_totals s :
  window_ok s ->
  length (window_latencies s) = window_total Timeouts s
  /\ window_total Timeouts s <= window_total Failures s.
Proof.
  unfold window_ok, window_latencies, window_total.
  induction 1 as [|b bs [Hl Ht] Hbs [IH1 IH2]]; csimpl; [done|].
  rewrite length_app. lia.
Qed.

(** *** What an event adds to the counters *)

Lemma rotation_stopped w :
  Status.rotationTimer (CB.status w) = false -> CB.rotation w = w.
Proof.
  intros H. unfold CB.rotation, Status.rotationTick. rewrite H.
  by destruct w.
Qed.

Lemma step_totals e w w' :
  invariant w ->
  is_tick e = false \/ Status.rotationTimer (CB.status w) = false ->
  CB.step e w = Some w' ->
  forall p,
    window_total p (CB.status w')
    = window_total p (CB.status w) + event_tally p e w.
Proof.
  intros Hi Htick Hstep p.
  pose proof (inv_buckets _ Hi) as Hne.
  destruct e; simpl in *.
  - unfold CB.middleware in Hstep.
    destruct (Options.enabled (CB.options w)); simpl in Hstep;
      [|injection Hstep as <-; lia].
    destruct (countInvocation_spec w Hne) as (w1 & E & _ & Hr).
    rewrite E in Hstep. simpl in Hstep.
    pose proof (rec_totals _ _ _ Hr p) as Ht.
    destruct (_ && _); [by injection Hstep as <-|].
    destruct (Options.timeout _); simpl in Hstep; by injection Hstep as <-.
  - destruct (CB.listeners w !! listener) as [inv|];
      [|injection Hstep as <-; lia].
    unfold CB.onFinish in Hstep. simpl in Hstep.
    set (w0 := CB.set_timers _ w) in Hstep.
    destruct (Options.isError _ _).
    + destruct (fail_spec w0 Hne) as (w2 & E & Hr & _).
      rewrite E in Hstep. injection Hstep as <-.
      apply (rec_totals _ _ _ Hr p).
    + destruct (success_spec w0 Hne) as (w2 & E & _ & Hr).
      rewrite E in Hstep. injection Hstep as <-.
      apply (rec_totals _ _ _ Hr p).
  - destruct (CB.listeners w !! listener) as [inv|];
      [|injection Hstep as <-; lia].
    unfold CB.onClose in Hstep.
    set (w0 := CB.set_timers _ w) in Hstep.
    destruct (fail_spec w0 Hne) as (w2 & E & Hr & _).
    rewrite E in Hstep. injection Hstep as <-.
    apply (rec_totals _ _ _ Hr p).
  - unfold CB.fireTimer in Hstep.
    destruct (Timers.callback_of id (CB.timers w)) as [[| |startedAt]|];
      try (injection Hstep as <-; simpl; lia).
    set (w0 := CB.set_timers _ w) in Hstep.
    destruct (onTimeout_spec startedAt now w0 Hne) as (w2 & E & Hr & _).
    rewrite E in Hstep. injection Hstep as <-.
    apply (rec_totals _ _ _ Hr p).
  - destruct Htick as [?|Hoff]; [done|].
    injection Hstep as <-. rewrite (rotation_stopped w Hoff). lia.
  - destruct (open_spec w Hne) as (w2 & E & _ & Hr).
    rewrite E in Hstep. injection Hstep as <-.
    apply (rec_totals _ _ _ Hr p).
  - destruct (close_spec w Hne) as (w2 & E & _ & Hr).
    rewrite E in Hstep. injection Hstep as <-.
    apply (rec_totals _ _ _ Hr p).
  - destruct (success_spec w Hne) as (w2 & E & _ & Hr).
    rewrite E in Hstep. injection Hstep as <-.
    apply (rec_totals _ _ _ Hr p).
  - injection Hstep as <-. unfold window_total. simpl. lia.
Qed.

Lemma removelast_total p (bs : list Bucket.t) :
  sum_list (counter p <$> removelast bs) <= sum_list (counter p <$> bs).
Proof.
  induction bs as [|b [|b' bs] IH]; csimpl in *; lia.
Qed.

(** A tick never adds to a counter. *)
Lemma rotationTick_total p s :
  window_total p (Status.rotationTick s) <= window_total p s.
Proof.
  unfold Status.rotationTick, window_total.
  destruct (Status.rotationTimer s); [|done].
  change (Status.buckets (Status.rotate s))
    with (Status.createBucket :: removelast (Status.buckets s)).
  rewrite fmap_cons.
  pose proof (removelast_total p (Status.buckets s)).
  assert (counter p Status.createBucket = 0) by (by destruct p).
  simpl. lia.
Qed.

End CounterFacts.

(** *** State, warm-up flag and admission along the events *)

Section StateFacts.

Implicit Types (w : CB.t) (e : CB.Event).

Lemma middleware_state now w w' a :
  CB.middleware now w = Some (w', a) ->
  CB.state w' = CB.state w /\ CB.warmUp w' = CB.warmUp w.
Proof.
  unfold CB.middleware. destruct (negb _); [by intros [= <- _]|].
  unfold CB.countInvocation.
  destruct (Status.increment _ _ _) as [s|]; simpl; [|done].
  destruct (_ && _); [by intros [= <- _]|].
  destruct (Options.timeout _); simpl; by intros [= <- _].
Qed.

Lemma fail_state w w' :
  CB.fail w = Some w' ->
  CB.warmUp w' = CB.warmUp w
  /\ (CB.state w' = CB.state w
      \/ CB.state w' = State.open /\ CB.warmUp w = false).
Proof.
  unfold CB.fail.
  destruct (Status.increment _ _ _) as [s|]; simpl; [|done].
  destruct (CB.warmUp w) eqn:Hw; [intros [= <-]; auto|].
  destruct (Status.stats s) as [st|]; simpl; [|done].
  destruct (_ && _); [intros [= <-]; simpl; auto|].
  destruct (_ || _); [|intros [= <-]; simpl; auto].
  unfold CB.open. destruct (negb _); simpl.
  - destruct (Status.open s); simpl; [|done]. intros [= <-]. simpl. auto.
  - intros [= <-]. simpl. auto.
Qed.

Lemma success_state w w' :
  CB.success w = Some w' ->
  CB.warmUp w' = CB.warmUp w
  /\ (CB.state w' = CB.state w
      \/ CB.state w' = State.closed /\ CB.state w = State.half_open).
Proof.
  unfold CB.success.
  destruct (Status.increment _ _ _) as [s|]; simpl; [|done].
  destruct (State.eqb (CB.state w) State.half_open) eqn:E;
    [|intros [= <-]; auto].
  apply State_eqb_eq in E.
  unfold CB.close. destruct (negb _); simpl.
  - destruct (Status.close s); simpl; [|done]. intros [= <-]. simpl. auto.
  - intros [= <-]. simpl. auto.
Qed.

Lemma open_state w w' :
  CB.open w = Some w' ->
  CB.state w' = State.open /\ CB.warmUp w' = CB.warmUp w.
Proof.
  unfold CB.open. destruct (State.eqb (CB.state w) State.open) eqn:E; simpl.
  - intros [= <-]. by apply State_eqb_eq in E.
  - destruct (Status.open _); simpl; [|done]. by intros [= <-].
Qed.

Lemma close_state w w' :
  CB.close w = Some w' ->
  CB.state w' = State.closed /\ CB.warmUp w' = CB.warmUp w.
Proof.
  unfold CB.close.
  destruct (State.eqb (CB.state w) State.closed) eqn:E; simpl.
  - intros [= <-]. by apply State_eqb_eq in E.
  - destruct (Status.close _); simpl; [|done]. by intros [= <-].
Qed.

Lemma onTimeout_state startedAt now w w' :
  CB.onTimeout startedAt now w = Some w' ->
  CB.warmUp w' = CB.warmUp w
  /\ (CB.state w' = CB.state w
      \/ CB.state w' = State.open /\ CB.warmUp w = false).
Proof.
  unfold CB.onTimeout.
  destruct (Status.increment _ _ _) as [s|]; simpl; [|done].
  intros H. by apply fail_state in H.
Qed.

(** The warm-up flag changes only when the warm-up timer fires. *)
Lemma step_warmUp e w w' :
  CB.step e w = Some w' ->
  CB.warmUp w' = CB.warmUp w
  \/ CB.warmUp w' = false
     /\ exists id now,
          e = CB.TimerFires id now
          /\ Timers.callback_of id (CB.timers w) = Some WarmUpCallback.
Proof.
  destruct e; simpl.
  - destruct (CB.middleware now w) as [[w1 a]|] eqn:H; simpl; [|done].
    intros [= <-]. left. by apply middleware_state in H as [_ ?].
  - destruct (CB.listeners w !! listener); [|intros [= <-]; by left].
    unfold CB.onFinish. destruct (Options.isError _ _); intros H; left.
    + by apply fail_state in H as [? _].
    + by apply success_state in H as [? _].
  - destruct (CB.listeners w !! listener); [|intros [= <-]; by left].
    intros H. left. by apply fail_state in H as [? _].
  - unfold CB.fireTimer.
    destruct (Timers.callback_of id (CB.timers w)) as [[| |startedAt]|]
      eqn:Hc; try (intros [= <-]; by left).
    + intros [= <-]. right. split; [done|]. eauto.
    + intros H. left. by apply onTimeout_state in H as [? _].
  - intros [= <-]. by left.
  - intros H. left. by apply open_state in H as [_ ?].
  - intros H. left. by apply close_state in H as [_ ?].
  - intros H. left. by apply success_state in H as [? _].
  - intros [= <-]. by left.
Qed.

(** No warm-up timer pending: the flag stays as it is. *)
Lemma run_without_warmup_timer events : forall w w',
  invariant w ->
  (forall id, Timers.callback_of id (CB.timers w) <> Some WarmUpCallback) ->
  CB.run events w = Some w' ->
  CB.warmUp w' = CB.warmUp w.
Proof.
  induction events as [|e events IH]; intros w w' Hi Hno; simpl.
  - by intros [= <-].
  - destruct (CB.step e w) as [w1|] eqn:Hstep; simpl; [|done].
    intros Hrun.
    assert (E : CB.warmUp w1 = CB.warmUp w).
    { destruct (step_warmUp _ _ _ Hstep) as [?|(_ & id & now & _ & Hc)];
        [done|]. by destruct (Hno id). }
    rewrite <- E. apply IH; [by eapply invariant_step| |done].
    intros id [delay Hp]%callback_of_pending.
    pose proof (frame_step _ _ _ Hi Hstep) as Hf.
    destruct (Nat.lt_ge_cases id (Timers.next (CB.timers w))) as [Hlt|Hge].
    + destruct (frame_old _ _ Hf id Hlt) as [E'|E']; [|congruence].
      apply (Hno id). apply callback_of_pending. exists delay. congruence.
    + by eapply (frame_new _ _ Hf).
Qed.

Lemma shutdown_no_warmup_timer w id :
  invariant w ->
  Timers.callback_of id (CB.timers (CB.shutdown w)) <> Some WarmUpCallback.
Proof.
  intros Hi. unfold CB.shutdown. simpl.
  intros [[H _]%callback_of_clearHandle_Some Hn]%callback_of_clearHandle_Some.
  destruct (inv_warmup _ Hi id H). congruence.
Qed.

(** While the circuit is open, [fail] only counts. *)
Lemma fail_while_open w :
  Status.buckets (CB.status w) <> [] ->
  CB.state w = State.open ->
  exists s,
    Status.increment Failures None (CB.status w) = Some s
    /\ CB.fail w = Some (CB.set_status s w).
Proof.
  intros Hne Hst.
  destruct (increment_is_Some Failures None (CB.status w) Hne) as [s Hs].
  exists s. split; [done|]. unfold CB.fail. rewrite Hs. simpl.
  destruct (CB.warmUp w); [done|].
  assert (Hne' : Status.buckets s <> [])
    by (by eapply increment_buckets_nonempty).
  destruct (proj2 (stats_is_Some s) Hne') as [st ->]. simpl.
  destruct (_ && _); [done|].
  destruct (_ || _); [|done].
  unfold CB.open. simpl. by rewrite Hst.
Qed.

(** *** The open guard where the quotient is exact *)

Lemma no_failure_rate (m : nat) : rate 0 (S m) = Finite 0.
Proof.
  unfold rate, Binary64.mul, Binary64.div. f_equal.
Qed.

Lemma trips_closed (o : Options.t) (f n : nat) :
  trips o State.closed f n = true
  <-> (Options.volumeThreshold o <= Z.of_nat n)%Z
      /\ number_gt (rate f n) (Options.errorThresholdPercentage o) = true.
Proof.
  unfold trips. simpl.
  rewrite andb_true_r, orb_false_r, andb_true_iff, negb_true_iff.
  by rewrite Z.ltb_ge.
Qed.

Lemma number_gt_Finite (q threshold : Q) :
  number_gt (Finite q) threshold = true <-> (threshold < q)%Q.
Proof.
  simpl. rewrite negb_true_iff. split.
  - intros H. apply Qnot_le_lt. intros Hle%Qle_bool_iff. congruence.
  - intros H. apply not_true_is_false. intros Hle%Qle_bool_iff.
    apply (Qlt_irrefl threshold). eapply Qlt_le_trans; eassumption.
Qed.

Lemma replicate_rotate {A} (x : A) (n : nat) :
  0 < n -> x :: removelast (replicate n x) = replicate n x.
Proof.
  intros Hn. rewrite removelast_take, length_replicate, take_replicate.
  destruct n as [|n]; [lia|]. simpl.
  by replace (n `min` S n) with n by lia.
Qed.

End StateFacts.

(** X6.  In every state that a breaker reaches from its constructor, the
    snapshot holds exactly one latency sample per counted timeout, and no
    more timeouts than failures: latencies are recorded only by the deadline
    timer, which always reports a failure as well. *)
Theorem latencies_come_from_timeouts
    (options : Options.t) (events : list CB.Event) (w0 w : CB.t) :
  CB.constructor options = Some w0 ->
  CB.run events w0 = Some w ->
  exists st,
    Status.stats (CB.status w) = Some st
    /\ length (Stats.latencyTimes st) = Stats.timeouts st
    /\ Stats.timeouts st <= Stats.failures st.
Proof.
  intros Hc Hrun.
  assert (Hi : invariant w).
  { eapply invariant_run; [|exact Hrun]. by eapply invariant_constructor. }
  assert (Hok : window_ok (CB.status w)).
  { eapply window_ok_run; [|exact Hrun]. by eapply window_ok_CB_constructor. }
  destruct (stats_of_totals _ (inv_buckets _ Hi)) as (st & Hst & Hf & _ & _ & Ht).
  destruct (window_ok_totals _ Hok) as [Hlen Hle].
  exists st. split; [done|].
  rewrite (stats_latencyTimes _ _ Hst), Hf, Ht.
  rewrite (Permutation_length (sort_ascending_Permutation _)). done.
Qed.

Lemma latencies_come_from_timeouts_witness :
  exists w0 w st,
    CB.constructor Options.defaults = Some w0
    /\ CB.run [CB.Request 0; CB.TimerFires 0 10004; CB.Finish 0 200 10020] w0
       = Some w
    /\ Status.stats (CB.status w) = Some st
    /\ length (Stats.latencyTimes st) = Stats.timeouts st.
Proof.
  destruct (CB.constructor Options.defaults) as [w0|] eqn:E;
    [|vm_compute in E; discriminate].
  destruct (CB.run [CB.Request 0; CB.TimerFires 0 10004; CB.Finish 0 200 10020]
                   w0) as [w|] eqn:Er.
  2:{ vm_compute in E. injection E as <-. vm_compute in Er. discriminate. }
  destruct (latencies_come_from_timeouts Options.defaults _ w0 w E Er)
    as (st & Hst & Hlen & _).
  exists w0, w, st. split; [reflexivity|]. split; [exact Er|].
  split; assumption.
Defined.

(** X7.  With the deadline switched off ([timeout: false]) no timeout and
    no latency is ever recorded: in every state that the breaker reaches,
    the snapshot has [timeouts = 0], no latency sample and a mean of 0. *)
Theorem no_deadline_no_latency
    (options : Options.t) (events : list CB.Event) (w0 w : CB.t) :
  Options.timeout options = None ->
  CB.constructor options = Some w0 ->
  CB.run events w0 = Some w ->
  exists st,
    Status.stats (CB.status w) = Some st
    /\ Stats.timeouts st = 0
    /\ Stats.latencyTimes st = []
    /\ Stats.latencyMean st = 0%Q
    /\ forall id startedAt,
         Timers.callback_of id (CB.timers w)
         <> Some (RequestTimeoutCallback startedAt).
Proof.
  intros Hoff Hc Hrun.
  assert (Hquiet : forall events w w',
            invariant w -> wiring w ->
            Options.timeout (CB.options w) = None ->
            window_total Timeouts (CB.status w) = 0 ->
            CB.run events w = Some w' ->
            window_total Timeouts (CB.status w') = 0).
  { clear. induction events as [|e events IH]; intros w w' Hi Hw Hoff H0; simpl.
    - by intros [= <-].
    - destruct (CB.step e w) as [w1|] eqn:Hstep; simpl; [|done].
      apply IH.
      + by eapply invariant_step.
      + by eapply wiring_step.
      + by rewrite (frame_options _ _ (frame_step _ _ _ Hi Hstep)).
      + destruct (is_tick e) eqn:Et.
        * destruct e; try done. simpl in Hstep. injection Hstep as <-.
          pose proof (rotationTick_total Timeouts (CB.status w)).
          simpl. lia.
        * rewrite (step_totals e w w1 Hi (or_introl Et) Hstep Timeouts), H0.
          destruct e; simpl; try reflexivity.
          -- destruct (Options.enabled _); reflexivity.
          -- destruct (CB.listeners w !! listener); [|reflexivity].
             destruct (Options.isError _ _); reflexivity.
          -- destruct (CB.listeners w !! listener); reflexivity.
          -- destruct (Timers.callback_of id (CB.timers w))
               as [[| |startedAt]|] eqn:Hcb; try reflexivity.
             apply callback_of_pending in Hcb as [delay Hp].
             pose proof (wired_deadline _ Hw _ _ _ Hp). congruence. }
  assert (Hi0 : invariant w0) by (by eapply invariant_constructor).
  assert (Hw0 : wiring w0) by (by eapply wiring_constructor).
  assert (Hi : invariant w) by (by eapply invariant_run).
  assert (Hw : wiring w) by (by apply (wiring_run events w0 w Hi0 Hw0)).
  assert (Ho : CB.options w0 = options).
  { by destruct (constructor_Some _ _ Hc) as (_ & _ & ->). }
  assert (Ht0 : window_total Timeouts (CB.status w0) = 0).
  { destruct (constructor_Some _ _ Hc) as (_ & _ & ->).
    apply constructor_total. }
  assert (Ht : window_total Timeouts (CB.status w) = 0).
  { eapply Hquiet; [exact Hi0|exact Hw0| |exact Ht0|exact Hrun]. congruence. }
  assert (Hok : window_ok (CB.status w)).
  { eapply window_ok_run; [|exact Hrun]. by eapply window_ok_CB_constructor. }
  destruct (window_ok_totals _ Hok) as [Hlen _].
  assert (Hl : window_latencies (CB.status w) = []).
  { apply nil_length_inv. lia. }
  destruct (stats_of_totals _ (inv_buckets _ Hi)) as (st & Hst & _ & _ & _ & Hts).
  exists st. split; [done|]. split; [congruence|].
  split; [by rewrite (stats_latencyTimes _ _ Hst), Hl|].
  split; [by rewrite (stats_latencyMean _ _ Hst), Hl|].
  intros id startedAt [delay Hp]%callback_of_pending.
  pose proof (wired_deadline _ Hw _ _ _ Hp) as Hd.
  rewrite (frame_options _ _ (frame_run _ _ _ Hi0 Hrun)), Ho in Hd.
  congruence.
Qed.

Lemma no_deadline_no_latency_witness :
  exists w0 w st,
    CB.constructor (without_deadline Options.defaults) = Some w0
    /\ CB.run [CB.Request 0; CB.Close 0 5; CB.TimerFires 0 10000] w0 = Some w
    /\ Status.stats (CB.status w) = Some st
    /\ Stats.timeouts st = 0.
Proof.
  destruct (CB.constructor (without_deadline Options.defaults))
    as [w0|] eqn:E; [|vm_compute in E; discriminate].
  destruct (CB.run [CB.Request 0; CB.Close 0 5; CB.TimerFires 0 10000] w0)
    as [w|] eqn:Er.
  2:{ vm_compute in E. injection E as <-. vm_compute in Er. discriminate. }
  destruct (no_deadline_no_latency (without_deadline Options.defaults)
              _ w0 w eq_refl E Er) as (st & Hst & Ht & _).
  exists w0, w, st. split; [reflexivity|]. split; [exact Er|].
  split; assumption.
Defined.

(** X8.  [shutdown] stops the rotation for good: whatever happens
    afterwards, the rotation stays switched off, a tick of the window does
    nothing, and so no counter of the window ever decreases again. *)
Theorem shutdown_freezes_the_window
    (w : CB.t) (events : list CB.Event) (w' : CB.t) :
  invariant w ->
  CB.run events (CB.shutdown w) = Some w' ->
  Status.rotationTimer (CB.status w') = false
  /\ CB.rotation w' = w'
  /\ forall p,
       window_total p (CB.status w) <= window_total p (CB.status w').
Proof.
  intros Hi Hrun.
  pose proof (invariant_shutdown w Hi) as Hi0.
  assert (Hoff : Status.rotationTimer (CB.status w') = false).
  { apply (frame_rotationTimer _ _ (frame_run _ _ _ Hi0 Hrun)). reflexivity. }
  split; [exact Hoff|]. split; [by apply rotation_stopped|].
  assert (Hmono : forall events w1 w2,
            invariant w1 ->
            Status.rotationTimer (CB.status w1) = false ->
            CB.run events w1 = Some w2 ->
            forall p, window_total p (CB.status w1)
                      <= window_total p (CB.status w2)).
  { clear. induction events as [|e events IH]; intros w1 w2 Hi Hoff; simpl.
    - by intros [= <-].
    - destruct (CB.step e w1) as [w|] eqn:Hstep; simpl; [|done].
      intros Hrun p.
      pose proof (step_totals e w1 w Hi (or_intror Hoff) Hstep p) as Ht.
      assert (Hle : window_total p (CB.status w)
                    <= window_total p (CB.status w2)).
      { eapply IH; [by eapply invariant_step| |exact Hrun].
        by apply (frame_rotationTimer _ _ (frame_step _ _ _ Hi Hstep)). }
      lia. }
  intros p.
  change (window_total p (CB.status w))
    with (window_total p (CB.status (CB.shutdown w))).
  by eapply Hmono.
Qed.

Lemma shutdown_freezes_the_window_witness :
  exists w0 w,
    CB.constructor Options.defaults = Some w0
    /\ CB.run [CB.Request 0; CB.RotationTick; CB.RotationTick]
              (CB.shutdown w0) = Some w
    /\ window_total Fires (CB.status w0) <= window_total Fires (CB.status w)
    /\ CB.rotation w = w.
Proof.
  destruct (CB.constructor Options.defaults) as [w0|] eqn:E;
    [|vm_compute in E; discriminate].
  destruct (CB.run [CB.Request 0; CB.RotationTick; CB.RotationTick]
                   (CB.shutdown w0)) as [w|] eqn:Er.
  2:{ vm_compute in E. injection E as <-. vm_compute in Er. discriminate. }
  pose proof (invariant_constructor _ _ E) as Hi.
  destruct (shutdown_freezes_the_window w0 _ w Hi Er) as (_ & Hrot & Hmono).
  exists w0, w. split; [reflexivity|]. split; [exact Er|].
  split; [apply Hmono|exact Hrot].
Defined.

(** X9.  The flag [isCircuitBreakerOpen] of the snapshot is the flag of the
    newest bucket only.  [open] sets it and [close] clears it, but the next
    tick of the window puts an empty bucket in front: after it the snapshot
    reports [false] whatever the state is, also while the circuit is
    open. *)
Theorem open_flag_is_lost_on_rotation (w : CB.t) :
  invariant w ->
  Status.rotationTimer (CB.status w) = true ->
  snapshot_flag (CB.rotation w) = Some false
  /\ CB.state (CB.rotation w) = CB.state w
  /\ (CB.state w <> State.open ->
      exists w1,
        CB.open w = Some w1
        /\ snapshot_flag w1 = Some true
        /\ CB.state (CB.rotation w1) = State.open
        /\ snapshot_flag (CB.rotation w1) = Some false)
  /\ (CB.state w <> State.closed ->
      exists w1, CB.close w = Some w1 /\ snapshot_flag w1 = Some false).
Proof.
  intros Hi Hon.
  assert (Hflag : forall s b0,
             head (Status.buckets s) = Some b0 ->
             Stats.isCircuitBreakerOpen <$> Status.stats s
             = Some (Bucket.isCircuitBreakerOpen b0)).
  { intros s b0 Hb.
    assert (Hne : Status.buckets s <> []).
    { intros E. by rewrite E in Hb. }
    destruct (proj2 (stats_is_Some s) Hne) as [st Hst].
    rewrite Hst. simpl. f_equal. by eapply stats_flag_head. }
  assert (Hrot : forall w0,
             Status.rotationTimer (CB.status w0) = true ->
             snapshot_flag (CB.rotation w0) = Some false).
  { intros w0 H0. unfold snapshot_flag.
    rewrite (Hflag _ Status.createBucket); [done|].
    unfold CB.rotation, Status.rotationTick. by rewrite H0. }
  pose proof (inv_buckets _ Hi) as Hne.
  split; [by apply Hrot|]. split; [done|]. split.
  - intros Hst. unfold CB.open.
    apply State_eqb_neq in Hst. rewrite Hst. simpl.
    destruct (Status.buckets (CB.status w)) as [|b bs] eqn:Eb; [done|].
    unfold Status.open. rewrite Eb. simpl.
    eexists. split; [reflexivity|]. split; [|split].
    + unfold snapshot_flag.
      by rewrite (Hflag _ (Bucket.set_isCircuitBreakerOpen true b)).
    + reflexivity.
    + apply Hrot. exact Hon.
  - intros Hst. unfold CB.close.
    apply State_eqb_neq in Hst. rewrite Hst. simpl.
    destruct (Status.buckets (CB.status w)) as [|b bs] eqn:Eb; [done|].
    unfold Status.close. rewrite Eb. simpl.
    eexists. split; [reflexivity|].
    unfold snapshot_flag.
    by rewrite (Hflag _ (Bucket.set_isCircuitBreakerOpen false b)).
Qed.

Lemma open_flag_is_lost_on_rotation_witness :
  exists w0 w1,
    CB.constructor Options.defaults = Some w0
    /\ CB.open w0 = Some w1
    /\ snapshot_flag w1 = Some true
    /\ CB.state (CB.rotation w1) = State.open
    /\ snapshot_flag (CB.rotation w1) = Some false.
Proof.
  destruct (CB.constructor Options.defaults) as [w0|] eqn:E;
    [|vm_compute in E; discriminate].
  pose proof (invariant_constructor _ _ E) as Hi.
  assert (Hon : Status.rotationTimer (CB.status w0) = true).
  { vm_compute in E. injection E as <-. reflexivity. }
  assert (Hst : CB.state w0 <> State.open).
  { vm_compute in E. injection E as <-. discriminate. }
  destruct (open_flag_is_lost_on_rotation w0 Hi Hon) as (_ & _ & Hopen & _).
  destruct (Hopen Hst) as (w1 & H1 & H2 & H3 & H4).
  exists w0, w1. split; [reflexivity|]. repeat split; assumption.
Defined.

(** X10.  In every state that a breaker reaches, the circuit is open
    exactly when a reset timer is pending.  That timer is the one the
    instance holds, it was set with the delay [resetTimeout], and when it
    fires the circuit becomes half-open and no reset timer is pending any
    more. *)
Theorem open_circuit_has_reset_timer (w : CB.t) :
  CB.reachable w ->
  (CB.state w = State.open
   <-> exists id, Timers.callback_of id (CB.timers w) = Some ResetCallback)
  /\ forall id,
       Timers.callback_of id (CB.timers w) = Some ResetCallback ->
       CB.resetTimeout w = Some id
       /\ Timers.pending (CB.timers w) !! id
          = Some (ResetCallback, Options.resetTimeout (CB.options w))
       /\ forall now,
            exists w',
              CB.step (CB.TimerFires id now) w = Some w'
              /\ CB.state w' = State.half_open
              /\ forall id',
                   Timers.callback_of id' (CB.timers w')
                   <> Some ResetCallback.
Proof.
  intros Hr.
  pose proof (reachable_invariant w Hr) as Hi.
  pose proof (reachable_wiring w Hr) as Hw.
  split.
  - split.
    + intros Hst. destruct (wired_reset _ Hw Hst) as (id & _ & Hp).
      exists id. apply callback_of_pending. eauto.
    + intros [id Hc]. by destruct (inv_reset _ Hi id Hc).
  - intros id Hc. destruct (inv_reset _ Hi id Hc) as [Hid Hst].
    destruct (wired_reset _ Hw Hst) as (id' & Hid' & Hp).
    assert (id' = id) by congruence. subst id'.
    split; [done|]. split; [done|].
    intros now. simpl. unfold CB.fireTimer. rewrite Hc.
    eexists. split; [reflexivity|]. split; [reflexivity|].
    intros id'. simpl.
    intros [H Hne]%callback_of_clearTimeout_Some.
    destruct (inv_reset _ Hi id' H). congruence.
Qed.

Lemma open_circuit_has_reset_timer_witness :
  exists w0 w,
    CB.constructor Options.defaults = Some w0
    /\ CB.run [CB.Request 0; CB.Finish 0 500 7] w0 = Some w
    /\ CB.state w = State.open
    /\ exists id, Timers.callback_of id (CB.timers w) = Some ResetCallback.
Proof.
  destruct (CB.constructor Options.defaults) as [w0|] eqn:E;
    [|vm_compute in E; discriminate].
  destruct (CB.run [CB.Request 0; CB.Finish 0 500 7] w0) as [w|] eqn:Er.
  2:{ vm_compute in E. injection E as <-. vm_compute in Er. discriminate. }
  assert (Hst : CB.state w = State.open).
  { vm_compute in E. injection E as <-. vm_compute in Er.
    injection Er as <-. reflexivity. }
  assert (Hr : CB.reachable w).
  { eapply reachable_run; [|exact Er]. by eapply CB.reachable_new. }
  destruct (open_circuit_has_reset_timer w Hr) as [Hiff _].
  exists w0, w. split; [reflexivity|]. split; [exact Er|].
  split; [exact Hst|]. by apply Hiff.
Defined.

(** X11.  The edges of the state machine.  An event that changes the state
    of a breaker changes it to [open] only if it is a call of [open] or a
    failure signal (a finished or closed response, an expired deadline)
    after warm-up; to [closed] only if it is a call of [close] or a success
    signal in the half-open state; to [half-open] only if it is the reset
    timer firing while the circuit is open; to [shutdown] only if it is a
    call of [shutdown].  A request and a tick of the window never change
    the state. *)
Theorem state_machine_edges (e : CB.Event) (w w' : CB.t) :
  invariant w ->
  CB.step e w = Some w' ->
  CB.state w' <> CB.state w ->
  match CB.state w' with
  | State.open =>
      e = CB.CallOpen
      \/ (CB.warmUp w = false /\ is_failure_signal e = true)
  | State.closed =>
      e = CB.CallClose
      \/ (CB.state w = State.half_open /\ is_success_signal e = true)
  | State.half_open =>
      CB.state w = State.open
      /\ exists id now,
           e = CB.TimerFires id now /\ CB.resetTimeout w = Some id
  | State.shutdown => e = CB.CallShutdown
  end.
Proof.
  intros Hi Hstep Hneq.
  assert (Hfail : forall w0 w1 : CB.t,
            CB.fail w0 = Some w1 ->
            CB.state w0 = CB.state w -> CB.warmUp w0 = CB.warmUp w ->
            CB.state w1 <> CB.state w ->
            CB.state w1 = State.open /\ CB.warmUp w = false).
  { intros w0 w1 H Es Ew Hn.
    destruct (fail_state _ _ H) as [_ [E|[E1 E2]]]; [congruence|].
    split; congruence. }
  assert (Hsucc : forall w0 w1 : CB.t,
            CB.success w0 = Some w1 ->
            CB.state w0 = CB.state w -> CB.state w1 <> CB.state w ->
            CB.state w1 = State.closed /\ CB.state w = State.half_open).
  { intros w0 w1 H Es Hn.
    destruct (success_state _ _ H) as [_ [E|[E1 E2]]]; [congruence|].
    split; congruence. }
  destruct e; simpl in Hstep.
  - destruct (CB.middleware now w) as [[w1 a]|] eqn:H; simpl in Hstep; [|done].
    injection Hstep as <-. by apply middleware_state in H as [? _].
  - destruct (CB.listeners w !! listener) as [inv|];
      [|injection Hstep as <-; done].
    unfold CB.onFinish in Hstep. destruct (Options.isError _ _).
    + destruct (Hfail _ _ Hstep eq_refl eq_refl Hneq) as [-> ?]. auto.
    + destruct (Hsucc _ _ Hstep eq_refl Hneq) as [-> ?]. auto.
  - destruct (CB.listeners w !! listener) as [inv|];
      [|injection Hstep as <-; done].
    destruct (Hfail _ _ Hstep eq_refl eq_refl Hneq) as [-> ?]. auto.
  - unfold CB.fireTimer in Hstep.
    destruct (Timers.callback_of id (CB.timers w)) as [[| |startedAt]|]
      eqn:Hc; try (injection Hstep as <-; done).
    + injection Hstep as <-. simpl.
      destruct (inv_reset _ Hi id Hc) as [Hid Hst]. eauto.
    + unfold CB.onTimeout in Hstep.
      destruct (Status.increment _ _ _) as [s|]; simpl in Hstep; [|done].
      destruct (Hfail _ _ Hstep eq_refl eq_refl Hneq) as [-> ?]. auto.
  - injection Hstep as <-. done.
  - apply open_state in Hstep as [-> _]. auto.
  - apply close_state in Hstep as [-> _]. auto.
  - destruct (Hsucc _ _ Hstep eq_refl Hneq) as [-> ?]. auto.
  - injection Hstep as <-. done.
Qed.

Lemma state_machine_edges_witness :
  exists w0 w1 w2,
    CB.constructor Options.defaults = Some w0
    /\ CB.open w0 = Some w1
    /\ CB.step (CB.TimerFires 0 30000) w1 = Some w2
    /\ CB.state w2 = State.half_open
    /\ CB.state w1 = State.open.
Proof.
  destruct (CB.constructor Options.defaults) as [w0|] eqn:E;
    [|vm_compute in E; discriminate].
  destruct (CB.open w0) as [w1|] eqn:E1.
  2:{ vm_compute in E. injection E as <-. vm_compute in E1. discriminate. }
  destruct (CB.step (CB.TimerFires 0 30000) w1) as [w2|] eqn:E2.
  2:{ vm_compute in E. injection E as <-. vm_compute in E1.
      injection E1 as <-. vm_compute in E2. discriminate. }
  assert (Hs2 : CB.state w2 = State.half_open).
  { vm_compute in E. injection E as <-. vm_compute in E1.
    injection E1 as <-. vm_compute in E2. injection E2 as <-. reflexivity. }
  assert (Hs1 : CB.state w1 = State.open).
  { vm_compute in E. injection E as <-. vm_compute in E1.
    injection E1 as <-. reflexivity. }
  assert (Hi1 : invariant w1).
  { eapply invariant_open; [|exact E1]. by eapply invariant_constructor. }
  assert (Hneq : CB.state w2 <> CB.state w1) by (by rewrite Hs1, Hs2).
  pose proof (state_machine_edges _ w1 w2 Hi1 E2 Hneq) as H.
  rewrite Hs2 in H. destruct H as [Hopen _].
  exists w0, w1, w2. split; [reflexivity|]. split; [exact E1|].
  split; [exact E2|]. split; [exact Hs2|exact Hopen].
Defined.

(** X12.  The warm-up flag is cleared once and never set again.  A breaker
    built without [allowWarmUp] never has it set; a breaker that has it
    cleared keeps it cleared whatever happens; and an event clears it only
    if it is the warm-up timer of the instance firing, a timer that was set
    with the duration of the window, [rollingCountTimeout], as its delay. *)
Theorem warm_up_ends_once
    (options : Options.t) (events : list CB.Event) (w0 w : CB.t) :
  CB.constructor options = Some w0 ->
  CB.run events w0 = Some w ->
  (Options.allowWarmUp options = false -> CB.warmUp w = false)
  /\ (CB.warmUp w = false ->
      forall more w', CB.run more w = Some w' -> CB.warmUp w' = false)
  /\ (forall e w',
        CB.step e w = Some w' ->
        CB.warmUp w' <> CB.warmUp w ->
        CB.warmUp w = true
        /\ CB.warmUp w' = false
        /\ exists id now,
             e = CB.TimerFires id now
             /\ CB.warmupTimeout w = Some id
             /\ Timers.pending (CB.timers w) !! id
                = Some (WarmUpCallback, Options.rollingCountTimeout options)).
Proof.
  intros Hc Hrun.
  assert (Hi0 : invariant w0) by (by eapply invariant_constructor).
  assert (Hw0 : wiring w0) by (by eapply wiring_constructor).
  assert (Hi : invariant w) by (by eapply invariant_run).
  assert (Hw : wiring w) by (by apply (wiring_run events w0 w Hi0 Hw0)).
  assert (Ho : CB.options w0 = options /\ CB.warmUp w0 = Options.allowWarmUp options).
  { by destruct (constructor_Some _ _ Hc) as (_ & _ & ->). }
  destruct Ho as [Ho Hwu0].
  assert (Hoptions : CB.options w = options).
  { by rewrite (frame_options _ _ (frame_run _ _ _ Hi0 Hrun)). }
  split; [|split].
  - intros Hoff. apply (frame_warmUp _ _ (frame_run _ _ _ Hi0 Hrun)).
    congruence.
  - intros Hoff more w' Hmore.
    by apply (frame_warmUp _ _ (frame_run _ _ _ Hi Hmore)).
  - intros e w' Hstep Hneq.
    destruct (step_warmUp _ _ _ Hstep) as [?|(Hf & id & now & -> & Hcb)];
      [done|].
    split; [by destruct (CB.warmUp w); congruence|]. split; [done|].
    destruct (inv_warmup _ Hi id Hcb) as [Hid _].
    exists id, now. split; [done|]. split; [done|].
    apply callback_of_pending in Hcb as [delay Hp].
    by rewrite Hp, (wired_warmup_delay _ Hw _ _ Hp), Hoptions.
Qed.

Lemma warm_up_ends_once_witness :
  exists w0 w w',
    CB.constructor (with_warmUp 30000 Options.defaults) = Some w0
    /\ CB.run [CB.Request 0; CB.Close 0 3] w0 = Some w
    /\ CB.step (CB.TimerFires 0 10000) w = Some w'
    /\ CB.warmUp w = true
    /\ CB.warmUp w' = false.
Proof.
  destruct (CB.constructor (with_warmUp 30000 Options.defaults))
    as [w0|] eqn:E; [|vm_compute in E; discriminate].
  destruct (CB.run [CB.Request 0; CB.Close 0 3] w0) as [w|] eqn:Er.
  2:{ vm_compute in E. injection E as <-. vm_compute in Er. discriminate. }
  destruct (CB.step (CB.TimerFires 0 10000) w) as [w'|] eqn:Es.
  2:{ vm_compute in E. injection E as <-. vm_compute in Er.
      injection Er as <-. vm_compute in Es. discriminate. }
  assert (Hneq : CB.warmUp w' <> CB.warmUp w).
  { vm_compute in E. injection E as <-. vm_compute in Er.
    injection Er as <-. vm_compute in Es. injection Es as <-. discriminate. }
  destruct (warm_up_ends_once _ _ w0 w E Er) as (_ & _ & H).
  destruct (H _ w' Es Hneq) as (H1 & H2 & _).
  exists w0, w, w'. split; [reflexivity|]. split; [exact Er|].
  split; [exact Es|]. split; assumption.
Defined.

(** X13.  [shutdown] cancels the warm-up timer without clearing the
    warm-up flag.  A breaker that is shut down while warming up therefore
    keeps the flag for ever, whatever happens afterwards, and a reported
    failure never opens it again. *)
Theorem shutdown_freezes_warm_up
    (w : CB.t) (events : list CB.Event) (w' : CB.t) :
  invariant w ->
  CB.warmUp w = true ->
  CB.run events (CB.shutdown w) = Some w' ->
  CB.warmUp w' = true
  /\ exists w'', CB.fail w' = Some w'' /\ CB.state w'' = CB.state w'.
Proof.
  intros Hi Hwu Hrun.
  pose proof (invariant_shutdown w Hi) as Hi0.
  assert (E : CB.warmUp w' = true).
  { rewrite (run_without_warmup_timer events _ w' Hi0); [done| |done].
    intros id. by apply shutdown_no_warmup_timer. }
  split; [exact E|].
  assert (Hi' : invariant w') by (by eapply invariant_run).
  destruct (fail_spec w' (inv_buckets _ Hi')) as (w'' & Hf & _ & Hs).
  exists w''. split; [done|]. by rewrite Hs, E.
Qed.

Lemma shutdown_freezes_warm_up_witness :
  exists w0 w,
    CB.constructor (with_warmUp 30000 Options.defaults) = Some w0
    /\ CB.run [CB.TimerFires 0 10000; CB.CallClose; CB.Request 0;
               CB.Close 0 3] (CB.shutdown w0) = Some w
    /\ CB.warmUp w = true.
Proof.
  destruct (CB.constructor (with_warmUp 30000 Options.defaults))
    as [w0|] eqn:E; [|vm_compute in E; discriminate].
  destruct (CB.run [CB.TimerFires 0 10000; CB.CallClose; CB.Request 0;
                    CB.Close 0 3] (CB.shutdown w0)) as [w|] eqn:Er.
  2:{ vm_compute in E. injection E as <-. vm_compute in Er. discriminate. }
  assert (Hwu : CB.warmUp w0 = true).
  { vm_compute in E. injection E as <-. reflexivity. }
  pose proof (invariant_constructor _ _ E) as Hi.
  destruct (shutdown_freezes_warm_up w0 _ w Hi Hwu Er) as [H _].
  exists w0, w. split; [reflexivity|]. split; [exact Er|exact H].
Defined.

(** X14.  The open guard where the quotient is exact.  When the
    continuation of [fail] runs on a closed breaker after warm-up, it counts
    nothing and leaves the circuit closed or opens it; it leaves it closed
    while the invocation count of the window is below [volumeThreshold].
    With no invocation in the window it opens the circuit exactly when the
    window holds a failure and [volumeThreshold <= 0], whatever
    [errorThresholdPercentage] is; with as many failures as invocations it
    opens exactly when the volume is reached and
    [errorThresholdPercentage < 100]; with no failure in the window it
    opens exactly when the volume is reached and
    [errorThresholdPercentage < 0]. *)
Theorem open_guard_at_the_edges (w : CB.t) :
  invariant w ->
  CB.warmUp w = false ->
  CB.state w = State.closed ->
  let failures := window_total Failures (CB.status w) in
  let fires := window_total Fires (CB.status w) in
  let o := CB.options w in
  exists w',
    CB.fail_resume w = Some w'
    /\ (forall p, CB.snapshot p w' = CB.snapshot p w)
    /\ (CB.state w' = State.open \/ CB.state w' = State.closed)
    /\ ((Z.of_nat fires < Options.volumeThreshold o)%Z ->
        CB.state w' = State.closed)
    /\ (fires = 0 ->
        (CB.state w' = State.open
         <-> 0 < failures /\ (Options.volumeThreshold o <= 0)%Z))
    /\ (0 < fires -> failures = fires ->
        (CB.state w' = State.open
         <-> (Options.volumeThreshold o <= Z.of_nat fires)%Z
             /\ (Options.errorThresholdPercentage o < 100)%Q))
    /\ (0 < fires -> failures = 0 ->
        (CB.state w' = State.open
         <-> (Options.volumeThreshold o <= Z.of_nat fires)%Z
             /\ (Options.errorThresholdPercentage o < 0)%Q)).
Proof.
  intros Hi Hwu Hst failures fires o.
  pose proof (inv_buckets _ Hi) as Hne.
  destruct (fail_resume_spec w Hne) as (w' & Hf & Hr & Hs).
  rewrite Hwu, Hst in Hs. fold failures fires o in Hs.
  assert (Hopen : CB.state w' = State.open
                  <-> trips o State.closed failures fires = true).
  { rewrite Hs. by destruct (trips _ _ _ _). }
  exists w'. split; [done|]. split; [|split; [|split; [|split; [|split]]]].
  - intros p. rewrite (snapshot_recorded _ p w w' Hne Hr).
    rewrite snapshot_total by done. simpl. unfold none. f_equal. lia.
  - rewrite Hs. destruct (trips _ _ _ _); auto.
  - intros Hlt. rewrite Hs.
    destruct (trips o State.closed failures fires) eqn:Ht; [|done].
    apply trips_closed in Ht. lia.
  - intros H0. rewrite Hopen, trips_closed, H0. simpl.
    destruct failures; simpl; split; intros [? ?]; split; try done; lia.
  - intros Hpos Heq. rewrite Hopen, trips_closed, Heq.
    destruct fires as [|m]; [lia|].
    rewrite full_rate, number_gt_Finite. reflexivity.
  - intros Hpos Heq. rewrite Hopen, trips_closed, Heq.
    destruct fires as [|m]; [lia|].
    rewrite no_failure_rate, number_gt_Finite. reflexivity.
Qed.

Lemma open_guard_at_the_edges_witness :
  exists w0 w w1 w',
    CB.constructor (with_thresholds 2 50 Options.defaults) = Some w0
    /\ CB.run [CB.Request 0; CB.Request 1; CB.Close 0 2] w0 = Some w
    /\ CB.state w = State.closed
    /\ CB.fail_sync w = Some w1
    /\ CB.fail_resume w1 = Some w'
    /\ CB.state w' = State.open.
Proof.
  destruct (CB.constructor (with_thresholds 2 50 Options.defaults))
    as [w0|] eqn:E; [|vm_compute in E; discriminate].
  destruct (CB.run [CB.Request 0; CB.Request 1; CB.Close 0 2] w0)
    as [w|] eqn:Er.
  2:{ vm_compute in E. injection E as <-. vm_compute in Er. discriminate. }
  destruct (CB.fail_sync w) as [w1|] eqn:E1.
  2:{ vm_compute in E. injection E as <-. vm_compute in Er.
      injection Er as <-. vm_compute in E1. discriminate. }
  assert (Ew : CB.state w = State.closed
               /\ CB.state w1 = State.closed /\ CB.warmUp w1 = false
               /\ window_total Fires (CB.status w1) = 2
               /\ window_total Failures (CB.status w1) = 2
               /\ CB.options w1 = with_thresholds 2 50 Options.defaults).
  { vm_compute in E. injection E as <-. vm_compute in Er.
    injection Er as <-. vm_compute in E1. injection E1 as <-.
    repeat split; done. }
  destruct Ew as (Hst & Hst1 & Hwu1 & Hfires & Hfailures & Ho).
  assert (Hi : invariant w).
  { eapply invariant_run; [|exact Er]. by eapply invariant_constructor. }
  assert (Hi1 : invariant w1).
  { revert E1. unfold CB.fail_sync.
    destruct (Status.increment Failures None (CB.status w)) as [s|] eqn:Es;
      simpl; [|done].
    intros [= <-]. by apply (invariant_increment w Failures None s Hi). }
  destruct (open_guard_at_the_edges w1 Hi1 Hwu1 Hst1)
    as (w' & Hf & _ & _ & _ & _ & Hfull & _).
  rewrite Hfires, Hfailures, Ho in Hfull.
  assert (Hopen : CB.state w' = State.open).
  { apply Hfull; [lia|done|]. split; [simpl; lia|reflexivity]. }
  exists w0, w, w1, w'. split; [reflexivity|]. split; [exact Er|].
  split; [exact Hst|]. split; [exact E1|]. split; [exact Hf|exact Hopen].
Defined.

(** X15.  A response that finishes or closes before its deadline cancels
    the deadline for good: from then on the deadline timer of that
    invocation is not pending, whatever happens afterwards, and its firing
    changes nothing; in particular it never records a timeout. *)
Theorem timely_completion_cancels_deadline
    (w w1 w2 : CB.t) (k id : nat) (inv : Invocation.t) (e : CB.Event)
    (events : list CB.Event) :
  CB.reachable w ->
  CB.listeners w !! k = Some inv ->
  Invocation.timeoutId inv = Some id ->
  (exists statusCode now, e = CB.Finish k statusCode now)
  \/ (exists now, e = CB.Close k now) ->
  CB.step e w = Some w1 ->
  CB.run events w1 = Some w2 ->
  Timers.callback_of id (CB.timers w1) = None
  /\ Timers.callback_of id (CB.timers w2) = None
  /\ forall now, CB.step (CB.TimerFires id now) w2 = Some w2.
Proof.
  intros Hr Hk Hid He Hstep Hrun.
  pose proof (reachable_invariant w Hr) as Hi.
  pose proof (reachable_wiring w Hr) as Hw.
  assert (Hin : inv ∈ CB.listeners w) by (by eapply list_elem_of_lookup_2).
  destruct (wired_listeners _ Hw inv id Hin Hid) as [Hlt _].
  set (w0 := CB.set_timers
               (Timers.clearHandle (Invocation.timeoutId inv) (CB.timers w))
               w).
  assert (Hi0 : invariant w0) by (by apply invariant_clearHandle).
  assert (Hp0 : Timers.pending (CB.timers w0) !! id = None).
  { unfold w0. simpl. rewrite pending_clearHandle. by case_decide. }
  assert (Hf01 : frame w0 w1).
  { destruct He as [(statusCode & now & ->)|(now & ->)];
      simpl in Hstep; rewrite Hk in Hstep.
    - unfold CB.onFinish in Hstep. fold w0 in Hstep.
      destruct (Options.isError _ _).
      + by apply frame_fail.
      + by apply frame_success.
    - unfold CB.onClose in Hstep. fold w0 in Hstep. by apply frame_fail. }
  assert (Hi1 : invariant w1) by (by apply (invariant_step e w w1 Hi)).
  assert (Hp1 : Timers.pending (CB.timers w1) !! id = None).
  { destruct (frame_old _ _ Hf01 id) as [E|E]; [|congruence|done].
    unfold w0. simpl. by rewrite next_clearHandle. }
  assert (Hlt1 : id < Timers.next (CB.timers w1)).
  { pose proof (frame_next _ _ Hf01) as Hn. unfold w0 in Hn. simpl in Hn.
    rewrite next_clearHandle in Hn. lia. }
  assert (Hp2 : Timers.pending (CB.timers w2) !! id = None).
  { destruct (frame_old _ _ (frame_run _ _ _ Hi1 Hrun) id Hlt1) as [E|E];
      congruence. }
  assert (Hc : forall w', Timers.pending (CB.timers w') !! id = None ->
                          Timers.callback_of id (CB.timers w') = None).
  { intros w' H. unfold Timers.callback_of. by rewrite H. }
  split; [by apply Hc|]. split; [by apply Hc|].
  intros now. simpl. unfold CB.fireTimer. by rewrite (Hc w2 Hp2).
Qed.

Lemma timely_completion_cancels_deadline_witness :
  exists w0 w w1 w2,
    CB.constructor Options.defaults = Some w0
    /\ CB.run [CB.Request 0] w0 = Some w
    /\ CB.step (CB.Finish 0 200 5) w = Some w1
    /\ CB.run [CB.Request 6; CB.RotationTick] w1 = Some w2
    /\ CB.step (CB.TimerFires 0 10000) w2 = Some w2.
Proof.
  destruct (CB.constructor Options.defaults) as [w0|] eqn:E;
    [|vm_compute in E; discriminate].
  destruct (CB.run [CB.Request 0] w0) as [w|] eqn:Er.
  2:{ vm_compute in E. injection E as <-. vm_compute in Er. discriminate. }
  assert (Hk : CB.listeners w !! 0 = Some (Invocation.mk (Some 0) 0)).
  { vm_compute in E. injection E as <-. vm_compute in Er.
    injection Er as <-. reflexivity. }
  assert (Hr : CB.reachable w).
  { eapply reachable_run; [|exact Er]. by eapply CB.reachable_new. }
  pose proof (reachable_invariant w Hr) as Hi.
  destruct (step_is_Some (CB.Finish 0 200 5) w Hi) as [w1 E1].
  assert (Hi1 : invariant w1)
    by (by apply (invariant_step (CB.Finish 0 200 5) w w1 Hi)).
  destruct (run_is_Some [CB.Request 6; CB.RotationTick] w1 Hi1) as [w2 E2].
  destruct (timely_completion_cancels_deadline
              w w1 w2 0 0 (Invocation.mk (Some 0) 0) (CB.Finish 0 200 5)
              [CB.Request 6; CB.RotationTick] Hr Hk eq_refl)
    as (_ & _ & H); [left; eauto|exact E1|exact E2|].
  exists w0, w, w1, w2. split; [reflexivity|]. split; [exact Er|].
  split; [exact E1|]. split; [exact E2|apply H].
Defined.

(** X16.  While the circuit is open, reports only count: whatever is
    reported (invocations, successes, failures, expired deadlines, ticks of
    the window), the state stays open, and no timer is set or cancelled, so
    the pending reset timer is the one that [open] started.  A failure
    reported while the circuit is open does not postpone the half-open
    probe. *)
Theorem reports_while_open_keep_the_reset_timer
    (w : CB.t) (rs : list CB.Report) :
  invariant w ->
  CB.state w = State.open ->
  exists w',
    CB.reports rs w = Some w'
    /\ CB.state w' = State.open
    /\ CB.timers w' = CB.timers w
    /\ CB.resetTimeout w' = CB.resetTimeout w
    /\ CB.open w' = Some w'.
Proof.
  intros Hi Hst.
  assert (Hone : forall r w,
            Status.buckets (CB.status w) <> [] ->
            CB.state w = State.open ->
            exists s,
              CB.report r w = Some (CB.set_status s w)
              /\ Status.buckets s <> []).
  { clear. intros r w Hne Hst. destruct r; simpl.
    - unfold CB.countInvocation.
      destruct (increment_is_Some Fires None (CB.status w) Hne) as [s Hs].
      rewrite Hs. simpl. exists s. split; [done|].
      by eapply increment_buckets_nonempty.
    - unfold CB.success.
      destruct (increment_is_Some Successes None (CB.status w) Hne) as [s Hs].
      rewrite Hs. simpl. rewrite Hst. simpl. exists s. split; [done|].
      by eapply increment_buckets_nonempty.
    - destruct (fail_while_open w Hne Hst) as (s & Hs & Hf).
      exists s. split; [done|]. by eapply increment_buckets_nonempty.
    - unfold CB.onTimeout.
      destruct (increment_is_Some Timeouts (Some (latency - 0)%Z)
                                  (CB.status w) Hne) as [s Hs].
      rewrite Hs. simpl.
      assert (Hne' : Status.buckets s <> [])
        by (by eapply increment_buckets_nonempty).
      destruct (fail_while_open (CB.set_status s w) Hne' Hst)
        as (s' & Hs' & Hf).
      rewrite Hf. exists s'. split; [done|].
      by eapply increment_buckets_nonempty.
    - eexists. split; [reflexivity|].
      eapply buckets_nonempty_length_status; [exact Hne|].
      by apply rotationTick_length. }
  pose proof (inv_buckets _ Hi) as Hne. clear Hi.
  revert w Hne Hst. induction rs as [|r rs IH]; intros w Hne Hst; simpl.
  - exists w. split; [done|]. split; [done|]. split; [done|]. split; [done|].
    unfold CB.open. by rewrite Hst.
  - destruct (Hone r w Hne Hst) as (s & -> & Hne'). simpl.
    destruct (IH (CB.set_status s w) Hne' Hst) as (w' & H & Hs & Ht & Hrt & Ho).
    exists w'. split; [done|]. split; [done|]. split; [done|].
    split; [done|]. exact Ho.
Qed.

Lemma reports_while_open_keep_the_reset_timer_witness :
  exists w0 w w',
    CB.constructor Options.defaults = Some w0
    /\ CB.open w0 = Some w
    /\ CB.reports [CB.Invoked; CB.Failed; CB.TimedOut 10000; CB.Succeeded] w
       = Some w'
    /\ CB.state w' = State.open
    /\ CB.timers w' = CB.timers w.
Proof.
  destruct (CB.constructor Options.defaults) as [w0|] eqn:E;
    [|vm_compute in E; discriminate].
  pose proof (invariant_constructor _ _ E) as Hi0.
  destruct (open_spec w0 (inv_buckets _ Hi0)) as (w & Ho & Hst & _).
  assert (Hi : invariant w) by (by eapply invariant_open).
  destruct (reports_while_open_keep_the_reset_timer
              w [CB.Invoked; CB.Failed; CB.TimedOut 10000; CB.Succeeded]
              Hi Hst) as (w' & Hr & Hs & Ht & _).
  exists w0, w, w'. split; [reflexivity|]. split; [exact Ho|].
  split; [exact Hr|]. split; assumption.
Defined.

(** X17.  A breaker built with [enabled: false] is inert under traffic:
    whatever requests, responses, timers and ticks arrive, no request is
    counted and no listener or deadline is registered, so the state stays
    closed, the window stays empty and every counter of the snapshot stays
    0. *)
Theorem disabled_breaker_is_inert
    (options : Options.t) (events : list CB.Event) (w0 : CB.t) :
  Options.enabled options = false ->
  CB.constructor options = Some w0 ->
  Forall (fun e => is_traffic e = true) events ->
  exists w,
    CB.run events w0 = Some w
    /\ CB.state w = State.closed
    /\ CB.listeners w = []
    /\ Status.buckets (CB.status w) = Status.buckets (CB.status w0)
    /\ (forall p, CB.snapshot p w = Some 0)
    /\ forall now, CB.middleware now w = Some (w, CB.Disabled).
Proof.
  intros Hoff Hc Hall.
  set (n := Z.to_nat (Options.rollingCountBuckets options)).
  set (idle := fun w : CB.t =>
         Options.enabled (CB.options w) = false
         /\ CB.state w = State.closed
         /\ CB.listeners w = []
         /\ Status.buckets (CB.status w) = replicate n Status.createBucket
         /\ forall id c, Timers.callback_of id (CB.timers w) = Some c ->
                         c = WarmUpCallback).
  assert (Hi0 : invariant w0) by (by eapply invariant_constructor).
  assert (Hn : 0 < n).
  { pose proof (inv_buckets _ Hi0) as Hne. apply nonempty_length in Hne.
    rewrite (inv_length _ Hi0) in Hne.
    destruct (constructor_Some _ _ Hc) as (_ & _ & Ew). rewrite Ew in Hne.
    simpl in Hne; exact Hne. }
  assert (Hidle0 : idle w0).
  { destruct (constructor_Some _ _ Hc) as (_ & _ & ->). unfold idle.
    destruct (Options.allowWarmUp options); simpl;
      repeat (split; [done|]).
    - intros id c. unfold Timers.callback_of. simpl.
      destruct (decide (id = 0)) as [->|Hne].
      + rewrite lookup_insert_eq. by intros [= <-].
      + by rewrite lookup_insert_ne, lookup_empty.
    - intros id c. unfold Timers.callback_of. simpl.
      by rewrite lookup_empty. }
  assert (Hstep : forall e w,
            is_traffic e = true -> idle w ->
            exists w', CB.step e w = Some w' /\ idle w').
  { clear -Hn. intros e w He (Hoff & Hst & Hl & Hb & Ht).
    destruct e; try done; simpl.
    - unfold CB.middleware. rewrite Hoff. simpl. by exists w.
    - rewrite Hl. simpl. by exists w.
    - rewrite Hl. simpl. by exists w.
    - unfold CB.fireTimer.
      destruct (Timers.callback_of id (CB.timers w)) as [c|] eqn:Hc;
        [|by exists w].
      rewrite (Ht id c Hc). eexists. split; [reflexivity|].
      repeat (split; [done|]). simpl.
      intros id' c' [H _]%callback_of_clearTimeout_Some. by eapply Ht.
    - eexists. split; [reflexivity|].
      repeat (split; [done|]). split; [|done].
      unfold CB.rotation, Status.rotationTick. simpl.
      destruct (Status.rotationTimer (CB.status w)); [|done].
      simpl. rewrite Hb. by apply replicate_rotate. }
  assert (Hrun : forall events w,
            Forall (fun e => is_traffic e = true) events -> idle w ->
            exists w', CB.run events w = Some w' /\ idle w').
  { clear -Hstep. induction events as [|e events IH]; intros w Hall Hw; simpl.
    - by exists w.
    - inversion Hall as [|? ? He Hes]; subst.
      destruct (Hstep e w He Hw) as (w1 & -> & Hw1). simpl.
      by apply IH. }
  destruct (Hrun events w0 Hall Hidle0) as (w & Hw & Hoff' & Hst & Hl & Hb & _).
  destruct Hidle0 as (_ & _ & _ & Hb0 & _).
  exists w. split; [done|]. split; [done|]. split; [done|].
  split; [congruence|]. split.
  - intros p. rewrite snapshot_total.
    + f_equal. unfold window_total. rewrite Hb.
      clear. induction n as [|m IH]; csimpl; [done|].
      rewrite IH. by destruct p.
    + rewrite Hb. apply nonempty_length. by rewrite length_replicate.
  - intros now. unfold CB.middleware. by rewrite Hoff'.
Qed.

Lemma disabled_breaker_is_inert_witness :
  exists w0 w,
    CB.constructor (with_switches false false Options.defaults) = Some w0
    /\ CB.run [CB.Request 0; CB.Close 0 5; CB.TimerFires 0 10000;
               CB.RotationTick] w0 = Some w
    /\ CB.snapshot Fires w = Some 0.
Proof.
  destruct (CB.constructor (with_switches false false Options.defaults))
    as [w0|] eqn:E; [|vm_compute in E; discriminate].
  destruct (disabled_breaker_is_inert
              (with_switches false false Options.defaults)
              [CB.Request 0; CB.Close 0 5; CB.TimerFires 0 10000;
               CB.RotationTick] w0 eq_refl E)
    as (w & Hrun & _ & _ & _ & Hzero & _).
  { repeat constructor. }
  exists w0, w. split; [reflexivity|]. split; [exact Hrun|apply Hzero].
Defined.

(** X18.  What an enabled middleware does with a request.  The request is
    counted as an invocation in every case, and the state does not change.
    It is rejected (503) exactly when the circuit is open and [logOnly] is
    off; then no timer is set and no listener is registered.  In every
    other case, and so in the half-open and the shutdown state as well, it
    is forwarded: its listeners are registered and, if a deadline is
    configured, a new deadline timer with the configured delay is
    pending. *)
Theorem admission_decision (w : CB.t) (now : Z) :
  invariant w ->
  Options.enabled (CB.options w) = true ->
  exists w' a,
    CB.middleware now w = Some (w', a)
    /\ CB.state w' = CB.state w
    /\ CB.snapshot Fires w' = S <$> CB.snapshot Fires w
    /\ a <> CB.Disabled
    /\ (a = CB.Rejected
        <-> CB.state w = State.open
            /\ Options.logOnly (CB.options w) = false)
    /\ (a = CB.Rejected ->
        CB.timers w' = CB.timers w /\ CB.listeners w' = CB.listeners w)
    /\ forall inv,
         a = CB.Forwarded inv ->
         CB.listeners w' = CB.listeners w ++ [inv]
         /\ Invocation.startedAt inv = now
         /\ match Options.timeout (CB.options w) with
            | Some delay =>
                exists id,
                  Invocation.timeoutId inv = Some id
                  /\ Timers.callback_of id (CB.timers w) = None
                  /\ Timers.pending (CB.timers w') !! id
                     = Some (RequestTimeoutCallback now, delay)
            | None =>
                Invocation.timeoutId inv = None
                /\ CB.timers w' = CB.timers w
            end.
Proof.
  intros Hi Hon.
  pose proof (inv_buckets _ Hi) as Hne.
  destruct (countInvocation_spec w Hne) as (w1 & E1 & Hs1 & Hr1).
  pose proof (snapshot_recorded_one Fires Fires w w1 Hne Hr1) as Hfires.
  rewrite decide_True in Hfires by done.
  assert (Hfields : CB.options w1 = CB.options w
                    /\ CB.timers w1 = CB.timers w
                    /\ CB.listeners w1 = CB.listeners w).
  { revert E1. unfold CB.countInvocation.
    destruct (Status.increment _ _ _); simpl; [|done]. by intros [= <-]. }
  destruct Hfields as (Eo & Et & El).
  assert (Hsnap : forall w' : CB.t,
            CB.status w' = CB.status w1 ->
            CB.snapshot Fires w' = S <$> CB.snapshot Fires w).
  { intros w' Es. rewrite <- Hfires. unfold CB.snapshot. by rewrite Es. }
  assert (Hforward :
            State.eqb (CB.state w) State.open
            && negb (Options.logOnly (CB.options w)) = false ->
            exists w' inv,
              CB.middleware now w = Some (w', CB.Forwarded inv)
              /\ CB.state w' = CB.state w
              /\ CB.status w' = CB.status w1
              /\ CB.listeners w' = CB.listeners w ++ [inv]
              /\ Invocation.startedAt inv = now
              /\ match Options.timeout (CB.options w) with
                 | Some delay =>
                     exists id,
                       Invocation.timeoutId inv = Some id
                       /\ Timers.callback_of id (CB.timers w) = None
                       /\ Timers.pending (CB.timers w') !! id
                          = Some (RequestTimeoutCallback now, delay)
                 | None =>
                     Invocation.timeoutId inv = None
                     /\ CB.timers w' = CB.timers w
                 end).
  { intros Hguard. unfold CB.middleware.
    rewrite Hon, E1. simpl. rewrite Hs1, Eo, Hguard.
    destruct (Options.timeout (CB.options w)) as [delay|] eqn:Etime; simpl.
    - eexists. eexists. split; [reflexivity|]. simpl.
      split; [done|]. split; [done|]. split; [by rewrite El|].
      split; [done|].
      eexists. split; [reflexivity|]. rewrite Et. split.
      + destruct (Timers.callback_of _ _) as [c|] eqn:Hc; [|done].
        apply (inv_fresh _ Hi) in Hc. lia.
      + by rewrite lookup_insert_eq.
    - eexists. eexists. split; [reflexivity|]. simpl.
      split; [done|]. split; [done|]. split; [by rewrite El|].
      split; [done|]. split; [done|]. exact Et. }
  destruct (State.eqb (CB.state w) State.open
            && negb (Options.logOnly (CB.options w))) eqn:Hguard.
  - apply andb_true_iff in Hguard as [Hopen%State_eqb_eq Hlog%negb_true_iff].
    exists w1, CB.Rejected. split.
    { unfold CB.middleware. rewrite Hon, E1. simpl.
      by rewrite Hs1, Eo, Hopen, Hlog. }
    split; [done|]. split; [by apply Hsnap|]. split; [done|].
    split; [done|]. split; [done|]. by intros inv.
  - destruct (Hforward eq_refl)
      as (w' & inv & Hm & Hs & Est & Hl & Hstart & Htimer).
    exists w', (CB.Forwarded inv). split; [done|]. split; [done|].
    split; [by apply Hsnap|]. split; [done|].
    split.
    { split; [done|]. intros [Hopen Hlog].
      rewrite Hopen, Hlog in Hguard. done. }
    split; [done|].
    intros inv' [= <-]. done.
Qed.

Lemma admission_decision_witness :
  exists w0 w w' a,
    CB.constructor Options.defaults = Some w0
    /\ CB.run [CB.CallOpen; CB.TimerFires 0 30000] w0 = Some w
    /\ CB.state w = State.half_open
    /\ CB.middleware 30001 w = Some (w', a)
    /\ a <> CB.Rejected.
Proof.
  destruct (CB.constructor Options.defaults) as [w0|] eqn:E;
    [|vm_compute in E; discriminate].
  destruct (CB.run [CB.CallOpen; CB.TimerFires 0 30000] w0) as [w|] eqn:Er.
  2:{ vm_compute in E. injection E as <-. vm_compute in Er. discriminate. }
  assert (Hst : CB.state w = State.half_open).
  { vm_compute in E. injection E as <-. vm_compute in Er.
    injection Er as <-. reflexivity. }
  assert (Hon : Options.enabled (CB.options w) = true).
  { vm_compute in E. injection E as <-. vm_compute in Er.
    injection Er as <-. reflexivity. }
  assert (Hi : invariant w).
  { eapply invariant_run; [|exact Er]. by eapply invariant_constructor. }
  destruct (admission_decision w 30001 Hi Hon)
    as (w' & a & Hm & _ & _ & _ & Hrej & _).
  exists w0, w, w', a. split; [reflexivity|]. split; [exact Er|].
  split; [exact Hst|]. split; [exact Hm|].
  intros Ha. apply Hrej in Ha as [Ha _]. congruence.
Defined.

(** X19.  With [logOnly] the breaker never rejects: in every state that it
    reaches, the open state included, a request is forwarded (or, if the
    breaker is disabled, passed through). *)
Theorem log_only_never_rejects
    (options : Options.t) (events : list CB.Event) (w0 w : CB.t) (now : Z) :
  Options.logOnly options = true ->
  CB.constructor options = Some w0 ->
  CB.run events w0 = Some w ->
  exists w' a, CB.middleware now w = Some (w', a) /\ a <> CB.Rejected.
Proof.
  intros Hlog Hc Hrun.
  assert (Hi0 : invariant w0) by (by eapply invariant_constructor).
  assert (Hi : invariant w) by (by eapply invariant_run).
  assert (Ho : CB.options w0 = options).
  { by destruct (constructor_Some _ _ Hc) as (_ & _ & ->). }
  assert (Hoptions : CB.options w = options).
  { by rewrite (frame_options _ _ (frame_run _ _ _ Hi0 Hrun)). }
  destruct (step_is_Some (CB.Request now) w Hi) as [w' Hstep].
  simpl in Hstep.
  destruct (CB.middleware now w) as [[w1 a]|] eqn:Hm; [|done].
  exists w1, a. split; [done|].
  revert Hm. unfold CB.middleware.
  destruct (negb _); [by intros [= _ <-]|].
  destruct (CB.countInvocation w) as [w2|] eqn:E2; simpl; [|done].
  assert (Eo : CB.options w2 = CB.options w).
  { revert E2. unfold CB.countInvocation.
    destruct (Status.increment _ _ _); simpl; [|done]. by intros [= <-]. }
  rewrite Eo, Hoptions, Hlog, andb_false_r.
  destruct (Options.timeout options); simpl; by intros [= _ <-].
Qed.

Lemma log_only_never_rejects_witness :
  exists w0 w w' a,
    CB.constructor (with_switches true true Options.defaults) = Some w0
    /\ CB.run [CB.CallOpen] w0 = Some w
    /\ CB.state w = State.open
    /\ CB.middleware 1 w = Some (w', a)
    /\ a <> CB.Rejected.
Proof.
  destruct (CB.constructor (with_switches true true Options.defaults))
    as [w0|] eqn:E; [|vm_compute in E; discriminate].
  destruct (CB.run [CB.CallOpen] w0) as [w|] eqn:Er.
  2:{ vm_compute in E. injection E as <-. vm_compute in Er. discriminate. }
  assert (Hst : CB.state w = State.open).
  { vm_compute in E. injection E as <-. vm_compute in Er.
    injection Er as <-. reflexivity. }
  destruct (log_only_never_rejects
              (with_switches true true Options.defaults) [CB.CallOpen]
              w0 w 1 eq_refl E Er) as (w' & a & Hm & Ha).
  exists w0, w, w', a. split; [reflexivity|]. split; [exact Er|].
  split; [exact Hst|]. split; assumption.
Defined.

(** X20.  The books of the events.  An event other than a tick of the
    window adds exactly its tally to each counter of the snapshot: an
    enabled request one invocation, whether it is rejected or not; a
    finished response one failure or one success; a closed response one
    failure; an expired deadline one timeout and one failure; [success] one
    success; [open], [close], [shutdown], the reset timer and the warm-up
    timer nothing.  A tick of the window never adds to a counter. *)
Theorem events_add_their_tally (e : CB.Event) (w w' : CB.t) (p : Property) :
  invariant w ->
  CB.step e w = Some w' ->
  exists n n',
    CB.snapshot p w = Some n
    /\ CB.snapshot p w' = Some n'
    /\ if is_tick e then n' <= n else n' = n + event_tally p e w.
Proof.
  intros Hi Hstep.
  assert (Hi' : invariant w') by (by apply (invariant_step e w w' Hi)).
  exists (window_total p (CB.status w)), (window_total p (CB.status w')).
  split; [apply snapshot_total, Hi|]. split; [apply snapshot_total, Hi'|].
  destruct (is_tick e) eqn:Et.
  - destruct e; try done. simpl in Hstep. injection Hstep as <-.
    apply rotationTick_total.
  - by apply step_totals; [|left|].
Qed.

Lemma events_add_their_tally_witness :
  exists w0 w w',
    CB.constructor Options.defaults = Some w0
    /\ CB.run [CB.Request 0] w0 = Some w
    /\ CB.step (CB.TimerFires 0 10000) w = Some w'
    /\ CB.snapshot Timeouts w' = Some 1
    /\ CB.snapshot Failures w' = Some 1.
Proof.
  destruct (CB.constructor Options.defaults) as [w0|] eqn:E;
    [|vm_compute in E; discriminate].
  destruct (CB.run [CB.Request 0] w0) as [w|] eqn:Er.
  2:{ vm_compute in E. injection E as <-. vm_compute in Er. discriminate. }
  assert (Hi : invariant w).
  { eapply invariant_run; [|exact Er]. by eapply invariant_constructor. }
  destruct (step_is_Some (CB.TimerFires 0 10000) w Hi) as [w' Hs].
  assert (Hcb : Timers.callback_of 0 (CB.timers w)
                = Some (RequestTimeoutCallback 0)).
  { vm_compute in E. injection E as <-. vm_compute in Er.
    injection Er as <-. reflexivity. }
  assert (H0 : forall p, CB.snapshot p w
                         = Some (if decide (p = Fires) then 1 else 0)).
  { vm_compute in E. injection E as <-. vm_compute in Er.
    injection Er as <-. by intros []. }
  destruct (events_add_their_tally _ w w' Timeouts Hi Hs)
    as (n & n' & Hn & Hn' & Ht).
  destruct (events_add_their_tally _ w w' Failures Hi Hs)
    as (m & m' & Hm & Hm' & Hf).
  simpl in Ht, Hf. rewrite Hcb in Ht, Hf.
  rewrite H0 in Hn, Hm. injection Hn as <-. injection Hm as <-.
  exists w0, w, w'. split; [reflexivity|]. split; [exact Er|].
  split; [exact Hs|]. split.
  - rewrite Hn', Ht. reflexivity.
  - rewrite Hm', Hf. reflexivity.
Defined.

(** *** Buckets as objects *)

Section Aliasing.

Lemma execs_separated ops : forall s h ps,
  StatusObj.read_status h s = Some ps ->
  separated h s ->
  StatusObj.buckets s <> [] ->
  exists s' h' ps',
    StatusObj.execs ops (s, h) = Some (s', h')
    /\ all_on_values ops ps = Some ps'
    /\ StatusObj.read_status h' s' = Some ps'
    /\ separated h' s'
    /\ StatusObj.buckets s' <> [].
Proof.
  induction ops as [|op ops IH]; intros s h ps Hps Hsep Hne.
  - simpl. eauto 10.
  - change (StatusObj.execs (op :: ops) (s, h))
      with (sh ← StatusObj.exec op (s, h); StatusObj.execs ops sh).
    destruct (exec_refines op s h ps Hps Hsep Hne)
      as (s1 & h1 & ps1 & -> & Hv & Hps1 & Hsep1 & Hne1).
    simpl. rewrite Hv. simpl. by apply IH.
Qed.

Lemma read_status_buckets h s ps :
  StatusObj.read_status h s = Some ps ->
  StatusObj.read_buckets h s = Some (Status.buckets ps).
Proof.
  unfold StatusObj.read_status.
  destruct (StatusObj.read_buckets h s); simpl; [|done]. by intros [= <-].
Qed.

End Aliasing.

(** X21.  The buckets of the window are separate objects.  On the model
    with object identity, after the constructor and any sequence of
    increments, rotations, [open] and [close], the window holds pairwise
    distinct bucket objects, its buckets read as the buckets of the window
    of values after the same operations, and an [increment] changes the
    current bucket only: every other bucket reads after it as it did
    before. *)
Theorem increment_changes_one_bucket
    (options : StatusOptions.t) (h0 : gmap positive Store.object)
    (ops : list StatusObj.Op) (property : Property) (latency : option Z) :
  (1 <= StatusOptions.rollingCountBuckets options)%Z ->
  exists s h ps b rest h',
    StatusObj.execs ops (StatusObj.constructor options h0) = Some (s, h)
    /\ all_on_values ops (Status.constructor options) = Some ps
    /\ NoDup (StatusObj.buckets s)
    /\ StatusObj.read_buckets h s = Some (b :: rest)
    /\ Status.buckets ps = b :: rest
    /\ StatusObj.increment property latency s h = Some h'
    /\ StatusObj.read_buckets h' s
       = Some (Status.push_latency latency (Status.bump property b) :: rest).
Proof.
  intros Hn.
  destruct (StatusObj.constructor options h0) as [s0 hc] eqn:Ec.
  destruct (constructor_refines _ _ _ _ Ec) as [Hps0 Hsep0].
  destruct (constructor_readable _ _ _ _ Ec) as [_ Hlen].
  assert (Hne0 : StatusObj.buckets s0 <> []).
  { apply nonempty_length. lia. }
  destruct (execs_separated ops s0 hc _ Hps0 Hsep0 Hne0)
    as (s & h & ps & Hrun & Hv & Hps & Hsep & Hne).
  destruct (increment_refines property latency s h ps Hps Hsep Hne)
    as (h' & ps' & Hinc & Hinc' & Hps' & _).
  unfold Status.increment in Hinc'.
  destruct (Status.buckets ps) as [|b rest] eqn:Eb; [done|].
  injection Hinc' as <-.
  exists s, h, ps, b, rest, h'.
  split; [done|]. split; [done|]. split; [by destruct Hsep|].
  split; [by rewrite (read_status_buckets _ _ _ Hps), Eb|].
  split; [done|]. split; [done|].
  by rewrite (read_status_buckets _ _ _ Hps').
Qed.

Lemma increment_changes_one_bucket_witness :
  exists s h b rest h',
    StatusObj.execs [StatusObj.Increment Fires None; StatusObj.Rotate]
      (StatusObj.constructor (StatusOptions.mk 3 3000 None) ∅) = Some (s, h)
    /\ StatusObj.read_buckets h s = Some (b :: rest)
    /\ StatusObj.increment Timeouts (Some 100%Z) s h = Some h'
    /\ StatusObj.read_buckets h' s
       = Some (Status.push_latency (Some 100%Z) (Status.bump Timeouts b)
               :: rest).
Proof.
  destruct (increment_changes_one_bucket (StatusOptions.mk 3 3000 None) ∅
              [StatusObj.Increment Fires None; StatusObj.Rotate]
              Timeouts (Some 100%Z))
    as (s & h & ps & b & rest & h' & Hrun & _ & _ & Hbs & _ & Hinc & Hbs').
  { simpl. lia. }
  exists s, h, b, rest, h'. repeat split; assumption.
Defined.

(** X22.  [open] and [close] are idempotent, and [close] undoes [open]: a
    second [open] in a row, or a second [close], changes nothing; after
    [open] and then [close] the circuit is closed, no reset timer is pending
    (the one that [open] started was cancelled), the flag of the snapshot
    is off and the counters of the snapshot are what they were. *)
Theorem open_and_close_compose (w : CB.t) :
  invariant w ->
  exists w1 w2,
    CB.open w = Some w1
    /\ CB.open w1 = Some w1
    /\ CB.close w1 = Some w2
    /\ CB.close w2 = Some w2
    /\ CB.state w2 = State.closed
    /\ (forall id,
          Timers.callback_of id (CB.timers w2) <> Some ResetCallback)
    /\ snapshot_flag w2 = Some false
    /\ forall p, CB.snapshot p w2 = CB.snapshot p w.
Proof.
  intros Hi.
  pose proof (inv_buckets _ Hi) as Hne.
  destruct (open_spec w Hne) as (w1 & H1 & Hs1 & Hr1).
  assert (Hi1 : invariant w1) by (by apply (invariant_open w w1 Hi)).
  pose proof (inv_buckets _ Hi1) as Hne1.
  destruct (close_spec w1 Hne1) as (w2 & H2 & Hs2 & Hr2).
  assert (Hi2 : invariant w2) by (by apply (invariant_close w1 w2 Hi1)).
  exists w1, w2. split; [done|].
  split; [unfold CB.open; by rewrite Hs1|]. split; [done|].
  split; [unfold CB.close; by rewrite Hs2|]. split; [done|].
  split; [|split].
  - intros id Hc. destruct (inv_reset _ Hi2 id Hc). congruence.
  - revert H2. unfold CB.close. rewrite Hs1. simpl.
    destruct (Status.buckets (CB.status w1)) as [|b bs] eqn:Eb; [done|].
    unfold Status.close. rewrite Eb. simpl. intros [= <-].
    unfold snapshot_flag, Status.stats. simpl. reflexivity.
  - intros p.
    rewrite (snapshot_recorded _ p w1 w2 Hne1 Hr2).
    rewrite (snapshot_recorded _ p w w1 Hne Hr1).
    rewrite snapshot_total by done. simpl. unfold none. f_equal. lia.
Qed.

Lemma open_and_close_compose_witness :
  exists w0 w1 w2,
    CB.constructor Options.defaults = Some w0
    /\ CB.open w0 = Some w1
    /\ CB.close w1 = Some w2
    /\ CB.state w2 = State.closed.
Proof.
  destruct (CB.constructor Options.defaults) as [w0|] eqn:E;
    [|vm_compute in E; discriminate].
  pose proof (invariant_constructor _ _ E) as Hi.
  destruct (open_and_close_compose w0 Hi)
    as (w1 & w2 & H1 & _ & H2 & _ & Hs & _).
  exists w0, w1, w2. split; [reflexivity|]. repeat split; assumption.
Defined.

(** *** Requests and their responses *)

Section ServedFacts.

Implicit Types (w : CB.t) (e : CB.Event) (events : list CB.Event).






End ServedFacts.



